(** * QAOA features of Intel-QS: a shallow embedding of
      [util/extra_features/qaoa_features.cpp]

    Conventions of the embedding.
    - [std::size_t] is a 64-bit unsigned integer and [unsigned] a 32-bit one:
      both are values of [Z] with the wrap-around written out ([to_size_t],
      [to_unsigned]).
    - [int] is a 32-bit two's complement integer: a value of [Z] reduced by
      [to_int] after every addition, subtraction and multiplication of
      entries of the adjacency vector.  The C++ standard leaves signed
      overflow undefined; the wrap-around is what the compiled code does on
      the two's complement machines that the simulator runs on.  [/] and [%]
      on [int] are [Z.quot] and [Z.rem] (truncation towards zero).  Loop
      counters stay in [Z]: they are bounded by the size of a vector.
    - The amplitude type [Type] is a template parameter
      ([std::complex<double>] or [std::complex<float>]); the operations on it
      and on its [BaseType] that the file uses are the fields of the class
      [Arithmetic] of a [BaseType].  Nothing is assumed of them: no law of
      the real numbers holds of [double] or [float].  The two instances
      [binary64] and [binary32] compute with the IEEE-754 operations of the
      standard library's [SpecFloat], rounding to nearest, ties to even.
    - [assert] is enabled.  A failed assertion is the outcome [AssertFail];
      an access outside a vector or a shift by the full width of the type is
      the outcome [Undefined].
    - An OpenMP loop whose iterations are independent is run in index order.
      Where the threads accumulate (the reduction of the expectation value,
      the private histograms), a schedule gives to each thread the iterations
      it runs, in the order it runs them, and a reduction plan gives the
      order in which OpenMP combines the private copies.
    - An MPI run is the list of the per-rank registers; a collective
      reduction combines the per-rank contributions in the order of a
      reduction plan. *)

From Stdlib Require Import ZArith List Bool Lia Permutation SpecFloat.
Import ListNotations.

Local Open Scope Z_scope.

(** ** Outcomes of a call *)

Inductive outcome (A : Type) : Type :=
| Ok (a : A)
| AssertFail
| Undefined.

Arguments Ok {A} a.
Arguments AssertFail {A}.
Arguments Undefined {A}.

Definition bind {A B : Type} (m : outcome A) (f : A -> outcome B) : outcome B :=
  match m with
  | Ok a => f a
  | AssertFail => AssertFail
  | Undefined => Undefined
  end.

Notation "x <- m ;; k" := (bind m (fun x => k))
  (at level 61, m at next level, right associativity).
Notation "' p <- m ;; k" := (bind m (fun x => let p := x in k))
  (at level 61, p pattern, m at next level, right associativity).

(** [assert(b)]. *)
Definition assert (b : bool) : outcome unit :=
  if b then Ok tt else AssertFail.

(** [v[i]] read from a [std::vector]. *)
Definition at_index {A : Type} (v : list A) (i : Z) : outcome A :=
  if i <? 0 then Undefined
  else match nth_error v (Z.to_nat i) with
       | Some a => Ok a
       | None => Undefined
       end.

(** [v[i] = a] written to a [std::vector]. *)
Fixpoint set_nth {A : Type} (v : list A) (i : nat) (a : A) : list A :=
  match v, i with
  | [], _ => []
  | _ :: r, O => a :: r
  | b :: r, S j => b :: set_nth r j a
  end.

Definition store {A : Type} (v : list A) (i : Z) (a : A) : outcome (list A) :=
  if (0 <=? i) && (i <? Z.of_nat (length v)) then Ok (set_nth v (Z.to_nat i) a)
  else Undefined.

(** [for (i = lo; i < hi; ++i) body], the state threaded through. *)
Fixpoint for_count {S : Type} (count : nat) (i : Z)
    (body : Z -> S -> outcome S) (s : S) : outcome S :=
  match count with
  | O => Ok s
  | Datatypes.S c => s' <- body i s ;; for_count c (i + 1) body s'
  end.

Definition for_loop {S : Type} (lo hi : Z)
    (body : Z -> S -> outcome S) (s : S) : outcome S :=
  for_count (Z.to_nat (hi - lo)) lo body s.

(** A loop over the iterations given to one thread. *)
Fixpoint for_each {S : Type} (iterations : list Z)
    (body : Z -> S -> outcome S) (s : S) : outcome S :=
  match iterations with
  | [] => Ok s
  | i :: r => s' <- body i s ;; for_each r body s'
  end.

(** ** Machine integers *)

Definition SIZE_T_BITS : Z := 64.
Definition UNSIGNED_BITS : Z := 32.
Definition INT_BITS : Z := 32.

Definition to_size_t (z : Z) : Z := z mod 2 ^ SIZE_T_BITS.
Definition to_unsigned (z : Z) : Z := z mod 2 ^ UNSIGNED_BITS.

(** The value of type [int] that a result [z] of [int] arithmetic is stored
    as: [z] reduced into [[-2^31, 2^31)]. *)
Definition to_int (z : Z) : Z :=
  (z + 2 ^ (INT_BITS - 1)) mod 2 ^ INT_BITS - 2 ^ (INT_BITS - 1).

(** [(size_t)a << s]: defined only for a shift smaller than the width. *)
Definition shl_size_t (a s : Z) : outcome Z :=
  if s <? SIZE_T_BITS then Ok (to_size_t (a * 2 ^ s)) else Undefined.

(** ** namespace qaoa::utility *)

Module utility.

(** The loop of [ConvertToBinary]: position [pos] of [z] receives [k%2] and
    [k] becomes [k/2], from position 0 upwards. *)
Fixpoint ConvertToBinary_loop (k : Z) (z : list Z) : list Z :=
  match z with
  | [] => []
  | _ :: r => (k mod 2) :: ConvertToBinary_loop (k / 2) r
  end.

(** [ConvertToBinary(k, z)] with [T_decimal = std::size_t]; the result is the
    new content of [z]. *)
Definition ConvertToBinary (k : Z) (z : list Z) : outcome (list Z) :=
  limit <- shl_size_t 1 (to_size_t (Z.of_nat (length z))) ;;
  _ <- (if k >=? limit then AssertFail else Ok tt) ;;
  Ok (ConvertToBinary_loop k z).

(** The loop of [ConvertToDecimal], [pos] running downwards to 1. *)
Fixpoint ConvertToDecimal_loop (z : list Z) (pos : nat) (k : Z) : outcome Z :=
  match pos with
  | O => Ok k
  | S p =>
      b <- at_index z (Z.of_nat pos) ;;
      ConvertToDecimal_loop z p (to_size_t (to_size_t (k + to_size_t b) * 2))
  end.

(** [ConvertToDecimal(z, k)] with [T_decimal = std::size_t]; the result is
    the final [k]. *)
Definition ConvertToDecimal (z : list Z) : outcome Z :=
  let pos := to_unsigned (to_size_t (Z.of_nat (length z) - 1)) in
  k <- ConvertToDecimal_loop z (Z.to_nat pos) 0 ;;
  b <- at_index z 0 ;;
  Ok (to_size_t (k + to_size_t b)).

End utility.

(** The names of the specification: a fresh vector of [width] entries is
    decoded into; encoding is [ConvertToDecimal]. *)
Definition DecodeToBits (k width : Z) : outcome (list Z) :=
  utility.ConvertToBinary k (repeat 0 (Z.to_nat width)).

Definition EncodeFromBits (bits : list Z) : outcome Z :=
  utility.ConvertToDecimal bits.

(** [sum(bits[i] * 2^i)], least significant bit first. *)
Fixpoint bits_value (bits : list Z) : Z :=
  match bits with
  | [] => 0
  | b :: r => b + 2 * bits_value r
  end.

Definition is_bit (b : Z) : Prop := b = 0 \/ b = 1.

(** ** The amplitude type *)

(** [std::complex<BaseType>] with its accessors [real()] and [imag()]. *)
Record Complex (B : Type) : Type := mkComplex { real : B; imag : B }.

Arguments mkComplex {B} real imag.
Arguments real {B} c.
Arguments imag {B} c.

(** What the file uses of [BaseType] ([double] or [float]), of
    [std::complex<BaseType>] and of [<cmath>]:
    - [int_to_base]: the conversion of an [int], as in [Type(cut,0)] and in
      the literals [0] and [0.];
    - [base_to_int]: the conversion [(int)(x)], which truncates towards
      zero where [x] is in the range of [int];
    - [plus], [times], [negate]: [+], [*] and unary [-] on [BaseType];
    - [cos], [sin]: [std::cos] and [std::sin];
    - [norm]: [std::norm], the squared magnitude of a complex number;
    - [Cmult]: the product that [operator*=] of [std::complex] stores. *)
Class Arithmetic (BaseType : Type) : Type := {
  int_to_base : Z -> BaseType;
  base_to_int : BaseType -> Z;
  plus : BaseType -> BaseType -> BaseType;
  times : BaseType -> BaseType -> BaseType;
  negate : BaseType -> BaseType;
  cos : BaseType -> BaseType;
  sin : BaseType -> BaseType;
  norm : Complex BaseType -> BaseType;
  Cmult : Complex BaseType -> Complex BaseType -> Complex BaseType
}.

(** Modelled from the spec: the class [QubitRegister] is declared outside this
    file.  Section 3 describes it as one shard of a distributed array of
    [2^num_qubits] complex entries: a process sees [NumQubits()],
    [GlobalSize()], [LocalSize()] and the indexed entries of its own shard. *)
Record QubitRegister (BaseType : Type) : Type := mkQubitRegister {
  NumQubits : Z;
  GlobalSize : Z;
  state : list (Complex BaseType)
}.

Arguments mkQubitRegister {BaseType} NumQubits GlobalSize state.
Arguments NumQubits {BaseType} q.
Arguments GlobalSize {BaseType} q.
Arguments state {BaseType} q.

Definition LocalSize {BaseType : Type} (q : QubitRegister BaseType) : Z :=
  Z.of_nat (length (state q)).

Definition with_state {BaseType : Type} (q : QubitRegister BaseType)
    (st : list (Complex BaseType)) : QubitRegister BaseType :=
  mkQubitRegister (NumQubits q) (GlobalSize q) st.

(** ** Reduction plans *)

(** The order in which a reduction combines its parts: part [k] at a leaf,
    the combination of the two sides at a node.  OpenMP and MPI leave this
    order to the implementation. *)
Inductive plan : Type :=
| leaf (k : nat)
| node (l r : plan).

Fixpoint leaves (p : plan) : list nat :=
  match p with
  | leaf k => [k]
  | node l r => leaves l ++ leaves r
  end.

(** A plan for [parts] parts uses every part exactly once. *)
Definition valid_plan (parts : nat) (p : plan) : Prop :=
  Permutation (leaves p) (seq 0 parts).

Fixpoint reduce {T : Type} (op : T -> T -> T) (default : T) (parts : list T)
    (p : plan) : T :=
  match p with
  | leaf k => nth k parts default
  | node l r => op (reduce op default parts l) (reduce op default parts r)
  end.

(** The plans of the smallest runs: one rank, also a build without MPI; two
    ranks; a team of one thread, whose private copy is combined with the
    original value. *)
Definition one_rank : plan := leaf 0.
Definition two_ranks : plan := node (leaf 0) (leaf 1).
Definition one_thread : plan := node (leaf 0) (leaf 1).

(** The per-rank code is run on every rank, rank 0 first; the run fails as
    soon as one rank does. *)
Fixpoint on_each_rank {A B : Type} (f : Z -> A -> outcome B)
    (rank : Z) (shards : list A) : outcome (list B) :=
  match shards with
  | [] => Ok []
  | s :: r =>
      b <- f rank s ;;
      bs <- on_each_rank f (rank + 1) r ;;
      Ok (b :: bs)
  end.

(** The code of a parallel region is run by every thread of the team. *)
Definition on_each_thread {A B : Type} (f : A -> outcome B) (team : list A)
    : outcome (list B) :=
  on_each_rank (fun _ => f) 0 team.

(** Modelled from the spec: the collective reductions of MPI are declared
    outside this file.  Every rank contributes one value and every rank
    receives the combination of all of them. *)
Definition MPI_Allreduce_MAX (contributions : list Z) : Z :=
  match contributions with
  | [] => 0
  | c :: r => fold_left Z.max r c
  end.

(** A schedule of the [omp for] over [0 .. local_size-1] gives every
    iteration to exactly one thread. *)
Definition iterations (local_size : Z) : list Z :=
  map Z.of_nat (seq 0 (Z.to_nat local_size)).

Definition valid_schedule (schedule : list (list Z)) (local_size : Z) : Prop :=
  Permutation (concat schedule) (iterations local_size).

(** ** The functions of namespace qaoa *)

Section Program.

Context {BaseType : Type} {A : Arithmetic BaseType}.

(** The literals [0] and [0.] converted to [BaseType]. *)
Definition zero : BaseType := int_to_base 0.

(** [MPI_Allreduce] with [MPI_SUM], on one value and on an array. *)
Definition MPI_Allreduce_SUM (mpi : plan) (contributions : list BaseType) : BaseType :=
  reduce plus zero contributions mpi.

Definition vector_add (a b : list BaseType) : list BaseType :=
  map (fun p => plus (fst p) (snd p)) (combine a b).

Definition MPI_Allreduce_SUM_vector (mpi : plan) (len : nat)
    (contributions : list (list BaseType)) : list BaseType :=
  reduce vector_add (repeat zero len) contributions mpi.

(** *** InitializeVectorAsMaxCutCostFunction *)

(** Lines 133-135: the entries 0 of [xbin] become -1. *)
Definition remap_colors (xbin : list Z) : list Z :=
  map (fun b => if b =? 0 then -1 else b) xbin.

(** Lines 137-140: [cut = x^T.ADJ.x], every product and every sum an [int]. *)
Definition quadratic_form (num_vertices : Z) (adjacency xbin : list Z) : outcome Z :=
  for_loop 0 num_vertices (fun v cut =>
    for_loop 0 num_vertices (fun u cut =>
      a <- at_index adjacency (to_int (to_int (v * num_vertices) + u)) ;;
      xv <- at_index xbin v ;;
      xu <- at_index xbin u ;;
      Ok (to_int (cut + to_int (to_int (a * xv) * xu)))) cut) 0.

(** Lines 129-144: the cut of the coloring of global index [x]; [xbin] is
    the buffer of the thread, returned with its new content. *)
Definition cut_of_index (num_vertices num_edges : Z) (adjacency : list Z)
    (x : Z) (xbin : list Z) : outcome (Z * list Z) :=
  xbin <- utility.ConvertToBinary x xbin ;;
  let xbin := remap_colors xbin in
  cut <- quadratic_form num_vertices adjacency xbin ;;
  _ <- assert (Z.rem cut 2 =? 0) ;;
  let cut := to_int (num_edges - Z.quot cut 2) in
  _ <- assert (Z.rem cut 2 =? 0) ;;
  let cut := Z.quot cut 2 in
  Ok (cut, xbin).

(** Lines 98-108: the preliminary checks; the result is [num_edges]. *)
Definition check_adjacency (num_vertices : Z) (adjacency : list Z) : outcome Z :=
  _ <- assert (Z.of_nat (length adjacency)
               =? to_size_t (to_int (num_vertices * num_vertices))) ;;
  _ <- for_loop 0 num_vertices (fun v _ =>
         a <- at_index adjacency (to_int (to_int (v * num_vertices) + v)) ;;
         assert (a =? 0)) tt ;;
  num_edges <- for_loop 0 (Z.of_nat (length adjacency)) (fun e num_edges =>
         a <- at_index adjacency e ;;
         Ok (to_int (num_edges + a))) 0 ;;
  _ <- assert (Z.rem num_edges 2 =? 0) ;;
  Ok (Z.quot num_edges 2).

(** Lines 95-149: the code of one rank up to the collective reduction. The
    result is the new content of [diag] and the local [max_cut]. *)
Definition InitializeVector_rank (adjacency : list Z) (myrank : Z)
    (diag : QubitRegister BaseType) : outcome (QubitRegister BaseType * Z) :=
  let num_vertices := NumQubits diag in
  num_edges <- check_adjacency num_vertices adjacency ;;
  let glb_start := to_size_t (myrank * LocalSize diag) in
  let xbin := repeat 0 (Z.to_nat num_vertices) in
  '(st, max_cut, _) <-
     for_loop 0 (LocalSize diag) (fun i '(st, max_cut, xbin) =>
       let x := to_size_t (glb_start + i) in
       '(cut, xbin) <- cut_of_index num_vertices num_edges adjacency x xbin ;;
       st <- store st i (mkComplex (int_to_base cut) (int_to_base 0)) ;;
       Ok (st, (if cut >? max_cut then cut else max_cut), xbin))
     (state diag, 0, xbin) ;;
  Ok (with_state diag st, max_cut).

(** The whole call: every rank runs its part, then [MPI_Allreduce] with
    [MPI_MAX] (one rank only without MPI). *)
Definition InitializeVectorAsMaxCutCostFunction (diag : list (QubitRegister BaseType))
    (adjacency : list Z) : outcome (list (QubitRegister BaseType) * Z) :=
  locals <- on_each_rank (InitializeVector_rank adjacency) 0 diag ;;
  Ok (map fst locals, MPI_Allreduce_MAX (map snd locals)).

(** *** ImplementQaoaLayerBasedOnCostFunction *)

(** The factor [Type(cos(gamma*c), -sin(gamma*c))] of line 181. *)
Definition phase_factor (gamma c : BaseType) : Complex BaseType :=
  mkComplex (cos (times gamma c)) (negate (sin (times gamma c))).

(** The code of one rank (there is no communication); the result is the new
    content of [psi], [diag] is only read. *)
Definition ImplementQaoaLayerBasedOnCostFunction (psi diag : QubitRegister BaseType)
    (gamma : BaseType) : outcome (QubitRegister BaseType) :=
  _ <- assert (LocalSize psi =? LocalSize diag) ;;
  _ <- assert (GlobalSize psi =? GlobalSize diag) ;;
  st <- for_loop 0 (LocalSize psi) (fun i st =>
          p <- at_index st i ;;
          d <- at_index (state diag) i ;;
          store st i (Cmult p (phase_factor gamma (real d)))) (state psi) ;;
  Ok (with_state psi st).

(** *** GetExpectationValueFromCostFunction *)

(** Line 202: iteration [i], on the private copy of [local_expectation] of
    the thread that runs it. *)
Definition expectation_iteration (psi diag : QubitRegister BaseType) (i : Z)
    (local_expectation : BaseType) : outcome BaseType :=
  d <- at_index (state diag) i ;;
  p <- at_index (state psi) i ;;
  Ok (plus local_expectation (times (real d) (norm p))).

(** Lines 197-203: the local sum of one rank.  Every thread starts its
    private copy at 0 and runs the iterations of its [chunk]; OpenMP then
    combines the original value 0 (part 0 of the plan [omp]) and the private
    copies (parts 1, 2, ...). *)
Definition GetExpectationValue_rank (schedule : list (list Z)) (omp : plan)
    (psi diag : QubitRegister BaseType) : outcome BaseType :=
  privates <- on_each_thread (fun chunk =>
                for_each chunk (expectation_iteration psi diag) zero) schedule ;;
  Ok (reduce plus zero (zero :: privates) omp).

(** The whole call on the per-rank data [(schedule, omp, psi, diag)]:
    [MPI_Allreduce] with [MPI_SUM] (the local value itself without MPI: one
    rank and the plan [leaf 0]). *)
Definition GetExpectationValueFromCostFunction (mpi : plan)
    (regs : list (list (list Z) * plan * QubitRegister BaseType * QubitRegister BaseType))
    : outcome BaseType :=
  locals <- on_each_rank (fun _ r =>
              GetExpectationValue_rank (fst (fst (fst r))) (snd (fst (fst r)))
                                       (snd (fst r)) (snd r)) 0 regs ;;
  Ok (MPI_Allreduce_SUM mpi locals).

(** *** GetHistogramFromCostFunction *)

(** Lines 253-257: iteration [i] of the [omp for], on the private histogram
    of the thread that runs it. *)
Definition histogram_iteration (psi diag : QubitRegister BaseType) (max_value : Z)
    (i : Z) (private_hist : list BaseType) : outcome (list BaseType) :=
  d <- at_index (state diag) i ;;
  let cut := base_to_int (real d) in
  _ <- assert ((cut >=? 0) && (cut <=? max_value)) ;;
  let index_bin := cut in
  h <- at_index private_hist index_bin ;;
  p <- at_index (state psi) i ;;
  store private_hist index_bin (plus h (norm p)).

(** Lines 243-258: the private histogram of one thread, which runs the
    iterations [chunk] of the [omp for]. *)
Definition private_histogram (psi diag : QubitRegister BaseType) (max_value : Z)
    (chunk : list Z) : outcome (list BaseType) :=
  for_each chunk (histogram_iteration psi diag max_value)
    (repeat zero (Z.to_nat (max_value + 1))).

(** Lines 230-264: the local histogram of one rank.  [schedule] gives to
    each thread of the team the iterations it runs; the critical sections
    add the private histograms into [local_hist] one thread after the other,
    in the order of the list. *)
Definition GetHistogram_rank (schedule : list (list Z)) (psi diag : QubitRegister BaseType)
    (max_value : Z) : outcome (list BaseType) :=
  _ <- assert (LocalSize psi =? LocalSize diag) ;;
  _ <- assert (GlobalSize psi =? GlobalSize diag) ;;
  _ <- assert (max_value >? 0) ;;
  let local_hist := repeat zero (Z.to_nat (max_value + 1)) in
  fold_left (fun acc chunk =>
      local_hist <- acc ;;
      private_hist <- private_histogram psi diag max_value chunk ;;
      Ok (vector_add local_hist private_hist))
    schedule (Ok local_hist).

(** The whole call on the per-rank triples [(schedule, psi, diag)]:
    [MPI_Allreduce] with [MPI_SUM] on the [max_value+1] buckets (the local
    histogram itself without MPI: one rank and the plan [leaf 0]). *)
Definition GetHistogramFromCostFunction (mpi : plan)
    (regs : list (list (list Z) * QubitRegister BaseType * QubitRegister BaseType))
    (max_value : Z) : outcome (list BaseType) :=
  locals <- on_each_rank (fun _ spd =>
              GetHistogram_rank (fst (fst spd)) (snd (fst spd)) (snd spd) max_value)
              0 regs ;;
  Ok (MPI_Allreduce_SUM_vector mpi (Z.to_nat (max_value + 1)) locals).

End Program.

(** ** Notions of the specification *)

(** [sum over i < n of f i]. *)
Fixpoint Zsum (n : nat) (f : nat -> Z) : Z :=
  match n with
  | O => 0
  | S m => Zsum m f + f m
  end.

(** [sum(bits[i] * 2^i)] written with indices. *)
Definition weighted_bit_sum (bits : list Z) : Z :=
  Zsum (length bits) (fun i => nth i bits 0 * 2 ^ Z.of_nat i).

(** The two round trips of section 4.1. *)
Definition encode_after_decode (k width : Z) : outcome Z :=
  bits <- DecodeToBits k width ;; EncodeFromBits bits.

Definition decode_after_encode (bits : list Z) : outcome (list Z) :=
  k <- EncodeFromBits bits ;; DecodeToBits k (Z.of_nat (length bits)).

(** [sum over 0 <= i < n of f i] with integer indices. *)
Definition sum_below (n : Z) (f : Z -> Z) : Z :=
  Zsum (Z.to_nat n) (fun i => f (Z.of_nat i)).

(** The adjacency matrix of section 3: [A[v][u]] is entry
    [v*num_vertices + u] of the flat vector. *)
Definition entry (num_vertices : Z) (adjacency : list Z) (v u : Z) : Z :=
  nth (Z.to_nat (v * num_vertices + u)) adjacency 0.

Definition square (num_vertices : Z) (adjacency : list Z) : Prop :=
  Z.of_nat (length adjacency) = num_vertices * num_vertices.

Definition symmetric (num_vertices : Z) (adjacency : list Z) : Prop :=
  forall v u, 0 <= v < num_vertices -> 0 <= u < num_vertices ->
    entry num_vertices adjacency v u = entry num_vertices adjacency u v.

Definition zero_diagonal (num_vertices : Z) (adjacency : list Z) : Prop :=
  forall v, 0 <= v < num_vertices -> entry num_vertices adjacency v v = 0.

Definition entry_sum (adjacency : list Z) : Z := fold_right Z.add 0 adjacency.

Definition even_sum (adjacency : list Z) : Prop := entry_sum adjacency mod 2 = 0.

Definition nonnegative (adjacency : list Z) : Prop := Forall (fun a => 0 <= a) adjacency.

(** The invariants of section 3. *)
Record adjacency_invariants (num_vertices : Z) (adjacency : list Z) : Prop := {
  inv_square : square num_vertices adjacency;
  inv_nonnegative : nonnegative adjacency;
  inv_symmetric : symmetric num_vertices adjacency;
  inv_zero_diagonal : zero_diagonal num_vertices adjacency;
  inv_even_sum : even_sum adjacency
}.

(** [num_edges = sum(A)/2]. *)
Definition num_edges_of (adjacency : list Z) : Z := entry_sum adjacency / 2.

(** The coloring of global index [x]: bit [v] of [x], least significant bit
    first, with 0 remapped to -1. *)
Definition color (x v : Z) : Z := if Z.testbit x v then 1 else -1.

(** [q = sum over v,u of A[v][u] * c[v] * c[u]] for a coloring [c]. *)
Definition quadratic_form_of (num_vertices : Z) (adjacency : list Z) (c : Z -> Z) : Z :=
  sum_below num_vertices (fun v =>
    sum_below num_vertices (fun u => entry num_vertices adjacency v u * c v * c u)).

(** [cut = (num_edges - q/2)/2] at global index [x]. *)
Definition cut_value (num_vertices : Z) (adjacency : list Z) (x : Z) : Z :=
  (num_edges_of adjacency - quadratic_form_of num_vertices adjacency (color x) / 2) / 2.

(** [num_edges - q/2] at global index [x], the quantity that the second
    exactness assertion tests. *)
Definition doubled_cut (num_vertices : Z) (adjacency : list Z) (x : Z) : Z :=
  num_edges_of adjacency - quadratic_form_of num_vertices adjacency (color x) / 2.

(** The total weight of the ordered pairs [(v,u)] whose ends have different
    colors. *)
Definition crossing_weight (num_vertices : Z) (adjacency : list Z) (c : Z -> Z) : Z :=
  sum_below num_vertices (fun v =>
    sum_below num_vertices (fun u =>
      if c v =? c u then 0 else entry num_vertices adjacency v u)).

(** A coloring with values in {-1,+1}. *)
Definition is_coloring (num_vertices : Z) (c : Z -> Z) : Prop :=
  forall v, 0 <= v < num_vertices -> c v = 1 \/ c v = -1.

(** The second exactness assertion at global index [x] tests this. *)
Definition crossing_even (num_vertices : Z) (adjacency : list Z) (x : Z) : bool :=
  crossing_weight num_vertices adjacency (color x) mod 2 =? 0.

(** [m] is the maximum of [f] over [0 <= x < bound]. *)
Definition is_maximum_below (bound : Z) (f : Z -> Z) (m : Z) : Prop :=
  (exists x, 0 <= x < bound /\ f x = m) /\
  (forall x, 0 <= x < bound -> f x <= m).

(** ** What the [int] arithmetic of the cost builder computes *)

(** The sum of the magnitudes of the entries.  Below [2^31] no sum or
    difference that the cost builder forms leaves the range of [int]. *)
Definition abs_entry_sum (adjacency : list Z) : Z := entry_sum (map Z.abs adjacency).

Definition weights_fit_int (adjacency : list Z) : Prop :=
  abs_entry_sum adjacency < 2 ^ 31.

(** [num_edges] as lines 105-108 compute it. *)
Definition int_num_edges (adjacency : list Z) : Z :=
  Z.quot (to_int (entry_sum adjacency)) 2.

(** [num_edges - cut/2] as line 142 computes it at global index [x]. *)
Definition int_doubled_cut (num_vertices : Z) (adjacency : list Z) (x : Z) : Z :=
  to_int (int_num_edges adjacency
          - Z.quot (to_int (quadratic_form_of num_vertices adjacency (color x))) 2).

(** The value that line 144 leaves in [cut] at global index [x]. *)
Definition int_cut (num_vertices : Z) (adjacency : list Z) (x : Z) : Z :=
  Z.quot (int_doubled_cut num_vertices adjacency x) 2.

(** ** Further notions *)

(** Two outcomes of the same kind, with related results. *)
Definition outcomes_related {A B : Type} (Rel : A -> B -> Prop)
    (o1 : outcome A) (o2 : outcome B) : Prop :=
  match o1, o2 with
  | Ok a, Ok b => Rel a b
  | AssertFail, AssertFail => True
  | Undefined, Undefined => True
  | _, _ => False
  end.

(** [(k >> i) & 1]. *)
Definition bit_of (k i : Z) : Z := Z.land (Z.shiftr k i) 1.

(** The total weight of the edges [{u, v}], [u < v], whose ends have
    different bits in [x]: [num_cut_edges] of the comment of lines 110-115. *)
Definition cut_edges_weight (num_vertices : Z) (adjacency : list Z) (x : Z) : Z :=
  sum_below num_vertices (fun v =>
    sum_below v (fun u =>
      if xorb (Z.testbit x v) (Z.testbit x u)
      then entry num_vertices adjacency v u else 0)).

(** The global index of the opposite coloring. *)
Definition complement (num_vertices x : Z) : Z := 2 ^ num_vertices - 1 - x.

Section Notions.

Context {BaseType : Type} {A : Arithmetic BaseType}.

(** Modelled from the spec: the partition of section 3 and 5.  The array of
    [2^num_qubits] entries is split into contiguous shards of one size, one
    per rank, the shard of rank [r] starting at global index
    [r * local_size]; [GlobalSize()] is a [std::size_t]. *)
Definition distributed (num_qubits local_size : Z) (regs : list (QubitRegister BaseType)) : Prop :=
  0 <= num_qubits < 64 /\
  Z.of_nat (length regs) * local_size = 2 ^ num_qubits /\
  Forall (fun q => NumQubits q = num_qubits /\ GlobalSize q = 2 ^ num_qubits
                   /\ LocalSize q = local_size) regs.

(** The entry of the distributed array at global index [x]. *)
Definition global_entry (local_size : Z) (regs : list (QubitRegister BaseType)) (x : Z)
    : option (Complex BaseType) :=
  match nth_error regs (Z.to_nat (x / local_size)) with
  | Some q => nth_error (state q) (Z.to_nat (x mod local_size))
  | None => None
  end.

(** The cost [c] as the cost builder stores it: [Type(c, 0)]. *)
Definition stored_cost (c : Z) : Complex BaseType :=
  mkComplex (int_to_base c) (int_to_base 0).

(** Section 6: the integers from 0 to [bound] are representable exactly in
    [BaseType], so that the conversion back to [int] returns them. *)
Definition exact_up_to (bound : Z) : Prop :=
  forall c, 0 <= c <= bound -> base_to_int (int_to_base c) = c.

(** The amplitude and cost arrays have the same partitioning. *)
Definition matching (psi diag : QubitRegister BaseType) : Prop :=
  LocalSize psi = LocalSize diag /\ GlobalSize psi = GlobalSize diag.

(** Two registers of the same shape: they differ at most in their entries. *)
Definition same_shape (p q : QubitRegister BaseType) : Prop :=
  NumQubits p = NumQubits q /\ GlobalSize p = GlobalSize q /\
  LocalSize p = LocalSize q.

Definition czero : Complex BaseType := mkComplex zero zero.

(** The cost array of a histogram call: the shards of the ranks one after
    the other. *)
Definition cost_array (regs : list (list (list Z) * QubitRegister BaseType * QubitRegister BaseType))
    : list (Complex BaseType) :=
  concat (map (fun spd => state (snd spd)) regs).

(** What the histogram call requires of one rank. *)
Definition histogram_ready (spd : list (list Z) * QubitRegister BaseType * QubitRegister BaseType) : Prop :=
  matching (snd (fst spd)) (snd spd) /\
  valid_schedule (fst (fst spd)) (LocalSize (snd (fst spd))).



(** The sum of [|amplitude[i]|^2] over exactly the indices whose cost is
    [b], in the arithmetic of [BaseType] and in the order of the run: the
    iterations of a thread from 0 in the order of its chunk, the threads of
    a rank from 0 in the order of the schedule, the ranks in the order of the
    plan of the collective reduction.  An index of another cost adds
    nothing, not even a zero. *)
Definition bucket_step (psi diag : QubitRegister BaseType) (b : Z)
    (acc : BaseType) (i : Z) : BaseType :=
  if base_to_int (real (nth (Z.to_nat i) (state diag) czero)) =? b
  then plus acc (norm (nth (Z.to_nat i) (state psi) czero))
  else acc.

Definition chunk_mass (psi diag : QubitRegister BaseType) (b : Z) (chunk : list Z) : BaseType :=
  fold_left (bucket_step psi diag b) chunk zero.

Definition rank_mass (b : Z) (spd : list (list Z) * QubitRegister BaseType * QubitRegister BaseType)
    : BaseType :=
  fold_left (fun acc chunk =>
      plus acc (chunk_mass (snd (fst spd)) (snd spd) b chunk))
    (fst (fst spd)) zero.

Definition bucket_mass (mpi : plan)
    (regs : list (list (list Z) * QubitRegister BaseType * QubitRegister BaseType)) (b : Z) : BaseType :=
  reduce plus zero (map (rank_mass b) regs) mpi.

(** The sum of [cost[i] * |amplitude[i]|^2] over the indices of a run of the
    expectation value, in the same order: the iterations of a thread from 0,
    the original 0 and the private copies of the threads in the order of the
    plan of the rank, the ranks in the order of the plan of the collective
    reduction. *)
Definition chunk_expectation (psi diag : QubitRegister BaseType) (chunk : list Z) : BaseType :=
  fold_left (fun acc i =>
      plus acc (times (real (nth (Z.to_nat i) (state diag) czero))
                      (norm (nth (Z.to_nat i) (state psi) czero))))
    chunk zero.

Definition rank_expectation
    (r : list (list Z) * plan * QubitRegister BaseType * QubitRegister BaseType) : BaseType :=
  reduce plus zero
    (zero :: map (chunk_expectation (snd (fst r)) (snd r)) (fst (fst (fst r))))
    (snd (fst (fst r))).

Definition expectation_sum (mpi : plan)
    (regs : list (list (list Z) * plan * QubitRegister BaseType * QubitRegister BaseType)) : BaseType :=
  reduce plus zero (map rank_expectation regs) mpi.

(** What the expectation value needs of one rank: a schedule that covers
    the iterations of its loop, and a cost shard at least as long as the
    amplitude shard. *)
Definition expectation_ready
    (r : list (list Z) * plan * QubitRegister BaseType * QubitRegister BaseType) : Prop :=
  valid_schedule (fst (fst (fst r))) (LocalSize (snd (fst r))) /\
  LocalSize (snd (fst r)) <= LocalSize (snd r).

End Notions.

(** ** IEEE-754 arithmetic *)

Section IEEE.

(** [prec] bits of mantissa and exponents below [emax]: 53 and 1024 for
    [double], 24 and 128 for [float]. *)
Variables (prec emax : Z).

Definition ieee_of_int (c : Z) : spec_float := binary_normalize prec emax c 0 false.

(** [(int)(x)]: the integer part of [x].  For a value outside the range of
    [int], an infinity or a NaN the C++ conversion has no defined behaviour;
    the conversion instruction of the x86 returns [INT_MIN]. *)
Definition ieee_to_int (x : spec_float) : Z :=
  match x with
  | S754_zero _ => 0
  | S754_finite s m e =>
      let magnitude := Z.shiftl (Zpos m) e in
      let v := if s then - magnitude else magnitude in
      if (- 2 ^ 31 <=? v) && (v <? 2 ^ 31) then v else - 2 ^ 31
  | _ => - 2 ^ 31
  end.

(** [std::norm] and the product of [std::complex], every product, sum and
    difference rounded. *)
Definition ieee_norm (c : Complex spec_float) : spec_float :=
  SFadd prec emax (SFmul prec emax (real c) (real c))
                  (SFmul prec emax (imag c) (imag c)).

Definition ieee_Cmult (a b : Complex spec_float) : Complex spec_float :=
  mkComplex
    (SFsub prec emax (SFmul prec emax (real a) (real b))
                     (SFmul prec emax (imag a) (imag b)))
    (SFadd prec emax (SFmul prec emax (real a) (imag b))
                     (SFmul prec emax (imag a) (real b))).

(** The functions of [<cmath>] are not part of the repository.  These two
    add the first terms of the power series with a mantissa of 160 bits and
    round the sum to the format: for arguments of moderate size they return
    the nearest value of the format.  No theorem about every input
    depends on them; they make the instances below complete, to run the
    functions on concrete inputs. *)
Definition wide_prec : Z := 160.
Definition wide_emax : Z := 65536.

Fixpoint power_series (minus_x2 term sum : spec_float) (k : Z) (terms : nat)
    : spec_float :=
  match terms with
  | O => sum
  | S n =>
      let term := SFdiv wide_prec wide_emax
                    (SFmul wide_prec wide_emax term minus_x2)
                    (binary_normalize wide_prec wide_emax ((k + 1) * (k + 2)) 0 false) in
      power_series minus_x2 term (SFadd wide_prec wide_emax sum term) (k + 2) n
  end.

Definition to_format (x : spec_float) : spec_float :=
  match x with
  | S754_finite s m e => binary_round prec emax s m e
  | _ => x
  end.

(** As many terms of the series as the mantissa of the argument has
    bits. *)
Definition series_terms (m : positive) : nat := Pos.to_nat (digits2_pos m).

Definition cmath_cos (x : spec_float) : spec_float :=
  match x with
  | S754_zero _ => SFone prec emax
  | S754_finite _ m _ =>
      let one := SFone wide_prec wide_emax in
      to_format (power_series (SFopp (SFmul wide_prec wide_emax x x)) one one 0
                              (series_terms m))
  | _ => S754_nan
  end.

Definition cmath_sin (x : spec_float) : spec_float :=
  match x with
  | S754_zero _ => x
  | S754_finite _ m _ =>
      to_format (power_series (SFopp (SFmul wide_prec wide_emax x x)) x x 1
                              (series_terms m))
  | _ => S754_nan
  end.

Definition ieee : Arithmetic spec_float := {|
  int_to_base := ieee_of_int;
  base_to_int := ieee_to_int;
  plus := SFadd prec emax;
  times := SFmul prec emax;
  negate := SFopp;
  cos := cmath_cos;
  sin := cmath_sin;
  norm := ieee_norm;
  Cmult := ieee_Cmult
|}.

End IEEE.

(** [ComplexDP] and [ComplexSP], the two instantiations of lines 160-163,
    184-187, 214-217 and 280-283. *)
Definition binary64 : Arithmetic spec_float := ieee 53 1024.
Definition binary32 : Arithmetic spec_float := ieee 24 128.

(** The [double] [m * 2^e]. *)
Definition dyadic (m e : Z) : spec_float := binary_normalize 53 1024 m e false.

(** ** Small instances *)

(** A register of [ComplexDP] entries, each given by its two parts. *)
Definition register64 (num_qubits global_size : Z)
    (entries : list (spec_float * spec_float)) : QubitRegister spec_float :=
  mkQubitRegister num_qubits global_size
    (map (fun e => mkComplex (fst e) (snd e)) entries).

(** A cost array of [ComplexDP] entries [Type(c, 0)]. *)
Definition costs64 (num_qubits global_size : Z) (costs : list Z)
    : QubitRegister spec_float :=
  mkQubitRegister num_qubits global_size
    (map (stored_cost (A := binary64)) costs).

(** One qubit on one rank: both amplitudes (1/2, 1/2), and the costs 0 and
    1. *)
Definition uniform_psi : QubitRegister spec_float :=
  register64 1 2 [(dyadic 1 (-1), dyadic 1 (-1)); (dyadic 1 (-1), dyadic 1 (-1))].

Definition costs_0_1 : QubitRegister spec_float := costs64 1 2 [0; 1].

(** Two qubits on one rank, every entry 0: the register handed to the cost
    builder. *)
Definition blank_diag : QubitRegister spec_float := costs64 2 4 [0; 0; 0; 0].

(** Three qubits on one rank, every entry 0. *)
Definition blank_diag_3 : QubitRegister spec_float :=
  costs64 3 8 [0; 0; 0; 0; 0; 0; 0; 0].

(** The triangle of section 8: three vertices, every pair joined. *)
Definition triangle : list Z := [0; 1; 1;  1; 0; 1;  1; 1; 0].

(** Two arcs, 0 -> 1 and 1 -> 2, on three vertices. *)
Definition two_arcs : list Z := [0; 1; 0;  0; 0; 1;  0; 0; 0].

(** One edge of weight [2^30] on two vertices: the entries sum to [2^31]. *)
Definition heavy_edge : list Z := [0; 2 ^ 30;  2 ^ 30; 0].

(** The path 0 - 1 - 2 with weights [2^29]: the entries sum to [2^31]. *)
Definition heavy_path : list Z :=
  [0; 2 ^ 29; 0;  2 ^ 29; 0; 2 ^ 29;  0; 2 ^ 29; 0].

(** The basis state 1 of one qubit, and the cost array of two qubits. *)
Definition basis_state_1 : QubitRegister spec_float :=
  register64 1 2 [(dyadic 0 0, dyadic 0 0); (dyadic 1 0, dyadic 0 0)].

Definition costs_two_qubits : QubitRegister spec_float := costs64 2 4 [0; 1; 1; 0].

(** Two qubits on one rank, every amplitude (1/2, 0). *)
Definition uniform_two_qubits : QubitRegister spec_float :=
  register64 2 4 [(dyadic 1 (-1), dyadic 0 0); (dyadic 1 (-1), dyadic 0 0);
                  (dyadic 1 (-1), dyadic 0 0); (dyadic 1 (-1), dyadic 0 0)].

(** One entry on one rank: the amplitude (1/2, 1/2) and the cost 1; the
    angle 1/10. *)
Definition half_half : QubitRegister spec_float :=
  register64 0 1 [(dyadic 1 (-1), dyadic 1 (-1))].

Definition cost_one : QubitRegister spec_float := costs64 0 1 [1].

Definition one_tenth : spec_float := SFdiv 53 1024 (dyadic 1 0) (dyadic 10 0).

(** Two qubits with the amplitudes 1, 0, [2^-27 (1 + i)], [2^-27 (1 + i)] and
    every cost 1: on one rank, and as the two shards of a run on two ranks. *)
Definition tail_state : QubitRegister spec_float :=
  register64 2 4 [(dyadic 1 0, dyadic 0 0); (dyadic 0 0, dyadic 0 0);
                  (dyadic 1 (-27), dyadic 1 (-27)); (dyadic 1 (-27), dyadic 1 (-27))].

Definition tail_state_low : QubitRegister spec_float :=
  register64 2 4 [(dyadic 1 0, dyadic 0 0); (dyadic 0 0, dyadic 0 0)].

Definition tail_state_high : QubitRegister spec_float :=
  register64 2 4 [(dyadic 1 (-27), dyadic 1 (-27)); (dyadic 1 (-27), dyadic 1 (-27))].

Definition all_ones : QubitRegister spec_float := costs64 2 4 [1; 1; 1; 1].

Definition ones_shard : QubitRegister spec_float := costs64 2 4 [1; 1].
(** * Proofs *)

(** ** Outcomes, vectors and loops *)

Lemma at_index_Ok {A : Type} (v : list A) (i : Z) (d : A) :
  0 <= i < Z.of_nat (length v) ->
  at_index v i = Ok (nth (Z.to_nat i) v d).
Proof.
  intros Hi. unfold at_index.
  destruct (Z.ltb_spec i 0) as [Hneg | _]; [lia |].
  destruct (nth_error v (Z.to_nat i)) as [a |] eqn:E.
  - f_equal. symmetry. now apply nth_error_nth.
  - apply nth_error_None in E. lia.
Qed.

Lemma at_index_out {A : Type} (v : list A) (i : Z) :
  Z.of_nat (length v) <= i -> at_index v i = Undefined.
Proof.
  intros Hi. unfold at_index.
  destruct (Z.ltb_spec i 0) as [Hneg | Hpos]; [reflexivity |].
  destruct (nth_error v (Z.to_nat i)) as [a |] eqn:E; [| reflexivity].
  assert (Hlt : (Z.to_nat i < length v)%nat)
    by (apply nth_error_Some; rewrite E; discriminate).
  lia.
Qed.

Lemma to_size_t_range (z : Z) : 0 <= to_size_t z < 2 ^ 64.
Proof. unfold to_size_t, SIZE_T_BITS. apply Z.mod_pos_bound. lia. Qed.

Lemma to_size_t_small (z : Z) : 0 <= z < 2 ^ 64 -> to_size_t z = z.
Proof. intros H. unfold to_size_t, SIZE_T_BITS. now apply Z.mod_small. Qed.

Lemma to_size_t_congr (a b q : Z) :
  a = b + q * 2 ^ 64 -> to_size_t a = to_size_t b.
Proof.
  intros ->. unfold to_size_t, SIZE_T_BITS. apply Z_mod_plus_full.
Qed.

Lemma to_size_t_decomp (z : Z) : z = to_size_t z + (z / 2 ^ 64) * 2 ^ 64.
Proof.
  unfold to_size_t, SIZE_T_BITS.
  pose proof (Z_div_mod_eq_full z (2 ^ 64)). lia.
Qed.

(** ** BitCodec *)

Lemma bits_value_range (bits : list Z) :
  Forall is_bit bits -> 0 <= bits_value bits < 2 ^ Z.of_nat (length bits).
Proof.
  induction 1 as [| b r Hb _ IH].
  - simpl. lia.
  - cbn [bits_value length]. rewrite Nat2Z.inj_succ, Z.pow_succ_r by lia.
    destruct Hb; subst; lia.
Qed.

Lemma bits_value_firstn_S (l : list Z) (p : nat) :
  bits_value (firstn (S p) l) = bits_value (firstn p l) + nth p l 0 * 2 ^ Z.of_nat p.
Proof.
  revert l. induction p as [| p IH]; intros [| b r].
  - reflexivity.
  - cbn. lia.
  - reflexivity.
  - change (firstn (S (S p)) (b :: r)) with (b :: firstn (S p) r).
    change (firstn (S p) (b :: r)) with (b :: firstn p r).
    cbn [bits_value nth]. rewrite IH, Nat2Z.inj_succ, Z.pow_succ_r by lia. ring.
Qed.

Lemma ConvertToDecimal_loop_Ok (z : list Z) (p : nat) (k : Z) :
  (p < length z)%nat -> 0 <= k < 2 ^ 64 ->
  utility.ConvertToDecimal_loop z p k =
  Ok (to_size_t (k * 2 ^ Z.of_nat p + 2 * bits_value (firstn p (tl z)))).
Proof.
  revert k. induction p as [| p IH]; intros k Hp Hk.
  - cbn. rewrite to_size_t_small by lia. f_equal. lia.
  - cbn [utility.ConvertToDecimal_loop].
    rewrite (at_index_Ok z _ 0) by lia. cbn [bind].
    rewrite IH by (try apply to_size_t_range; lia).
    f_equal. rewrite bits_value_firstn_S.
    replace (nth p (tl z) 0) with (nth (Z.to_nat (Z.of_nat (S p))) z 0)
      by (rewrite Nat2Z.id; destruct z; [destruct p |]; reflexivity).
    set (b := nth (Z.to_nat (Z.of_nat (S p))) z 0).
    rewrite Nat2Z.inj_succ, Z.pow_succ_r by lia.
    set (P := 2 ^ Z.of_nat p). set (V := bits_value (firstn p (tl z))).
    pose proof (to_size_t_decomp b) as Hb.
    pose proof (to_size_t_decomp (k + to_size_t b)) as H1.
    pose proof (to_size_t_decomp (to_size_t (k + to_size_t b) * 2)) as H2.
    apply to_size_t_congr with
      (q := - (P * ((to_size_t (k + to_size_t b) * 2) / 2 ^ 64)
            + 2 * P * ((k + to_size_t b) / 2 ^ 64)
            + 2 * P * (b / 2 ^ 64))).
    nia.
Qed.

Lemma firstn_tl_all (z : list Z) : firstn (length z - 1) (tl z) = tl z.
Proof.
  destruct z as [| b r]; [reflexivity |].
  cbn [length tl]. replace (S (length r) - 1)%nat with (length r) by lia.
  apply firstn_all.
Qed.

Lemma bits_value_hd_tl (z : list Z) : bits_value z = nth 0 z 0 + 2 * bits_value (tl z).
Proof. destruct z; reflexivity. Qed.

(** On a non-empty vector whose length fits [unsigned], the result is the
    weighted sum of the entries, reduced as [std::size_t] arithmetic does. *)
Lemma ConvertToDecimal_wraps (z : list Z) :
  1 <= Z.of_nat (length z) <= 2 ^ 32 ->
  utility.ConvertToDecimal z = Ok (to_size_t (bits_value z)).
Proof.
  intros Hlen. unfold utility.ConvertToDecimal.
  assert (Hpos : to_unsigned (to_size_t (Z.of_nat (length z) - 1))
                 = Z.of_nat (length z - 1)).
  { unfold to_unsigned, to_size_t, SIZE_T_BITS, UNSIGNED_BITS.
    rewrite (Z.mod_small (Z.of_nat (length z) - 1) (2 ^ 64)) by lia.
    rewrite Z.mod_small by lia. lia. }
  rewrite Hpos, Nat2Z.id.
  rewrite ConvertToDecimal_loop_Ok by lia. cbn [bind].
  rewrite (at_index_Ok z 0 0) by lia. cbn [bind].
  f_equal. rewrite firstn_tl_all, (bits_value_hd_tl z).
  change (Z.to_nat 0) with 0%nat.
  set (V := bits_value (tl z)). set (b := nth 0 z 0).
  pose proof (to_size_t_decomp b) as Hb.
  pose proof (to_size_t_decomp (0 * 2 ^ Z.of_nat (length z - 1) + 2 * V)) as H1.
  apply to_size_t_congr with
    (q := - ((0 * 2 ^ Z.of_nat (length z - 1) + 2 * V) / 2 ^ 64 + b / 2 ^ 64)).
  lia.
Qed.

Lemma ConvertToDecimal_exact (z : list Z) :
  Forall is_bit z -> 1 <= Z.of_nat (length z) <= 64 ->
  utility.ConvertToDecimal z = Ok (bits_value z).
Proof.
  intros Hb Hlen. rewrite ConvertToDecimal_wraps by lia.
  f_equal. apply to_size_t_small.
  pose proof (bits_value_range z Hb) as Hr.
  assert (2 ^ Z.of_nat (length z) <= 2 ^ 64) by (apply Z.pow_le_mono_r; lia).
  lia.
Qed.

(** On the empty vector the first index read is [2^32 - 1]. *)
Lemma ConvertToDecimal_empty : utility.ConvertToDecimal [] = Undefined.
Proof.
  unfold utility.ConvertToDecimal.
  assert (Hpos : to_unsigned (to_size_t (Z.of_nat (@length Z []) - 1)) = 4294967295)
    by reflexivity.
  rewrite Hpos.
  destruct (Z.to_nat 4294967295) as [| n] eqn:E; [lia |].
  cbn [utility.ConvertToDecimal_loop].
  rewrite at_index_out by (cbn [length]; lia).
  reflexivity.
Qed.

Lemma ConvertToBinary_loop_length (k : Z) (z : list Z) :
  length (utility.ConvertToBinary_loop k z) = length z.
Proof.
  revert k. induction z as [| b r IH]; intros k; cbn; [reflexivity |].
  now rewrite IH.
Qed.

Lemma ConvertToBinary_loop_bits (k : Z) (z : list Z) :
  Forall is_bit (utility.ConvertToBinary_loop k z).
Proof.
  revert k. induction z as [| b r IH]; intros k; cbn; constructor.
  - unfold is_bit. pose proof (Z.mod_pos_bound k 2). lia.
  - apply IH.
Qed.

Lemma ConvertToBinary_loop_value (k : Z) (z : list Z) :
  bits_value (utility.ConvertToBinary_loop k z) = k mod 2 ^ Z.of_nat (length z).
Proof.
  revert k. induction z as [| b r IH]; intros k.
  - cbn. now rewrite Z.mod_1_r.
  - cbn [utility.ConvertToBinary_loop bits_value length].
    rewrite IH, Nat2Z.inj_succ, Z.pow_succ_r by lia.
    rewrite Z.rem_mul_r by lia. reflexivity.
Qed.

Lemma ConvertToBinary_loop_inverse (bits z : list Z) :
  Forall is_bit bits -> length z = length bits ->
  utility.ConvertToBinary_loop (bits_value bits) z = bits.
Proof.
  intros Hb. revert z. induction Hb as [| b r Hb _ IH]; intros [| c z] Hlen;
    try discriminate; [reflexivity |].
  cbn [utility.ConvertToBinary_loop bits_value]. f_equal.
  - symmetry. apply Z.mod_unique with (q := bits_value r); [| lia].
    destruct Hb; subst; lia.
  - replace ((b + 2 * bits_value r) / 2) with (bits_value r).
    + apply IH. now injection Hlen.
    + apply Z.div_unique with (r := b); [| lia].
      destruct Hb; subst; lia.
Qed.

(** Inside the width of [std::size_t] the range guard passes exactly the
    values below [2^size]. *)
Lemma ConvertToBinary_Ok (k : Z) (z : list Z) :
  Z.of_nat (length z) < 64 -> k < 2 ^ Z.of_nat (length z) ->
  utility.ConvertToBinary k z = Ok (utility.ConvertToBinary_loop k z).
Proof.
  intros Hlen Hk. unfold utility.ConvertToBinary, shl_size_t.
  assert (Hp : 2 ^ Z.of_nat (length z) < 2 ^ 64) by (apply Z.pow_lt_mono_r; lia).
  rewrite (to_size_t_small (Z.of_nat (length z))) by lia.
  unfold SIZE_T_BITS.
  destruct (Z.ltb_spec (Z.of_nat (length z)) 64) as [_ | ?]; [| lia].
  cbn [bind]. rewrite Z.mul_1_l, to_size_t_small by lia.
  destruct (Z.geb_spec k (2 ^ Z.of_nat (length z))) as [? | _]; [lia |].
  reflexivity.
Qed.

Lemma ConvertToBinary_too_large (k : Z) (z : list Z) :
  Z.of_nat (length z) < 64 -> 2 ^ Z.of_nat (length z) <= k ->
  utility.ConvertToBinary k z = AssertFail.
Proof.
  intros Hlen Hk. unfold utility.ConvertToBinary, shl_size_t.
  assert (Hp : 2 ^ Z.of_nat (length z) < 2 ^ 64) by (apply Z.pow_lt_mono_r; lia).
  rewrite (to_size_t_small (Z.of_nat (length z))) by lia.
  unfold SIZE_T_BITS.
  destruct (Z.ltb_spec (Z.of_nat (length z)) 64) as [_ | ?]; [| lia].
  cbn [bind]. rewrite Z.mul_1_l, to_size_t_small by lia.
  destruct (Z.geb_spec k (2 ^ Z.of_nat (length z))) as [_ | ?]; [| lia].
  reflexivity.
Qed.

(** ** Finite sums *)

Lemma Zsum_ext (n : nat) (f g : nat -> Z) :
  (forall i, (i < n)%nat -> f i = g i) -> Zsum n f = Zsum n g.
Proof.
  induction n as [| n IH]; intros H; cbn; [reflexivity |].
  rewrite IH, H by auto with arith. reflexivity.
Qed.

Lemma Zsum_shift (n : nat) (f : nat -> Z) :
  Zsum (S n) f = f 0%nat + Zsum n (fun i => f (S i)).
Proof.
  induction n as [| n IH]; [cbn; lia |].
  change (Zsum (S (S n)) f) with (Zsum (S n) f + f (S n)).
  rewrite IH. cbn [Zsum]. lia.
Qed.

Lemma Zsum_scale (n : nat) (c : Z) (f : nat -> Z) :
  c * Zsum n f = Zsum n (fun i => c * f i).
Proof. induction n as [| n IH]; cbn; [lia |]. rewrite <- IH. lia. Qed.

Lemma Zsum_plus (n : nat) (f g : nat -> Z) :
  Zsum n f + Zsum n g = Zsum n (fun i => f i + g i).
Proof. induction n as [| n IH]; cbn; [lia |]. rewrite <- IH. lia. Qed.

Lemma Zsum_zero (n : nat) (f : nat -> Z) :
  (forall i, (i < n)%nat -> f i = 0) -> Zsum n f = 0.
Proof.
  induction n as [| n IH]; intros H; cbn; [reflexivity |].
  rewrite IH, H by auto with arith. reflexivity.
Qed.

Lemma Zsum_le (n : nat) (f g : nat -> Z) :
  (forall i, (i < n)%nat -> f i <= g i) -> Zsum n f <= Zsum n g.
Proof.
  induction n as [| n IH]; intros H; cbn; [lia |].
  assert (Zsum n f <= Zsum n g) by auto with arith.
  assert (f n <= g n) by auto with arith. lia.
Qed.

Lemma Zsum_app (a b : nat) (f : nat -> Z) :
  Zsum (a + b) f = Zsum a f + Zsum b (fun i => f (a + i)%nat).
Proof.
  induction b as [| b IH].
  - rewrite Nat.add_0_r. cbn. lia.
  - rewrite Nat.add_succ_r. cbn [Zsum]. rewrite IH. lia.
Qed.

Lemma bits_value_weighted_sum (bits : list Z) :
  bits_value bits = weighted_bit_sum bits.
Proof.
  unfold weighted_bit_sum. induction bits as [| b r IH]; [reflexivity |].
  cbn [bits_value length]. rewrite Zsum_shift, IH, Zsum_scale.
  cbn [nth]. rewrite Z.pow_0_r, Z.mul_1_r. f_equal.
  apply Zsum_ext. intros i _. rewrite Nat2Z.inj_succ, Z.pow_succ_r by lia. ring.
Qed.

(** ** The round trips *)

Lemma encode_after_decode_Ok (w k : Z) :
  1 <= w <= 63 -> 0 <= k < 2 ^ w -> encode_after_decode k w = Ok k.
Proof.
  intros Hw Hk. unfold encode_after_decode, DecodeToBits, EncodeFromBits.
  assert (Hlen : Z.of_nat (length (repeat 0 (Z.to_nat w))) = w)
    by (rewrite repeat_length; lia).
  rewrite ConvertToBinary_Ok by (rewrite Hlen; lia). cbn [bind].
  rewrite ConvertToDecimal_exact.
  - f_equal. rewrite ConvertToBinary_loop_value, Hlen. apply Z.mod_small. lia.
  - apply ConvertToBinary_loop_bits.
  - rewrite ConvertToBinary_loop_length, Hlen. lia.
Qed.

Lemma decode_after_encode_Ok (bits : list Z) :
  Forall is_bit bits -> 1 <= Z.of_nat (length bits) <= 63 ->
  decode_after_encode bits = Ok bits.
Proof.
  intros Hb Hlen. unfold decode_after_encode, DecodeToBits, EncodeFromBits.
  rewrite ConvertToDecimal_exact by (auto; lia). cbn [bind].
  pose proof (bits_value_range bits Hb) as Hr.
  rewrite ConvertToBinary_Ok; rewrite ?repeat_length, ?Nat2Z.id; try lia.
  f_equal. apply ConvertToBinary_loop_inverse; [assumption |].
  rewrite repeat_length. lia.
Qed.

(** ** Loops *)

Lemma for_count_inv {St : Type} (Inv : Z -> St -> Prop) (count : nat) (lo : Z)
    (body : Z -> St -> outcome St) (s : St) :
  Inv lo s ->
  (forall i t, lo <= i < lo + Z.of_nat count -> Inv i t ->
     exists t', body i t = Ok t' /\ Inv (i + 1) t') ->
  exists s', for_count count lo body s = Ok s' /\ Inv (lo + Z.of_nat count) s'.
Proof.
  revert lo s. induction count as [| c IH]; intros lo s H0 Hstep.
  - exists s. split; [reflexivity |]. now rewrite Z.add_0_r.
  - destruct (Hstep lo s) as (t & Ht & Hinv); [lia | assumption |].
    cbn [for_count]. rewrite Ht. cbn [bind].
    destruct (IH (lo + 1) t Hinv) as (s' & Hs' & Hinv').
    + intros i u Hi Hu. apply Hstep; [lia | assumption].
    + exists s'. split; [assumption |].
      replace (lo + Z.of_nat (S c)) with (lo + 1 + Z.of_nat c) by lia. assumption.
Qed.

Lemma for_loop_inv {St : Type} (Inv : Z -> St -> Prop) (n : Z)
    (body : Z -> St -> outcome St) (s : St) :
  0 <= n -> Inv 0 s ->
  (forall i t, 0 <= i < n -> Inv i t ->
     exists t', body i t = Ok t' /\ Inv (i + 1) t') ->
  exists s', for_loop 0 n body s = Ok s' /\ Inv n s'.
Proof.
  intros Hn H0 Hstep. unfold for_loop.
  destruct (for_count_inv Inv (Z.to_nat (n - 0)) 0 body s H0) as (s' & Hs' & Hinv).
  - intros i t Hi. apply Hstep. lia.
  - exists s'. split; [assumption |].
    replace (0 + Z.of_nat (Z.to_nat (n - 0))) with n in Hinv by lia. assumption.
Qed.

(** The loop stops with the first iteration that fails. *)
Lemma for_count_fails {St : Type} (Inv : Z -> St -> Prop) (count : nat) (lo bad : Z)
    (body : Z -> St -> outcome St) (s : St) :
  lo <= bad < lo + Z.of_nat count ->
  Inv lo s ->
  (forall i t, lo <= i < bad -> Inv i t ->
     exists t', body i t = Ok t' /\ Inv (i + 1) t') ->
  (forall t, Inv bad t -> body bad t = AssertFail) ->
  for_count count lo body s = AssertFail.
Proof.
  revert lo s. induction count as [| c IH]; intros lo s Hbad H0 Hstep Hfail; [lia |].
  cbn [for_count].
  destruct (Z.eq_dec lo bad) as [-> | Hne].
  - rewrite Hfail by assumption. reflexivity.
  - destruct (Hstep lo s) as (t & Ht & Hinv); [lia | assumption |].
    rewrite Ht. cbn [bind]. apply IH; try assumption; [lia |].
    intros i u Hi. apply Hstep. lia.
Qed.

Lemma for_loop_fails {St : Type} (Inv : Z -> St -> Prop) (n bad : Z)
    (body : Z -> St -> outcome St) (s : St) :
  0 <= bad < n ->
  Inv 0 s ->
  (forall i t, 0 <= i < bad -> Inv i t ->
     exists t', body i t = Ok t' /\ Inv (i + 1) t') ->
  (forall t, Inv bad t -> body bad t = AssertFail) ->
  for_loop 0 n body s = AssertFail.
Proof.
  intros Hbad. unfold for_loop. apply for_count_fails. lia.
Qed.

Lemma sum_below_succ (i : Z) (f : Z -> Z) :
  0 <= i -> sum_below (i + 1) f = sum_below i f + f i.
Proof.
  intros Hi. unfold sum_below.
  replace (Z.to_nat (i + 1)) with (S (Z.to_nat i)) by lia.
  cbn [Zsum]. now rewrite Z2Nat.id.
Qed.

Lemma sum_below_0 (f : Z -> Z) : sum_below 0 f = 0.
Proof. reflexivity. Qed.

Lemma sum_below_ext (n : Z) (f g : Z -> Z) :
  (forall i, 0 <= i < n -> f i = g i) -> sum_below n f = sum_below n g.
Proof.
  intros H. unfold sum_below. apply Zsum_ext. intros i Hi. apply H. lia.
Qed.

(** ** The type [int] *)

Lemma to_int_range (z : Z) : - 2 ^ 31 <= to_int z < 2 ^ 31.
Proof.
  unfold to_int, INT_BITS. change (32 - 1) with 31.
  pose proof (Z.mod_pos_bound (z + 2 ^ 31) (2 ^ 32)). lia.
Qed.

Lemma to_int_small (z : Z) : - 2 ^ 31 <= z < 2 ^ 31 -> to_int z = z.
Proof.
  intros H. unfold to_int, INT_BITS. change (32 - 1) with 31.
  rewrite Z.mod_small by lia. lia.
Qed.

Lemma to_int_decomp (z : Z) : exists k, to_int z = z + k * 2 ^ 32.
Proof.
  exists (- ((z + 2 ^ 31) / 2 ^ 32)). unfold to_int, INT_BITS.
  change (32 - 1) with 31.
  pose proof (Z_div_mod_eq_full (z + 2 ^ 31) (2 ^ 32)). lia.
Qed.

Lemma to_int_congr (a b k : Z) : a = b + k * 2 ^ 32 -> to_int a = to_int b.
Proof.
  intros ->. unfold to_int, INT_BITS. change (32 - 1) with 31.
  replace (b + k * 2 ^ 32 + 2 ^ 31) with (b + 2 ^ 31 + k * 2 ^ 32) by lia.
  now rewrite Z_mod_plus_full.
Qed.

Lemma to_int_plus (a b : Z) : to_int (to_int a + b) = to_int (a + b).
Proof.
  destruct (to_int_decomp a) as (k & ->). apply to_int_congr with (k := k). lia.
Qed.

Lemma to_int_plus_r (a b : Z) : to_int (a + to_int b) = to_int (a + b).
Proof.
  destruct (to_int_decomp b) as (k & ->). apply to_int_congr with (k := k). lia.
Qed.

Lemma to_int_times (a b : Z) : to_int (to_int a * b) = to_int (a * b).
Proof.
  destruct (to_int_decomp a) as (k & ->). apply to_int_congr with (k := k * b). lia.
Qed.

(** Wrap-around keeps the parity. *)
Lemma to_int_parity (z : Z) : to_int z mod 2 = z mod 2.
Proof.
  destruct (to_int_decomp z) as (k & ->).
  replace (z + k * 2 ^ 32) with (z + (k * 2 ^ 31) * 2) by lia.
  apply Z_mod_plus_full.
Qed.

(** An index into the flat adjacency vector fits [int]. *)
Lemma matrix_index_fits (n v u : Z) :
  0 <= n < 64 -> 0 <= v < n -> 0 <= u < n ->
  to_int (to_int (v * n) + u) = v * n + u.
Proof.
  intros Hn Hv Hu. rewrite to_int_plus. apply to_int_small. nia.
Qed.

(** ** The quadratic form of the source *)

(** The double loop returns the quadratic form of the specification reduced
    into the range of [int]. *)
Lemma quadratic_form_Ok (n : Z) (adjacency xbin : list Z) :
  0 <= n < 64 -> square n adjacency -> Z.of_nat (length xbin) = n ->
  quadratic_form n adjacency xbin =
  Ok (to_int (quadratic_form_of n adjacency (fun v => nth (Z.to_nat v) xbin 0))).
Proof.
  intros Hn Hsq Hx. unfold quadratic_form, quadratic_form_of.
  set (term := fun v u => entry n adjacency v u
                          * nth (Z.to_nat v) xbin 0 * nth (Z.to_nat u) xbin 0).
  set (inner := fun v (u cut : Z) =>
         a <- at_index adjacency (to_int (to_int (v * n) + u)) ;;
         xv <- at_index xbin v ;;
         xu <- at_index xbin u ;;
         Ok (to_int (cut + to_int (to_int (a * xv) * xu)))).
  destruct (for_loop_inv
              (fun v cut => cut = to_int (sum_below v (fun v' => sum_below n (term v'))))
              n (fun v cut => for_loop 0 n (inner v) cut) 0)
    as (q & Hq & Hinv); [lia | reflexivity | |].
  - intros v cut Hv ->.
    destruct (for_loop_inv
                (fun u c => c = to_int (sum_below v (fun v' => sum_below n (term v'))
                                        + sum_below u (term v)))
                n (inner v)
                (to_int (sum_below v (fun v' => sum_below n (term v')))))
      as (c & Hc & Hcinv); [lia | | |].
    + rewrite sum_below_0. f_equal. lia.
    + intros u c Hu ->. unfold inner.
      rewrite matrix_index_fits by lia.
      rewrite (at_index_Ok adjacency _ 0) by (unfold square in Hsq; nia).
      rewrite (at_index_Ok xbin v 0), (at_index_Ok xbin u 0) by lia.
      cbn [bind]. eexists. split; [reflexivity |].
      rewrite sum_below_succ by lia.
      rewrite to_int_plus, to_int_times, to_int_plus_r. unfold term, entry.
      f_equal. lia.
    + exists c. split; [assumption |].
      rewrite sum_below_succ by lia. exact Hcinv.
  - exact (eq_trans Hq (f_equal Ok Hinv)).
Qed.
(** ** Sums over the adjacency matrix *)

Lemma entry_sum_Zsum (l : list Z) :
  entry_sum l = Zsum (length l) (fun i => nth i l 0).
Proof.
  induction l as [| a r IH]; [reflexivity |].
  cbn [entry_sum fold_right length]. rewrite Zsum_shift. cbn [nth].
  f_equal. exact IH.
Qed.

Lemma Zsum_rows (n m : nat) (f : nat -> Z) :
  Zsum (n * m) f = Zsum n (fun v => Zsum m (fun u => f (v * m + u)%nat)).
Proof.
  induction n as [| n IH]; [reflexivity |].
  cbn [Zsum]. rewrite <- IH.
  replace (S n * m)%nat with (n * m + m)%nat by lia.
  apply Zsum_app.
Qed.

Lemma entry_sum_double (n : Z) (adjacency : list Z) :
  0 <= n -> square n adjacency ->
  entry_sum adjacency = sum_below n (fun v => sum_below n (entry n adjacency v)).
Proof.
  intros Hn Hsq. unfold square in Hsq. rewrite entry_sum_Zsum.
  replace (length adjacency) with (Z.to_nat n * Z.to_nat n)%nat by nia.
  rewrite Zsum_rows. unfold sum_below. apply Zsum_ext. intros v Hv.
  apply Zsum_ext. intros u Hu. unfold entry. f_equal. lia.
Qed.

Lemma sum_below_plus (n : Z) (f g : Z -> Z) :
  sum_below n f + sum_below n g = sum_below n (fun i => f i + g i).
Proof. unfold sum_below. apply Zsum_plus. Qed.

Lemma sum_below_scale (n c : Z) (f : Z -> Z) :
  c * sum_below n f = sum_below n (fun i => c * f i).
Proof. unfold sum_below. apply Zsum_scale. Qed.

Lemma sum_below_le (n : Z) (f g : Z -> Z) :
  (forall i, 0 <= i < n -> f i <= g i) -> sum_below n f <= sum_below n g.
Proof. intros H. unfold sum_below. apply Zsum_le. intros i Hi. apply H. lia. Qed.

Lemma sum_below_nonneg (n : Z) (f : Z -> Z) :
  (forall i, 0 <= i < n -> 0 <= f i) -> 0 <= sum_below n f.
Proof.
  intros H. unfold sum_below.
  assert (G : forall m, (m <= Z.to_nat n)%nat -> 0 <= Zsum m (fun i => f (Z.of_nat i))).
  { induction m as [| m IH]; intros Hm; cbn [Zsum]; [lia |].
    assert (0 <= f (Z.of_nat m)) by (apply H; lia).
    assert (0 <= Zsum m (fun i => f (Z.of_nat i))) by (apply IH; lia). lia. }
  now apply G.
Qed.

Lemma sum_below_zero (n : Z) (f : Z -> Z) :
  (forall i, 0 <= i < n -> f i = 0) -> sum_below n f = 0.
Proof. intros H. unfold sum_below. apply Zsum_zero. intros i Hi. apply H. lia. Qed.

(** A symmetric family that vanishes on the diagonal sums to twice its
    lower triangle. *)
Lemma Zsum_triangle (n : nat) (h : nat -> nat -> Z) :
  (forall v u, (v < n)%nat -> (u < n)%nat -> h v u = h u v) ->
  (forall v, (v < n)%nat -> h v v = 0) ->
  Zsum n (fun v => Zsum n (h v)) = 2 * Zsum n (fun v => Zsum v (h v)).
Proof.
  induction n as [| n IH]; intros Hsym Hdiag; [reflexivity |].
  cbn [Zsum]. rewrite <- Zsum_plus.
  rewrite IH by (intros; auto with arith).
  rewrite Hdiag by lia.
  rewrite (Zsum_ext n (fun v => h v n) (h n)) by (intros; apply Hsym; lia).
  lia.
Qed.

Lemma sum_below_minus_twice (n : Z) (f g h : Z -> Z) :
  (forall i, 0 <= i < n -> f i = g i - 2 * h i) ->
  sum_below n f = sum_below n g - 2 * sum_below n h.
Proof.
  intros H. unfold sum_below.
  assert (G : forall m, (m <= Z.to_nat n)%nat ->
            Zsum m (fun i => f (Z.of_nat i)) =
            Zsum m (fun i => g (Z.of_nat i)) - 2 * Zsum m (fun i => h (Z.of_nat i))).
  { induction m as [| m IH]; intros Hm; [reflexivity |].
    cbn [Zsum]. rewrite IH, H by lia. lia. }
  now apply G.
Qed.

(** With colors in {-1,+1} a term of the quadratic form is the entry,
    counted negatively when the two ends differ. *)
Lemma quadratic_form_crossing (n : Z) (adjacency : list Z) (c : Z -> Z) :
  0 <= n -> square n adjacency -> is_coloring n c ->
  quadratic_form_of n adjacency c =
  entry_sum adjacency - 2 * crossing_weight n adjacency c.
Proof.
  intros Hn Hsq Hc. unfold quadratic_form_of, crossing_weight.
  rewrite (entry_sum_double n adjacency Hn Hsq).
  apply sum_below_minus_twice. intros v Hv.
  apply sum_below_minus_twice. intros u Hu.
  destruct (Hc v Hv) as [Ev | Ev], (Hc u Hu) as [Eu | Eu]; rewrite Ev, Eu;
    destruct (Z.eqb_spec 1 1), (Z.eqb_spec (-1) (-1)),
             (Z.eqb_spec 1 (-1)), (Z.eqb_spec (-1) 1); lia.
Qed.

Lemma crossing_weight_even (n : Z) (adjacency : list Z) (c : Z -> Z) :
  symmetric n adjacency ->
  crossing_weight n adjacency c =
  2 * sum_below n (fun v => sum_below v (fun u =>
        if c v =? c u then 0 else entry n adjacency v u)).
Proof.
  intros Hsym. unfold crossing_weight, sum_below.
  rewrite (Zsum_triangle (Z.to_nat n)
             (fun v u => if c (Z.of_nat v) =? c (Z.of_nat u) then 0
                         else entry n adjacency (Z.of_nat v) (Z.of_nat u))).
  - f_equal. apply Zsum_ext. intros v Hv. rewrite Nat2Z.id. reflexivity.
  - intros v u Hv Hu. rewrite (Z.eqb_sym (c (Z.of_nat v))).
    destruct (c (Z.of_nat u) =? c (Z.of_nat v)); [reflexivity |].
    apply Hsym; lia.
  - intros v Hv. now rewrite Z.eqb_refl.
Qed.

Lemma crossing_weight_bounds (n : Z) (adjacency : list Z) (c : Z -> Z) :
  0 <= n -> square n adjacency -> nonnegative adjacency ->
  0 <= crossing_weight n adjacency c <= entry_sum adjacency.
Proof.
  intros Hn Hsq Hpos.
  assert (Hentry : forall v u, 0 <= entry n adjacency v u).
  { intros v u. unfold entry.
    destruct (nth_in_or_default (Z.to_nat (v * n + u)) adjacency 0) as [Hin | ->];
      [| lia].
    unfold nonnegative in Hpos. rewrite Forall_forall in Hpos. now apply Hpos. }
  rewrite (entry_sum_double n adjacency Hn Hsq). unfold crossing_weight. split.
  - apply sum_below_nonneg. intros v Hv. apply sum_below_nonneg. intros u Hu.
    specialize (Hentry v u). destruct (c v =? c u); lia.
  - apply sum_below_le. intros v Hv. apply sum_below_le. intros u Hu.
    specialize (Hentry v u). destruct (c v =? c u); lia.
Qed.

(** ** The coloring decoded from a global index *)

Lemma ConvertToBinary_loop_nth (k : Z) (z : list Z) (v : nat) :
  (v < length z)%nat ->
  nth v (utility.ConvertToBinary_loop k z) 0 = Z.b2z (Z.testbit k (Z.of_nat v)).
Proof.
  revert k v. induction z as [| b r IH]; intros k v Hv; [cbn in Hv; lia |].
  destruct v as [| v]; cbn [utility.ConvertToBinary_loop nth].
  - change (Z.of_nat 0) with 0. now rewrite Z.bit0_mod.
  - rewrite IH by (cbn in Hv; lia).
    rewrite Nat2Z.inj_succ, Z.div2_bits by lia. reflexivity.
Qed.

Lemma remap_colors_length (xbin : list Z) : length (remap_colors xbin) = length xbin.
Proof. unfold remap_colors. apply length_map. Qed.

Lemma remap_colors_nth (x : Z) (z : list Z) (v : Z) :
  0 <= v < Z.of_nat (length z) ->
  nth (Z.to_nat v) (remap_colors (utility.ConvertToBinary_loop x z)) 0 = color x v.
Proof.
  intros Hv. unfold remap_colors.
  set (f := fun b : Z => if b =? 0 then -1 else b).
  rewrite (nth_indep _ 0 (f 0))
    by (rewrite length_map, ConvertToBinary_loop_length; lia).
  rewrite (map_nth f), ConvertToBinary_loop_nth by lia.
  rewrite Z2Nat.id by lia. unfold color, f.
  destruct (Z.testbit x v); reflexivity.
Qed.

Lemma color_is_coloring (n x : Z) : is_coloring n (color x).
Proof. intros v _. unfold color. destruct (Z.testbit x v); auto. Qed.

(** ** Parity: [%] and [/] of the source on even numbers *)

Lemma rem_2_eqb (a : Z) : (Z.rem a 2 =? 0) = (a mod 2 =? 0).
Proof.
  destruct (Z.eqb_spec (Z.rem a 2) 0) as [H | H], (Z.eqb_spec (a mod 2) 0) as [G | G];
    try reflexivity; exfalso.
  - apply G. apply Z.mod_divide; [lia |]. apply Z.rem_divide in H; [assumption | lia].
  - apply H. apply Z.rem_divide; [lia |]. apply Z.mod_divide in G; [assumption | lia].
Qed.

Lemma quot_2_even (a : Z) : a mod 2 = 0 -> Z.quot a 2 = a / 2.
Proof.
  intros H. apply Z.mod_divide in H; [| lia]. destruct H as [m ->].
  now rewrite Z.quot_mul, Z.div_mul by lia.
Qed.

Lemma even_half (a : Z) : a mod 2 = 0 -> a = 2 * (a / 2).
Proof. intros H. pose proof (Z_div_mod_eq_full a 2). lia. Qed.

(** ** The cut in the arithmetic of [int] *)

Lemma quot_double (m : Z) : Z.quot (2 * m) 2 = m.
Proof. rewrite Z.mul_comm. apply Z.quot_mul. lia. Qed.

Lemma crossing_weight_index_0 (n : Z) (adjacency : list Z) :
  crossing_weight n adjacency (color 0) = 0.
Proof.
  unfold crossing_weight. apply sum_below_zero. intros v _.
  apply sum_below_zero. intros u _. unfold color.
  now rewrite !Z.testbit_0_l.
Qed.

(** The difference [num_edges - q/2] that line 142 stores is the crossing
    weight up to a multiple of [2^31]. *)
Lemma doubled_cut_of_coloring (n : Z) (adjacency : list Z) (c : Z -> Z) :
  0 <= n -> square n adjacency -> even_sum adjacency -> is_coloring n c ->
  exists k,
    to_int (int_num_edges adjacency
            - Z.quot (to_int (quadratic_form_of n adjacency c)) 2)
    = crossing_weight n adjacency c + k * 2 ^ 31.
Proof.
  intros Hn Hsq Hev Hc. unfold int_num_edges.
  rewrite (quadratic_form_crossing n adjacency c Hn Hsq Hc).
  set (W := crossing_weight n adjacency c).
  unfold even_sum in Hev. pose proof (even_half _ Hev) as HS.
  set (E := entry_sum adjacency / 2) in *. rewrite HS.
  destruct (to_int_decomp (2 * E)) as (k1 & ->).
  destruct (to_int_decomp (2 * E - 2 * W)) as (k2 & ->).
  replace (2 * E + k1 * 2 ^ 32) with (2 * (E + k1 * 2 ^ 31)) by lia.
  replace (2 * E - 2 * W + k2 * 2 ^ 32) with (2 * (E - W + k2 * 2 ^ 31)) by lia.
  rewrite !quot_double.
  destruct (to_int_decomp (E + k1 * 2 ^ 31 - (E - W + k2 * 2 ^ 31))) as (k3 & ->).
  exists (k1 - k2 + 2 * k3). lia.
Qed.

Lemma int_doubled_cut_decomp (n : Z) (adjacency : list Z) (x : Z) :
  0 <= n -> square n adjacency -> even_sum adjacency ->
  exists k, int_doubled_cut n adjacency x
            = crossing_weight n adjacency (color x) + k * 2 ^ 31.
Proof.
  intros Hn Hsq Hev. unfold int_doubled_cut.
  apply doubled_cut_of_coloring; try assumption. apply color_is_coloring.
Qed.

Lemma int_doubled_cut_parity (n : Z) (adjacency : list Z) (x : Z) :
  0 <= n -> square n adjacency -> even_sum adjacency ->
  int_doubled_cut n adjacency x mod 2 = crossing_weight n adjacency (color x) mod 2.
Proof.
  intros Hn Hsq Hev.
  destruct (int_doubled_cut_decomp n adjacency x Hn Hsq Hev) as (k & ->).
  replace (k * 2 ^ 31) with ((k * 2 ^ 30) * 2) by lia.
  apply Z_mod_plus_full.
Qed.

(** The coloring of index 0 gives every vertex the same color: the value
    stored is 0, whatever the entries. *)
Lemma int_cut_index_0 (n : Z) (adjacency : list Z) :
  0 <= n -> square n adjacency -> int_cut n adjacency 0 = 0.
Proof.
  intros Hn Hsq. unfold int_cut, int_doubled_cut, int_num_edges.
  rewrite (quadratic_form_crossing n adjacency (color 0));
    [| lia | assumption | apply color_is_coloring].
  rewrite crossing_weight_index_0, Z.mul_0_r, Z.sub_0_r, Z.sub_diag.
  reflexivity.
Qed.

(** *** Entries that fit [int] *)

Lemma entry_sum_abs (l : list Z) : Z.abs (entry_sum l) <= abs_entry_sum l.
Proof.
  unfold abs_entry_sum. induction l as [| a r IH]; cbn [entry_sum fold_right map].
  - reflexivity.
  - unfold entry_sum in IH. lia.
Qed.

Lemma abs_entry_sum_nonnegative (l : list Z) :
  nonnegative l -> abs_entry_sum l = entry_sum l.
Proof.
  unfold abs_entry_sum. induction 1 as [| a r Ha _ IH]; [reflexivity |].
  cbn [entry_sum fold_right map]. unfold entry_sum in IH. rewrite IH. lia.
Qed.

Lemma entry_of_magnitudes (n : Z) (adjacency : list Z) (v u : Z) :
  entry n (map Z.abs adjacency) v u = Z.abs (entry n adjacency v u).
Proof. unfold entry. change 0 with (Z.abs 0) at 1. apply map_nth. Qed.

Lemma sum_below_abs (n : Z) (f g : Z -> Z) :
  (forall i, 0 <= i < n -> Z.abs (f i) <= g i) ->
  Z.abs (sum_below n f) <= sum_below n g.
Proof.
  intros H.
  assert (Hlo : sum_below n (fun i => -1 * g i) <= sum_below n f)
    by (apply sum_below_le; intros i Hi; specialize (H i Hi); lia).
  assert (Hhi : sum_below n f <= sum_below n g)
    by (apply sum_below_le; intros i Hi; specialize (H i Hi); lia).
  rewrite <- sum_below_scale in Hlo. lia.
Qed.

Lemma quadratic_form_abs (n : Z) (adjacency : list Z) (c : Z -> Z) :
  0 <= n -> square n adjacency -> is_coloring n c ->
  Z.abs (quadratic_form_of n adjacency c) <= abs_entry_sum adjacency.
Proof.
  intros Hn Hsq Hc. unfold abs_entry_sum.
  rewrite (entry_sum_double n (map Z.abs adjacency) Hn)
    by (unfold square; now rewrite length_map).
  unfold quadratic_form_of.
  apply sum_below_abs. intros v Hv. apply sum_below_abs. intros u Hu.
  rewrite entry_of_magnitudes.
  destruct (Hc v Hv) as [-> | ->], (Hc u Hu) as [-> | ->]; lia.
Qed.

(** When the magnitudes of the entries sum to less than [2^31], the [int]
    arithmetic of the cost loop is exact. *)
Lemma int_doubled_cut_exact (n : Z) (adjacency : list Z) (x : Z) :
  0 <= n -> square n adjacency -> even_sum adjacency ->
  weights_fit_int adjacency ->
  int_num_edges adjacency = num_edges_of adjacency /\
  int_doubled_cut n adjacency x = crossing_weight n adjacency (color x).
Proof.
  intros Hn Hsq Hev Hfit. unfold weights_fit_int in Hfit.
  pose proof (entry_sum_abs adjacency) as HS.
  pose proof (quadratic_form_abs n adjacency (color x) Hn Hsq (color_is_coloring n x))
    as Hq.
  assert (HE : int_num_edges adjacency = num_edges_of adjacency).
  { unfold int_num_edges, num_edges_of. rewrite to_int_small by lia.
    now apply quot_2_even. }
  split; [exact HE |].
  unfold int_doubled_cut. rewrite HE, (to_int_small (quadratic_form_of _ _ _)) by lia.
  pose proof (quadratic_form_crossing n adjacency (color x) Hn Hsq
                (color_is_coloring n x)) as Hqc.
  rewrite Hqc in *.
  set (W := crossing_weight n adjacency (color x)) in *.
  unfold num_edges_of. unfold even_sum in Hev. pose proof (even_half _ Hev) as HE2.
  set (E := entry_sum adjacency / 2) in *.
  replace (entry_sum adjacency - 2 * W) with (2 * (E - W)) by lia.
  rewrite quot_double. replace (E - (E - W)) with W by lia.
  apply to_int_small. lia.
Qed.

(** ** One iteration of the cost loop *)

(** Whatever the symmetry of the matrix and the size of its entries, the
    first assertion holds as soon as the entry sum is even, and the second
    one tests the parity of the crossing weight. *)
Lemma cut_of_index_run (n : Z) (adjacency : list Z) (x : Z) (xbin : list Z) :
  0 <= n < 64 -> square n adjacency -> even_sum adjacency ->
  Z.of_nat (length xbin) = n -> 0 <= x < 2 ^ n ->
  cut_of_index n (int_num_edges adjacency) adjacency x xbin =
  if crossing_weight n adjacency (color x) mod 2 =? 0
  then Ok (int_cut n adjacency x,
           remap_colors (utility.ConvertToBinary_loop x xbin))
  else AssertFail.
Proof.
  intros Hn Hsq Hev Hx Hrange. unfold cut_of_index.
  rewrite ConvertToBinary_Ok by (rewrite Hx; lia). cbn [bind].
  rewrite quadratic_form_Ok;
    [| lia | assumption
     | now rewrite remap_colors_length, ConvertToBinary_loop_length].
  cbn [bind].
  assert (Hq : quadratic_form_of n adjacency
                 (fun v => nth (Z.to_nat v)
                             (remap_colors (utility.ConvertToBinary_loop x xbin)) 0)
               = quadratic_form_of n adjacency (color x)).
  { unfold quadratic_form_of. apply sum_below_ext. intros v Hv.
    apply sum_below_ext. intros u Hu.
    rewrite !remap_colors_nth by lia. reflexivity. }
  rewrite Hq.
  assert (Heven : to_int (quadratic_form_of n adjacency (color x)) mod 2 = 0).
  { rewrite to_int_parity.
    rewrite (quadratic_form_crossing n adjacency (color x));
      [| lia | assumption | apply color_is_coloring].
    unfold even_sum in Hev. pose proof (even_half _ Hev) as HS. rewrite HS.
    replace (2 * (entry_sum adjacency / 2) - 2 * crossing_weight n adjacency (color x))
      with ((entry_sum adjacency / 2 - crossing_weight n adjacency (color x)) * 2) by lia.
    apply Z_mod_mult. }
  rewrite rem_2_eqb, Heven. cbn [Z.eqb assert bind].
  fold (int_doubled_cut n adjacency x).
  rewrite rem_2_eqb, int_doubled_cut_parity by (assumption || lia).
  destruct (crossing_weight n adjacency (color x) mod 2 =? 0); reflexivity.
Qed.

(** With entries that fit [int] and an even crossing weight the value left
    in [cut] is the cut count of the specification. *)
Lemma int_cut_exact (n : Z) (adjacency : list Z) (x : Z) :
  0 <= n -> square n adjacency -> even_sum adjacency ->
  weights_fit_int adjacency ->
  crossing_weight n adjacency (color x) mod 2 = 0 ->
  int_cut n adjacency x = crossing_weight n adjacency (color x) / 2.
Proof.
  intros Hn Hsq Hev Hfit Hpar. unfold int_cut.
  rewrite (proj2 (int_doubled_cut_exact n adjacency x Hn Hsq Hev Hfit)).
  now apply quot_2_even.
Qed.
Lemma cut_value_crossing (n : Z) (adjacency : list Z) (x : Z) :
  0 <= n -> square n adjacency -> even_sum adjacency ->
  cut_value n adjacency x = crossing_weight n adjacency (color x) / 2.
Proof.
  intros Hn Hsq Hev. unfold cut_value.
  rewrite (quadratic_form_crossing n adjacency (color x));
    [| lia | assumption | apply color_is_coloring].
  unfold even_sum in Hev. unfold num_edges_of.
  pose proof (even_half _ Hev) as HS.
  set (E := entry_sum adjacency / 2) in *.
  set (W := crossing_weight n adjacency (color x)).
  replace (entry_sum adjacency - 2 * W) with ((E - W) * 2) by lia.
  rewrite Z.div_mul by lia. f_equal. lia.
Qed.

Lemma doubled_cut_crossing (n : Z) (adjacency : list Z) (x : Z) :
  0 <= n -> square n adjacency -> even_sum adjacency ->
  doubled_cut n adjacency x = crossing_weight n adjacency (color x).
Proof.
  intros Hn Hsq Hev. unfold doubled_cut.
  rewrite (quadratic_form_crossing n adjacency (color x));
    [| lia | assumption | apply color_is_coloring].
  unfold even_sum in Hev. unfold num_edges_of.
  pose proof (even_half _ Hev) as HS.
  set (E := entry_sum adjacency / 2) in *.
  set (W := crossing_weight n adjacency (color x)).
  replace (entry_sum adjacency - 2 * W) with ((E - W) * 2) by lia.
  rewrite Z.div_mul by lia. lia.
Qed.

(** ** Writes into a vector *)

Lemma set_nth_length {A : Type} (v : list A) (i : nat) (a : A) :
  length (set_nth v i a) = length v.
Proof.
  revert i. induction v as [| b r IH]; intros [| i]; cbn; try reflexivity.
  now rewrite IH.
Qed.

Lemma set_nth_same {A : Type} (v : list A) (i : nat) (a : A) :
  (i < length v)%nat -> nth_error (set_nth v i a) i = Some a.
Proof.
  revert i. induction v as [| b r IH]; intros [| i] Hi; cbn in *; try lia.
  - reflexivity.
  - apply IH. lia.
Qed.

Lemma set_nth_other {A : Type} (v : list A) (i j : nat) (a : A) :
  i <> j -> nth_error (set_nth v i a) j = nth_error v j.
Proof.
  revert i j. induction v as [| b r IH]; intros [| i] [| j] Hij; cbn; try reflexivity.
  - congruence.
  - apply IH. congruence.
Qed.

Lemma store_Ok {A : Type} (v : list A) (i : Z) (a : A) :
  0 <= i < Z.of_nat (length v) -> store v i a = Ok (set_nth v (Z.to_nat i) a).
Proof.
  intros Hi. unfold store.
  destruct (Z.leb_spec 0 i), (Z.ltb_spec i (Z.of_nat (length v))); try lia.
  reflexivity.
Qed.

(** The least index at which a test fails. *)
Lemma first_failure (ok : Z -> bool) (n : Z) :
  (exists i, 0 <= i < n /\ ok i = false) ->
  exists j, 0 <= j < n /\ ok j = false /\ forall i, 0 <= i < j -> ok i = true.
Proof.
  intros (i & Hi & Hbad).
  assert (G : forall m : nat,
             (exists i, 0 <= i < Z.of_nat m /\ ok i = false) ->
             exists j, 0 <= j < Z.of_nat m /\ ok j = false
                       /\ forall i, 0 <= i < j -> ok i = true).
  { induction m as [| m IH]; intros (k & Hk & Hkbad); [lia |].
    destruct (Z.eq_dec k (Z.of_nat m)) as [-> | Hne].
    - destruct (existsb (fun j => negb (ok (Z.of_nat j))) (seq 0 m)) eqn:Ex.
      + apply existsb_exists in Ex. destruct Ex as (j & Hj & Hjbad).
        apply in_seq in Hj. apply negb_true_iff in Hjbad.
        destruct IH as (j' & Hj' & Hbad' & Hmin);
          [exists (Z.of_nat j); split; [lia | assumption] |].
        exists j'. repeat split; try assumption; lia.
      + exists (Z.of_nat m). repeat split; try lia; [assumption |].
        intros i' Hi'.
        destruct (ok i') eqn:Ei; [reflexivity | exfalso].
        assert (Hex : existsb (fun j => negb (ok (Z.of_nat j))) (seq 0 m) = true).
        { apply existsb_exists. exists (Z.to_nat i'). split.
          - apply in_seq. lia.
          - rewrite Z2Nat.id by lia. now rewrite Ei. }
        congruence.
    - destruct IH as (j' & Hj' & Hbad' & Hmin);
        [exists k; split; [lia | assumption] |].
      exists j'. repeat split; try assumption; lia. }
  destruct (G (Z.to_nat n)) as (j & Hj & Hjbad & Hmin).
  - exists i. split; [lia | assumption].
  - exists j. repeat split; try assumption; lia.
Qed.

(** ** The preliminary checks *)

Lemma check_adjacency_Ok (n : Z) (adjacency : list Z) :
  0 <= n < 64 -> square n adjacency -> zero_diagonal n adjacency ->
  even_sum adjacency ->
  check_adjacency n adjacency = Ok (int_num_edges adjacency).
Proof.
  intros Hn Hsq Hdiag Hev. unfold check_adjacency.
  unfold square in Hsq.
  rewrite (to_int_small (n * n)) by nia.
  rewrite to_size_t_small by nia.
  rewrite Hsq, Z.eqb_refl. cbn [assert bind].
  destruct (for_loop_inv (fun _ (_ : unit) => True) n
              (fun v _ => a <- at_index adjacency (to_int (to_int (v * n) + v)) ;;
                          assert (a =? 0))
              tt) as ([] & -> & _); [lia | exact I | |].
  { intros v [] Hv _. rewrite matrix_index_fits by lia.
    rewrite (at_index_Ok adjacency _ 0) by nia. cbn [bind].
    fold (entry n adjacency v v). rewrite (Hdiag v Hv). exists tt. now split. }
  cbn [bind].
  destruct (for_loop_inv
              (fun e acc => acc = to_int (Zsum (Z.to_nat e) (fun i => nth i adjacency 0)))
              (n * n)
              (fun e num_edges => a <- at_index adjacency e ;; Ok (to_int (num_edges + a)))
              0) as (S & -> & HS); [nia | reflexivity | |].
  { intros e acc He ->. rewrite (at_index_Ok adjacency e 0) by lia. cbn [bind].
    eexists. split; [reflexivity |].
    replace (Z.to_nat (e + 1)) with (Datatypes.S (Z.to_nat e)) by lia.
    cbn [Zsum]. apply to_int_plus. }
  cbn [bind].
  assert (HSum : S = to_int (entry_sum adjacency)).
  { rewrite HS, entry_sum_Zsum. do 2 f_equal. lia. }
  rewrite HSum, rem_2_eqb, to_int_parity. unfold even_sum in Hev. rewrite Hev.
  reflexivity.
Qed.
(** ** The cost loop of one rank *)

Section CostLoop.

Context {BaseType : Type} {A : Arithmetic BaseType}.

Variables (n : Z) (adjacency : list Z).
Hypothesis Hn : 0 <= n < 64.
Hypothesis Hsq : square n adjacency.
Hypothesis Hdiag : zero_diagonal n adjacency.
Hypothesis Hev : even_sum adjacency.

Variables (myrank L : Z) (diag : QubitRegister BaseType).
Hypothesis Hqubits : NumQubits diag = n.
Hypothesis Hlocal : LocalSize diag = L.
Hypothesis Hrank : 0 <= myrank.
Hypothesis Hshard : (myrank + 1) * L <= 2 ^ n.

Lemma shard_index_range (i : Z) :
  0 <= i < L ->
  to_size_t (to_size_t (myrank * L) + i) = myrank * L + i /\
  0 <= myrank * L + i < 2 ^ n.
Proof.
  intros Hi.
  assert (Hpow : 2 ^ n < 2 ^ 64) by (apply Z.pow_lt_mono_r; lia).
  assert (0 <= myrank * L) by nia.
  rewrite (to_size_t_small (myrank * L)) by nia.
  rewrite to_size_t_small by nia. nia.
Qed.

(** When the parity test passes on the whole shard, the rank stores the
    value of [cut] at every local index and its local maximum is the largest
    of them, or 0. *)
Lemma InitializeVector_rank_Ok :
  (forall i, 0 <= i < L -> crossing_even n adjacency (myrank * L + i) = true) ->
  exists st m,
    InitializeVector_rank adjacency myrank diag = Ok (with_state diag st, m) /\
    Z.of_nat (length st) = L /\
    (forall i, 0 <= i < L ->
       nth_error st (Z.to_nat i)
       = Some (stored_cost (int_cut n adjacency (myrank * L + i)))) /\
    0 <= m /\
    (forall i, 0 <= i < L ->
       int_cut n adjacency (myrank * L + i) <= m) /\
    (m = 0 \/ exists i, 0 <= i < L /\
       int_cut n adjacency (myrank * L + i) = m).
Proof.
  intros Hpar. unfold InitializeVector_rank.
  assert (HL0 : 0 <= L) by (rewrite <- Hlocal; unfold LocalSize; lia).
  rewrite Hqubits, Hlocal, check_adjacency_Ok by assumption. cbn [bind].
  set (cutf := int_cut n adjacency).
  pose (Inv := fun (i : Z) (t : list (Complex BaseType) * Z * list Z) =>
    let '(st, m, xbin) := t in
    Z.of_nat (length st) = L /\ Z.of_nat (length xbin) = n /\
    (forall j, 0 <= j < i ->
       nth_error st (Z.to_nat j) = Some (stored_cost (cutf (myrank * L + j)))) /\
    0 <= m /\
    (forall j, 0 <= j < i -> cutf (myrank * L + j) <= m) /\
    (m = 0 \/ exists j, 0 <= j < i /\ cutf (myrank * L + j) = m)).
  match goal with
  | |- context [for_loop 0 ?hi ?body ?s] =>
      destruct (for_loop_inv Inv hi body s) as ([[st m] xbin] & Hrun & Hinv)
  end.
  - exact HL0.
  - cbn. split; [exact Hlocal |]. split; [rewrite repeat_length; lia |].
    split; [intros; lia |]. split; [lia |]. split; [intros; lia | now left].
  - intros i [[st m] xbin] Hi (Hst & Hx & Hstored & Hm0 & Hle & Hatt).
    destruct (shard_index_range i Hi) as (Hidx & Hrange).
    rewrite Hidx, cut_of_index_run by assumption.
    specialize (Hpar i Hi). unfold crossing_even in Hpar. rewrite Hpar.
    cbn [bind]. rewrite store_Ok by lia. cbn [bind].
    eexists. split; [reflexivity |]. cbn.
    fold (cutf (myrank * L + i)).
    repeat split.
    + rewrite set_nth_length. exact Hst.
    + rewrite remap_colors_length, ConvertToBinary_loop_length. exact Hx.
    + intros j Hj. destruct (Z.eq_dec j i) as [-> | Hne].
      * apply set_nth_same. lia.
      * rewrite set_nth_other by lia. apply Hstored. lia.
    + destruct (Z.gtb_spec (cutf (myrank * L + i)) m); lia.
    + intros j Hj. destruct (Z.eq_dec j i) as [-> | Hne].
      * destruct (Z.gtb_spec (cutf (myrank * L + i)) m); lia.
      * assert (cutf (myrank * L + j) <= m) by (apply Hle; lia).
        destruct (Z.gtb_spec (cutf (myrank * L + i)) m); lia.
    + destruct (Z.gtb_spec (cutf (myrank * L + i)) m).
      * right. exists i. split; [lia | reflexivity].
      * destruct Hatt as [-> | (j & Hj & Ej)]; [now left |].
        right. exists j. split; [lia | assumption].
  - rewrite Hrun. cbn [bind]. exists st, m.
    destruct Hinv as (Hst & _ & Hstored & Hm0 & Hle & Hatt).
    repeat split; assumption.
Qed.

(** The first index of the shard whose crossing weight is odd stops the
    rank with a failed assertion. *)
Lemma InitializeVector_rank_fails :
  (exists i, 0 <= i < L /\ crossing_even n adjacency (myrank * L + i) = false) ->
  InitializeVector_rank adjacency myrank diag = AssertFail.
Proof.
  intros Hbad.
  destruct (first_failure (fun i => crossing_even n adjacency (myrank * L + i)) L Hbad)
    as (bad & Hb & Hodd & Hbefore).
  unfold InitializeVector_rank.
  rewrite Hqubits, Hlocal, check_adjacency_Ok by assumption. cbn [bind].
  pose (Inv := fun (i : Z) (t : list (Complex BaseType) * Z * list Z) =>
    let '(st, m, xbin) := t in
    Z.of_nat (length st) = L /\ Z.of_nat (length xbin) = n).
  match goal with
  | |- context [for_loop 0 ?hi ?body ?s] =>
      rewrite (for_loop_fails Inv hi bad body s)
  end.
  - reflexivity.
  - exact Hb.
  - cbn. split; [exact Hlocal | rewrite repeat_length; lia].
  - intros i [[st m] xbin] Hi (Hst & Hx).
    assert (Hi' : 0 <= i < L) by lia.
    destruct (shard_index_range i Hi') as (Hidx & Hrange).
    rewrite Hidx, cut_of_index_run by assumption.
    specialize (Hbefore i Hi). cbn beta in Hbefore.
    unfold crossing_even in Hbefore. rewrite Hbefore.
    cbn [bind]. rewrite store_Ok by lia. cbn [bind].
    eexists. split; [reflexivity |]. cbn. split.
    + rewrite set_nth_length. exact Hst.
    + rewrite remap_colors_length, ConvertToBinary_loop_length. exact Hx.
  - intros [[st m] xbin] (Hst & Hx).
    destruct (shard_index_range bad Hb) as (Hidx & Hrange).
    rewrite Hidx, cut_of_index_run by assumption.
    unfold crossing_even in Hodd. rewrite Hodd. reflexivity.
Qed.

End CostLoop.

(** ** Ranks and collective reductions *)

Lemma on_each_rank_Ok {A B : Type} (f : Z -> A -> outcome B)
    (Q : Z -> A -> B -> Prop) (shards : list A) (r0 : Z) :
  (forall j s, nth_error shards j = Some s ->
     exists b, f (r0 + Z.of_nat j) s = Ok b /\ Q (r0 + Z.of_nat j) s b) ->
  exists bs, on_each_rank f r0 shards = Ok bs /\
    length bs = length shards /\
    forall j s, nth_error shards j = Some s ->
      exists b, nth_error bs j = Some b /\ Q (r0 + Z.of_nat j) s b.
Proof.
  revert r0. induction shards as [| s r IH]; intros r0 H.
  - exists []. repeat split. intros [| j] s Hs; discriminate.
  - destruct (H 0%nat s eq_refl) as (b & Hb & HQ).
    rewrite Z.add_0_r in Hb, HQ.
    destruct (IH (r0 + 1)) as (bs & Hbs & Hlen & Hall).
    { intros j s' Hs'. destruct (H (S j) s' Hs') as (b' & Hb' & HQ').
      exists b'. replace (r0 + 1 + Z.of_nat j) with (r0 + Z.of_nat (S j)) by lia.
      now split. }
    exists (b :: bs). cbn [on_each_rank]. rewrite Hb. cbn [bind].
    rewrite Hbs. cbn [bind]. split; [reflexivity |]. split; [cbn; now rewrite Hlen |].
    intros [| j] s' Hs'.
    + injection Hs' as <-. exists b. rewrite Z.add_0_r. now split.
    + destruct (Hall j s' Hs') as (b' & Hb' & HQ').
      exists b'. replace (r0 + Z.of_nat (S j)) with (r0 + 1 + Z.of_nat j) by lia.
      now split.
Qed.

Lemma on_each_rank_fails {A B : Type} (f : Z -> A -> outcome B)
    (shards : list A) (r0 : Z) (bad : nat) (s : A) :
  nth_error shards bad = Some s ->
  f (r0 + Z.of_nat bad) s = AssertFail ->
  (forall j s', (j < bad)%nat -> nth_error shards j = Some s' ->
     exists b, f (r0 + Z.of_nat j) s' = Ok b) ->
  on_each_rank f r0 shards = AssertFail.
Proof.
  revert r0 bad. induction shards as [| s0 r IH]; intros r0 bad Hs Hf Hbefore.
  - destruct bad; discriminate.
  - destruct bad as [| bad]; cbn [on_each_rank].
    + injection Hs as <-. rewrite Z.add_0_r in Hf. now rewrite Hf.
    + destruct (Hbefore 0%nat s0) as (b & Hb); [lia | reflexivity |].
      rewrite Z.add_0_r in Hb. rewrite Hb. cbn [bind].
      rewrite (IH (r0 + 1) bad); [reflexivity | exact Hs | |].
      * replace (r0 + 1 + Z.of_nat bad) with (r0 + Z.of_nat (S bad)) by lia.
        exact Hf.
      * intros j s' Hj Hs'. destruct (Hbefore (S j) s') as (b' & Hb'); [lia | exact Hs' |].
        exists b'. replace (r0 + 1 + Z.of_nat j) with (r0 + Z.of_nat (S j)) by lia.
        exact Hb'.
Qed.

Lemma fold_left_max_spec (l : list Z) (a : Z) :
  (fold_left Z.max l a = a \/ In (fold_left Z.max l a) l) /\
  a <= fold_left Z.max l a /\
  (forall y, In y l -> y <= fold_left Z.max l a).
Proof.
  revert a. induction l as [| b r IH]; intros a; cbn [fold_left].
  - split; [now left |]. split; [lia |]. intros y [].
  - destruct (IH (Z.max a b)) as (Hin & Hge & Hall). split; [| split].
    + destruct Hin as [E | Hin]; [| right; now right].
      rewrite E.
      destruct (Z.max_spec a b) as [[_ Em] | [_ Em]]; rewrite Em.
      * right. now left.
      * now left.
    + lia.
    + intros y [<- | Hy]; [lia | now apply Hall].
Qed.

Lemma MPI_Allreduce_MAX_spec (l : list Z) :
  l <> [] ->
  In (MPI_Allreduce_MAX l) l /\ forall y, In y l -> y <= MPI_Allreduce_MAX l.
Proof.
  destruct l as [| c r]; [congruence |]. intros _. cbn [MPI_Allreduce_MAX].
  destruct (fold_left_max_spec r c) as (Hin & Hge & Hall). split.
  - destruct Hin as [-> | Hin]; [now left | now right].
  - intros y [<- | Hy]; [assumption | now apply Hall].
Qed.
(** ** The whole call of InitializeVectorAsMaxCutCostFunction *)

Section Builder.

Context {BaseType : Type} {A : Arithmetic BaseType}.

Variables (n L : Z) (adjacency : list Z) (diag : list (QubitRegister BaseType)).
Hypothesis Hdist : distributed n L diag.
Hypothesis Hsq : square n adjacency.
Hypothesis Hdiag : zero_diagonal n adjacency.
Hypothesis Hev : even_sum adjacency.

Lemma distributed_sizes : 0 < L /\ 0 < Z.of_nat (length diag).
Proof.
  destruct Hdist as (Hn & HP & Hall).
  assert (0 < 2 ^ n) by (apply Z.pow_pos_nonneg; lia).
  destruct diag as [| q r]; [cbn in HP; lia |].
  apply Forall_inv in Hall. destruct Hall as (_ & _ & HL).
  unfold LocalSize in HL. split; [nia | cbn [length]; lia].
Qed.

Lemma distributed_rank (x : Z) :
  0 <= x < 2 ^ n ->
  exists q, nth_error diag (Z.to_nat (x / L)) = Some q /\
            NumQubits q = n /\ GlobalSize q = 2 ^ n /\ LocalSize q = L /\
            0 <= x / L /\ (x / L + 1) * L <= 2 ^ n /\
            0 <= x mod L < L /\ x = x / L * L + x mod L.
Proof.
  intros Hx. destruct distributed_sizes as (HL & HP).
  destruct Hdist as (Hn & HPL & Hall).
  pose proof (Z_div_mod_eq_full x L) as Hdm.
  pose proof (Z.mod_pos_bound x L HL) as Hmod.
  assert (Hq0 : 0 <= x / L) by (apply Z.div_pos; lia).
  assert (Hqlt : x / L < Z.of_nat (length diag)) by nia.
  destruct (nth_error diag (Z.to_nat (x / L))) as [q |] eqn:E.
  - exists q. rewrite Forall_forall in Hall.
    destruct (Hall q (nth_error_In _ _ E)) as (H1 & H2 & H3).
    repeat split; try assumption; try lia; nia.
  - apply nth_error_None in E. lia.
Qed.

Lemma InitializeVector_Ok :
  (forall x, 0 <= x < 2 ^ n -> crossing_even n adjacency x = true) ->
  exists diag' m,
    InitializeVectorAsMaxCutCostFunction diag adjacency = Ok (diag', m) /\
    distributed n L diag' /\
    (forall x, 0 <= x < 2 ^ n ->
       global_entry L diag' x
       = Some (stored_cost (int_cut n adjacency x))) /\
    is_maximum_below (2 ^ n) (int_cut n adjacency) m.
Proof.
  intros Hpar. destruct distributed_sizes as (HL & HP).
  pose proof Hdist as (Hn & HPL & Hall).
  set (cutf := int_cut n adjacency).
  pose (Q := fun (r : Z) (s : QubitRegister BaseType) (b : QubitRegister BaseType * Z) =>
    exists st m, b = (with_state s st, m) /\
      Z.of_nat (length st) = L /\
      (forall i, 0 <= i < L ->
         nth_error st (Z.to_nat i) = Some (stored_cost (cutf (r * L + i)))) /\
      0 <= m /\
      (forall i, 0 <= i < L -> cutf (r * L + i) <= m) /\
      (m = 0 \/ exists i, 0 <= i < L /\ cutf (r * L + i) = m)).
  destruct (on_each_rank_Ok (InitializeVector_rank adjacency) Q diag 0)
    as (bs & Hrun & Hlen & Hbs).
  { intros j s Hs. rewrite Z.add_0_l.
    assert (Hj : (j < length diag)%nat) by (apply nth_error_Some; congruence).
    rewrite Forall_forall in Hall.
    destruct (Hall s (nth_error_In _ _ Hs)) as (H1 & H2 & H3).
    destruct (InitializeVector_rank_Ok n adjacency Hn Hsq Hdiag Hev
                (Z.of_nat j) L s H1 H3) as (st & m & Hr & Hrest); [lia | nia | |].
    - intros i Hi. apply Hpar. nia.
    - exists (with_state s st, m). split; [exact Hr |]. exists st, m.
      split; [reflexivity | exact Hrest]. }
  unfold InitializeVectorAsMaxCutCostFunction. rewrite Hrun. cbn [bind].
  exists (map fst bs), (MPI_Allreduce_MAX (map snd bs)).
  split; [reflexivity |].
  assert (Hentry : forall x, 0 <= x < 2 ^ n ->
            exists s b st m, nth_error diag (Z.to_nat (x / L)) = Some s /\
              nth_error bs (Z.to_nat (x / L)) = Some b /\
              b = (with_state s st, m) /\
              nth_error st (Z.to_nat (x mod L)) = Some (stored_cost (cutf x)) /\
              cutf x <= m).
  { intros x Hx. destruct (distributed_rank x Hx) as (q & Hq & _ & _ & _ & Hq0 & _ & Hmod & Hdm).
    destruct (Hbs _ q Hq) as (b & Hb & st & m & -> & Hst & Hstored & _ & Hle & _).
    exists q, (with_state q st, m), st, m. rewrite Z.add_0_l, Z2Nat.id in * by lia.
    repeat split; try assumption.
    - rewrite (Hstored (x mod L) Hmod), <- Hdm. reflexivity.
    - specialize (Hle (x mod L) Hmod). now rewrite <- Hdm in Hle. }
  split; [| split].
  - split; [exact Hn |]. split; [rewrite length_map, Hlen; exact HPL |].
    apply Forall_forall. intros q' Hq'. apply in_map_iff in Hq'.
    destruct Hq' as (b & <- & Hb). apply In_nth_error in Hb. destruct Hb as (j & Hj).
    assert (Hjlt : (j < length diag)%nat)
      by (rewrite <- Hlen; apply nth_error_Some; congruence).
    destruct (nth_error diag j) as [s |] eqn:Es; [| apply nth_error_None in Es; lia].
    destruct (Hbs j s Es) as (b' & Hb' & st & m & -> & Hst & _).
    rewrite Hj in Hb'. injection Hb' as ->. cbn.
    rewrite Forall_forall in Hall.
    destruct (Hall s (nth_error_In _ _ Es)) as (H1 & H2 & H3).
    repeat split; assumption.
  - intros x Hx. destruct (Hentry x Hx) as (s & b & st & m & Hs & Hb & -> & Hst & _).
    unfold global_entry. rewrite nth_error_map, Hb. cbn. exact Hst.
  - assert (Hne : map snd bs <> []).
    { destruct bs; [cbn in Hlen; lia | discriminate]. }
    destruct (MPI_Allreduce_MAX_spec (map snd bs) Hne) as (Hin & Hmax).
    set (M := MPI_Allreduce_MAX (map snd bs)) in *. split.
    + apply in_map_iff in Hin. destruct Hin as (b & Eb & Hb).
      apply In_nth_error in Hb. destruct Hb as (j & Hj).
      assert (Hjlt : (j < length diag)%nat)
        by (rewrite <- Hlen; apply nth_error_Some; congruence).
      destruct (nth_error diag j) as [s |] eqn:Es; [| apply nth_error_None in Es; lia].
      destruct (Hbs j s Es) as (b' & Hb' & st & m & -> & _ & _ & _ & _ & Hatt).
      rewrite Hj in Hb'. injection Hb' as ->. cbn in Eb. subst m.
      destruct Hatt as [E0 | (i & Hi & Ei)].
      * exists 0. split; [lia |]. unfold cutf.
        rewrite int_cut_index_0 by (assumption || lia). now rewrite E0.
      * exists (Z.of_nat j * L + i). rewrite Z.add_0_l in Ei. split; [nia | exact Ei].
    + intros x Hx. destruct (Hentry x Hx) as (s & b & st & m & Hs & Hb & -> & _ & Hle).
      fold (cutf x).
      assert (m <= M); [| lia].
      apply Hmax. apply in_map_iff. exists (with_state s st, m).
      split; [reflexivity |]. eapply nth_error_In. exact Hb.
Qed.

Lemma InitializeVector_fails :
  (exists x, 0 <= x < 2 ^ n /\ crossing_even n adjacency x = false) ->
  InitializeVectorAsMaxCutCostFunction diag adjacency = AssertFail.
Proof.
  intros Hbad. destruct distributed_sizes as (HL & HP).
  pose proof Hdist as (Hn & HPL & Hall).
  destruct (first_failure (crossing_even n adjacency) (2 ^ n) Hbad)
    as (x & Hx & Hodd & Hbefore).
  destruct (distributed_rank x Hx) as (q & Hq & H1 & H2 & H3 & Hq0 & Hsh & Hmod & Hdm).
  unfold InitializeVectorAsMaxCutCostFunction.
  rewrite (on_each_rank_fails (InitializeVector_rank adjacency) diag 0
             (Z.to_nat (x / L)) q Hq); [reflexivity | |].
  - rewrite Z.add_0_l, Z2Nat.id by lia.
    apply (InitializeVector_rank_fails n adjacency Hn Hsq Hdiag Hev (x / L) L q H1 H3);
      [lia | lia |].
    exists (x mod L). split; [exact Hmod |]. now rewrite <- Hdm.
  - intros j s Hj Hs. rewrite Z.add_0_l.
    rewrite Forall_forall in Hall.
    destruct (Hall s (nth_error_In _ _ Hs)) as (G1 & G2 & G3).
    assert (Hjq : Z.of_nat j < x / L) by lia.
    destruct (InitializeVector_rank_Ok n adjacency Hn Hsq Hdiag Hev
                (Z.of_nat j) L s G1 G3) as (st & m & Hr & _); [lia | nia | |].
    + intros i Hi. apply Hbefore. nia.
    + eexists. exact Hr.
Qed.

End Builder.

(** ** Symmetric matrices *)

Lemma symmetric_crossing_even (n : Z) (adjacency : list Z) (x : Z) :
  symmetric n adjacency -> crossing_even n adjacency x = true.
Proof.
  intros Hsym. unfold crossing_even.
  rewrite (crossing_weight_even n adjacency (color x) Hsym).
  rewrite Z.mul_comm, Z_mod_mult. reflexivity.
Qed.

Lemma half_crossing_bounds (n : Z) (adjacency : list Z) (c : Z -> Z) :
  0 <= n -> square n adjacency -> nonnegative adjacency ->
  0 <= crossing_weight n adjacency c / 2 <= num_edges_of adjacency.
Proof.
  intros Hn Hsq Hpos.
  destruct (crossing_weight_bounds n adjacency c Hn Hsq Hpos) as (H0 & H1).
  unfold num_edges_of. split.
  - apply Z.div_pos; lia.
  - apply Z.div_le_mono; lia.
Qed.

(** A small instance: the graph of one edge on two vertices, on one rank. *)
Lemma one_edge_invariants : adjacency_invariants 2 [0; 1; 1; 0].
Proof.
  split.
  - reflexivity.
  - repeat constructor; lia.
  - intros v u Hv Hu.
    assert (Ev : v = 0 \/ v = 1) by lia. assert (Eu : u = 0 \/ u = 1) by lia.
    destruct Ev, Eu; subst; reflexivity.
  - intros v Hv. assert (Ev : v = 0 \/ v = 1) by lia.
    destruct Ev; subst; reflexivity.
  - reflexivity.
Qed.

Lemma one_edge_fits : entry_sum [0; 1; 1; 0] < 2 ^ 31.
Proof. reflexivity. Qed.

Lemma one_rank_distributed {BaseType : Type} (st : list (Complex BaseType)) :
  length st = 4%nat -> distributed 2 4 [mkQubitRegister 2 4 st].
Proof.
  intros Hst. split; [lia |]. split; [reflexivity |].
  constructor; [| constructor]. cbn. unfold LocalSize. cbn. rewrite Hst.
  repeat split.
Qed.

Lemma blank_diag_distributed : distributed 2 4 [blank_diag].
Proof. apply one_rank_distributed. reflexivity. Qed.

Lemma blank_diag_3_distributed : distributed 3 8 [blank_diag_3].
Proof.
  split; [lia |]. split; [reflexivity |].
  constructor; [| constructor]. repeat split.
Qed.

(** ** The triangle of section 8 *)

(** [num_edges = 3]; the colorings of index 0 and 7 cut no edge, every other
    coloring cuts 2 edges, and the maximum returned is 2. *)
Example triangle_num_edges : check_adjacency 3 triangle = Ok 3.
Proof. vm_compute. reflexivity. Qed.

Example triangle_cost_array :
  InitializeVectorAsMaxCutCostFunction (A := binary64) [blank_diag_3] triangle
  = Ok ([costs64 3 8 [0; 2; 2; 2; 2; 2; 2; 0]], 2).
Proof. vm_compute. reflexivity. Qed.

(** The same array on two ranks of four entries each. *)
Example triangle_on_two_ranks :
  InitializeVectorAsMaxCutCostFunction (A := binary64)
    [costs64 3 8 [0; 0; 0; 0]; costs64 3 8 [0; 0; 0; 0]] triangle
  = Ok ([costs64 3 8 [0; 2; 2; 2]; costs64 3 8 [2; 2; 2; 0]], 2).
Proof. vm_compute. reflexivity. Qed.

(** In single precision the same costs are stored as [float]. *)
Example triangle_in_single_precision :
  InitializeVectorAsMaxCutCostFunction (A := binary32)
    [mkQubitRegister 3 8 (repeat (stored_cost (A := binary32) 0) 8)] triangle
  = Ok ([mkQubitRegister 3 8
           (map (stored_cost (A := binary32)) [0; 2; 2; 2; 2; 2; 2; 0])], 2).
Proof. vm_compute. reflexivity. Qed.

(** The decoder is least significant bit first and guards its range. *)
Example decode_6 : DecodeToBits 6 3 = Ok [0; 1; 1].
Proof. vm_compute. reflexivity. Qed.

Example decode_8_in_3_bits : DecodeToBits 8 3 = AssertFail.
Proof. vm_compute. reflexivity. Qed.

(** * The claims about the cost builder *)

Lemma invariants_fit_int (n : Z) (adjacency : list Z) :
  adjacency_invariants n adjacency -> entry_sum adjacency < 2 ^ 31 ->
  weights_fit_int adjacency.
Proof.
  intros [_ Hpos _ _ _] Hsum. unfold weights_fit_int.
  now rewrite abs_entry_sum_nonnegative.
Qed.

(** C1, as the code has it.  For an adjacency matrix with the invariants of
    section 3 whose entries sum to less than [2^31], and a register
    distributed over the ranks, the call returns; the entry stored for
    global index [x] (in the shard of rank [x / local_size], at local offset
    [x mod local_size]) is [Type(cut, 0)] for the cut count
    [cut = (num_edges - q/2)/2] of the coloring decoded from [x], and the
    returned value is the maximum of the cut count over all global
    indices. *)
Theorem C1_cost_array_and_maximum {BaseType : Type} {A : Arithmetic BaseType} (n L : Z) (adjacency : list Z)
    (diag : list (QubitRegister BaseType)) :
  adjacency_invariants n adjacency ->
  entry_sum adjacency < 2 ^ 31 ->
  distributed n L diag ->
  exists diag' max_cost,
    InitializeVectorAsMaxCutCostFunction diag adjacency = Ok (diag', max_cost) /\
    (forall x, 0 <= x < 2 ^ n ->
       global_entry L diag' x = Some (stored_cost (cut_value n adjacency x))) /\
    is_maximum_below (2 ^ n) (cut_value n adjacency) max_cost.
Proof.
  intros Hinv Hsum Hdist.
  pose proof (invariants_fit_int n adjacency Hinv Hsum) as Hfit.
  destruct Hinv as [Hsq Hpos Hsym Hdiag Hev].
  pose proof Hdist as (Hn & _).
  assert (Hcut : forall x, int_cut n adjacency x = cut_value n adjacency x).
  { intros x. rewrite cut_value_crossing by (assumption || lia).
    apply int_cut_exact; try (assumption || lia).
    pose proof (symmetric_crossing_even n adjacency x Hsym) as Hpar.
    unfold crossing_even in Hpar. now apply Z.eqb_eq. }
  destruct (InitializeVector_Ok n L adjacency diag Hdist Hsq Hdiag Hev)
    as (diag' & m & Hrun & _ & Hstored & (x0 & Hx0 & Hatt) & Hmax).
  { intros x _. now apply symmetric_crossing_even. }
  exists diag', m. split; [exact Hrun |]. split; [| split].
  - intros x Hx. rewrite <- Hcut. now apply Hstored.
  - exists x0. split; [exact Hx0 |]. now rewrite <- Hcut.
  - intros x Hx. rewrite <- Hcut. now apply Hmax.
Qed.

Lemma C1_cost_array_and_maximum_witness :
  adjacency_invariants 2 [0; 1; 1; 0] /\
  entry_sum [0; 1; 1; 0] < 2 ^ 31 /\
  distributed 2 4 [blank_diag] /\
  exists diag' max_cost,
    InitializeVectorAsMaxCutCostFunction (A := binary64) [blank_diag] [0; 1; 1; 0]
    = Ok (diag', max_cost) /\
    (forall x, 0 <= x < 2 ^ 2 ->
       global_entry 4 diag' x = Some (stored_cost (A := binary64) (cut_value 2 [0; 1; 1; 0] x))) /\
    is_maximum_below (2 ^ 2) (cut_value 2 [0; 1; 1; 0]) max_cost.
Proof.
  split; [exact one_edge_invariants |].
  split; [exact one_edge_fits |].
  split; [exact blank_diag_distributed |].
  exact (C1_cost_array_and_maximum (A := binary64) 2 4 [0; 1; 1; 0] [blank_diag]
           one_edge_invariants one_edge_fits blank_diag_distributed).
Defined.

Lemma heavy_edge_invariants : adjacency_invariants 2 heavy_edge.
Proof.
  split.
  - reflexivity.
  - unfold heavy_edge. repeat constructor; lia.
  - intros v u Hv Hu.
    assert (Ev : v = 0 \/ v = 1) by lia. assert (Eu : u = 0 \/ u = 1) by lia.
    destruct Ev, Eu; subst; reflexivity.
  - intros v Hv. assert (Ev : v = 0 \/ v = 1) by lia.
    destruct Ev; subst; reflexivity.
  - reflexivity.
Qed.

(** C1, as stated, fails when the sum of the entries leaves the range of
    [int].  For one edge of weight [2^30] the matrix has the invariants of
    section 3 and the cut count of index 1 is [2^30]; the sum of line 106
    wraps around to [-2^31], and the call stores 0 at every index and
    returns the maximum 0. *)
Lemma C1_entry_sum_beyond_int :
  adjacency_invariants 2 heavy_edge /\
  distributed 2 4 [blank_diag] /\
  InitializeVectorAsMaxCutCostFunction (A := binary64) [blank_diag] heavy_edge
  = Ok ([costs64 2 4 [0; 0; 0; 0]], 0) /\
  cut_value 2 heavy_edge 1 = 2 ^ 30 /\
  global_entry 4 [costs64 2 4 [0; 0; 0; 0]] 1
  <> Some (stored_cost (A := binary64) (cut_value 2 heavy_edge 1)) /\
  ~ is_maximum_below (2 ^ 2) (cut_value 2 heavy_edge) 0.
Proof.
  split; [exact heavy_edge_invariants |].
  split; [exact blank_diag_distributed |].
  split; [vm_compute; reflexivity |].
  split; [vm_compute; reflexivity |].
  split.
  - vm_compute. intros H. discriminate H.
  - intros (_ & Hmax).
    assert (H : cut_value 2 heavy_edge 1 <= 0) by (apply Hmax; cbn; lia).
    revert H. vm_compute. intros H. now apply H.
Qed.

(** C9, as the code has it.  Under the invariants of section 3, for entries
    that sum to less than [2^31], every stored cost is [Type(cost, 0)] for
    an integer [cost] between 0 and [num_edges], and so is the returned
    maximum; where the integers up to [num_edges] are represented exactly
    in [BaseType], the stored value converts back to [cost]. *)
Theorem C9_cost_between_0_and_num_edges {BaseType : Type} {A : Arithmetic BaseType} (n L : Z)
    (adjacency : list Z) (diag : list (QubitRegister BaseType)) :
  adjacency_invariants n adjacency ->
  entry_sum adjacency < 2 ^ 31 ->
  distributed n L diag ->
  exists diag' max_cost,
    InitializeVectorAsMaxCutCostFunction diag adjacency = Ok (diag', max_cost) /\
    (forall x, 0 <= x < 2 ^ n ->
       exists cost, global_entry L diag' x = Some (stored_cost cost) /\
                    0 <= cost <= num_edges_of adjacency /\
                    (exact_up_to (num_edges_of adjacency) ->
                     base_to_int (real (stored_cost cost)) = cost)) /\
    0 <= max_cost <= num_edges_of adjacency.
Proof.
  intros Hinv Hsum Hdist.
  pose proof (invariants_fit_int n adjacency Hinv Hsum) as Hfit.
  destruct Hinv as [Hsq Hpos Hsym Hdiag Hev].
  pose proof Hdist as (Hn & _).
  assert (Hcut : forall x, int_cut n adjacency x
                           = crossing_weight n adjacency (color x) / 2).
  { intros x. apply int_cut_exact; try (assumption || lia).
    pose proof (symmetric_crossing_even n adjacency x Hsym) as Hpar.
    unfold crossing_even in Hpar. now apply Z.eqb_eq. }
  destruct (InitializeVector_Ok n L adjacency diag Hdist Hsq Hdiag Hev)
    as (diag' & m & Hrun & _ & Hstored & (x0 & Hx0 & Hatt) & Hmax).
  { intros x _. now apply symmetric_crossing_even. }
  exists diag', m. split; [exact Hrun |]. split.
  - intros x Hx. exists (int_cut n adjacency x). split; [now apply Hstored |].
    assert (Hb : 0 <= int_cut n adjacency x <= num_edges_of adjacency)
      by (rewrite Hcut; apply half_crossing_bounds; (assumption || lia)).
    split; [exact Hb |]. intros Hexact. now apply Hexact.
  - rewrite <- Hatt, Hcut. apply half_crossing_bounds; (assumption || lia).
Qed.

Lemma C9_cost_between_0_and_num_edges_witness :
  adjacency_invariants 2 [0; 1; 1; 0] /\
  entry_sum [0; 1; 1; 0] < 2 ^ 31 /\
  distributed 2 4 [blank_diag] /\
  exists diag' max_cost,
    InitializeVectorAsMaxCutCostFunction (A := binary64) [blank_diag] [0; 1; 1; 0]
    = Ok (diag', max_cost) /\
    (forall x, 0 <= x < 2 ^ 2 ->
       exists cost, global_entry 4 diag' x = Some (stored_cost (A := binary64) cost) /\
                    0 <= cost <= num_edges_of [0; 1; 1; 0] /\
                    (exact_up_to (A := binary64) (num_edges_of [0; 1; 1; 0]) ->
                     base_to_int (Arithmetic := binary64)
                       (real (stored_cost (A := binary64) cost)) = cost)) /\
    0 <= max_cost <= num_edges_of [0; 1; 1; 0].
Proof.
  split; [exact one_edge_invariants |].
  split; [exact one_edge_fits |].
  split; [exact blank_diag_distributed |].
  exact (C9_cost_between_0_and_num_edges (A := binary64) 2 4 [0; 1; 1; 0] [blank_diag]
           one_edge_invariants one_edge_fits blank_diag_distributed).
Defined.

Lemma heavy_path_invariants : adjacency_invariants 3 heavy_path.
Proof.
  split.
  - reflexivity.
  - unfold heavy_path. repeat constructor; lia.
  - intros v u Hv Hu.
    assert (Ev : v = 0 \/ v = 1 \/ v = 2) by lia.
    assert (Eu : u = 0 \/ u = 1 \/ u = 2) by lia.
    destruct Ev as [-> | [-> | ->]], Eu as [-> | [-> | ->]]; reflexivity.
  - intros v Hv. assert (Ev : v = 0 \/ v = 1 \/ v = 2) by lia.
    destruct Ev as [-> | [-> | ->]]; reflexivity.
  - reflexivity.
Qed.

(** C9, as stated, fails when the sum of the entries leaves the range of
    [int].  On the path 0 - 1 - 2 with weights [2^29] the matrix has the
    invariants of section 3 and [num_edges] is [2^30]; the sum of line 106
    wraps around, and the cost stored for index 1 is [-2^29]. *)
Lemma C9_negative_cost :
  adjacency_invariants 3 heavy_path /\
  distributed 3 8 [blank_diag_3] /\
  num_edges_of heavy_path = 2 ^ 30 /\
  exists diag' max_cost,
    InitializeVectorAsMaxCutCostFunction (A := binary64) [blank_diag_3] heavy_path
    = Ok (diag', max_cost) /\
    global_entry 8 diag' 1 = Some (stored_cost (A := binary64) (- 2 ^ 29)) /\
    base_to_int (Arithmetic := binary64)
      (real (stored_cost (A := binary64) (- 2 ^ 29))) = - 2 ^ 29 /\
    ~ 0 <= - 2 ^ 29 <= num_edges_of heavy_path.
Proof.
  split; [exact heavy_path_invariants |].
  split; [exact blank_diag_3_distributed |].
  split; [vm_compute; reflexivity |].
  eexists. eexists. split; [vm_compute; reflexivity |].
  split; [vm_compute; reflexivity |].
  split; [vm_compute; reflexivity |].
  intros [H _]. vm_compute in H. now apply H.
Qed.

Lemma even_rem_quot (a : Z) : Z.rem a 2 = 0 -> 2 * Z.quot a 2 = a.
Proof. intros H. pose proof (Z.quot_rem' a 2). lia. Qed.

(** C3.  For a symmetric matrix with zero diagonal and even entry sum, and
    every coloring with values in {-1,+1}, the quadratic form [q] is even
    and [num_edges - q/2] is even.  The same holds of the values of type
    [int] that the double loop and line 142 compute, whatever the size of
    the entries: both divisions by 2 are exact, and for every global index
    the body of the cost loop passes both exactness assertions. *)
Theorem C3_exactness_assertions_hold (n : Z) (adjacency : list Z) :
  0 <= n < 64 -> square n adjacency -> symmetric n adjacency ->
  zero_diagonal n adjacency -> even_sum adjacency ->
  (forall c, is_coloring n c ->
     quadratic_form_of n adjacency c mod 2 = 0 /\
     (num_edges_of adjacency - quadratic_form_of n adjacency c / 2) mod 2 = 0) /\
  (forall xbin, Z.of_nat (length xbin) = n ->
     Forall (fun c => c = 1 \/ c = -1) xbin ->
     exists q, quadratic_form n adjacency xbin = Ok q /\
       Z.rem q 2 = 0 /\
       Z.rem (to_int (int_num_edges adjacency - Z.quot q 2)) 2 = 0 /\
       2 * Z.quot q 2 = q /\
       2 * Z.quot (to_int (int_num_edges adjacency - Z.quot q 2)) 2
       = to_int (int_num_edges adjacency - Z.quot q 2)) /\
  (forall x xbin, 0 <= x < 2 ^ n -> Z.of_nat (length xbin) = n ->
     exists cut xbin',
       cut_of_index n (int_num_edges adjacency) adjacency x xbin
       = Ok (cut, xbin')).
Proof.
  intros Hn Hsq Hsym Hdiag Hev.
  assert (Hn0 : 0 <= n) by lia.
  assert (Hmath : forall c, is_coloring n c ->
            quadratic_form_of n adjacency c mod 2 = 0 /\
            (num_edges_of adjacency - quadratic_form_of n adjacency c / 2) mod 2 = 0).
  { intros c Hc.
    rewrite (quadratic_form_crossing n adjacency c Hn0 Hsq Hc).
    rewrite (crossing_weight_even n adjacency c Hsym).
    set (K := sum_below n _).
    unfold even_sum in Hev. unfold num_edges_of.
    pose proof (even_half _ Hev) as HS.
    set (E := entry_sum adjacency / 2) in *.
    replace (entry_sum adjacency - 2 * (2 * K)) with ((E - 2 * K) * 2) by lia.
    rewrite Z_mod_mult, Z.div_mul by lia.
    replace (E - (E - 2 * K)) with (K * 2) by lia.
    now rewrite Z_mod_mult. }
  split; [exact Hmath |]. split.
  - intros xbin Hlen Hcol.
    set (c := fun v => nth (Z.to_nat v) xbin 0).
    assert (Hc : is_coloring n c).
    { intros v Hv. unfold c. rewrite Forall_forall in Hcol.
      apply Hcol. apply nth_In. lia. }
    exists (to_int (quadratic_form_of n adjacency c)).
    split; [now apply quadratic_form_Ok |].
    assert (Hq : Z.rem (to_int (quadratic_form_of n adjacency c)) 2 = 0).
    { apply Z.eqb_eq. rewrite rem_2_eqb, to_int_parity.
      rewrite (proj1 (Hmath c Hc)). reflexivity. }
    destruct (doubled_cut_of_coloring n adjacency c Hn0 Hsq Hev Hc) as (k & Hk).
    assert (Hd : Z.rem (to_int (int_num_edges adjacency
                                - Z.quot (to_int (quadratic_form_of n adjacency c)) 2)) 2
                 = 0).
    { apply Z.eqb_eq. rewrite rem_2_eqb, Hk.
      rewrite (crossing_weight_even n adjacency c Hsym).
      set (K := sum_below n _).
      replace (2 * K + k * 2 ^ 31) with ((K + k * 2 ^ 30) * 2) by lia.
      now rewrite Z_mod_mult. }
    split; [exact Hq |]. split; [exact Hd |].
    split; now apply even_rem_quot.
  - intros x xbin Hx Hlen.
    rewrite cut_of_index_run by (assumption || lia).
    pose proof (symmetric_crossing_even n adjacency x Hsym) as Hpar.
    unfold crossing_even in Hpar. rewrite Hpar.
    eexists. eexists. reflexivity.
Qed.

Lemma C3_exactness_assertions_hold_witness :
  0 <= 2 < 64 /\ square 2 [0; 1; 1; 0] /\ symmetric 2 [0; 1; 1; 0] /\
  zero_diagonal 2 [0; 1; 1; 0] /\ even_sum [0; 1; 1; 0] /\
  (is_coloring 2 (color 1) /\
   quadratic_form_of 2 [0; 1; 1; 0] (color 1) mod 2 = 0 /\
   (num_edges_of [0; 1; 1; 0] - quadratic_form_of 2 [0; 1; 1; 0] (color 1) / 2) mod 2
   = 0) /\
  (Z.of_nat (length [1; -1]) = 2 /\ Forall (fun c => c = 1 \/ c = -1) [1; -1] /\
   exists q, quadratic_form 2 [0; 1; 1; 0] [1; -1] = Ok q /\
     Z.rem q 2 = 0 /\
     Z.rem (to_int (int_num_edges [0; 1; 1; 0] - Z.quot q 2)) 2 = 0 /\
     2 * Z.quot q 2 = q /\
     2 * Z.quot (to_int (int_num_edges [0; 1; 1; 0] - Z.quot q 2)) 2
     = to_int (int_num_edges [0; 1; 1; 0] - Z.quot q 2)) /\
  (0 <= 1 < 2 ^ 2 /\ Z.of_nat (length [0; 0]) = 2 /\
   exists cut xbin',
     cut_of_index 2 (int_num_edges [0; 1; 1; 0]) [0; 1; 1; 0] 1 [0; 0]
     = Ok (cut, xbin')).
Proof.
  destruct one_edge_invariants as [Hsq Hpos Hsym Hdiag Hev].
  assert (H0 : 0 <= 2 < 64) by lia.
  assert (Hcol : Forall (fun c => c = 1 \/ c = -1) [1; -1])
    by (constructor; [now left | constructor; [now right | constructor]]).
  assert (Hx : 0 <= 1 < 2 ^ 2) by (cbn; lia).
  pose proof (color_is_coloring 2 1) as Hc.
  split; [exact H0 |]. split; [exact Hsq |]. split; [exact Hsym |].
  split; [exact Hdiag |]. split; [exact Hev |]. split; [| split].
  - split; [exact Hc |].
    exact (proj1 (C3_exactness_assertions_hold 2 [0; 1; 1; 0] H0 Hsq Hsym Hdiag Hev)
             (color 1) Hc).
  - split; [reflexivity |]. split; [exact Hcol |].
    exact (proj1 (proj2 (C3_exactness_assertions_hold 2 [0; 1; 1; 0]
                           H0 Hsq Hsym Hdiag Hev)) [1; -1] eq_refl Hcol).
  - split; [exact Hx |]. split; [reflexivity |].
    exact (proj2 (proj2 (C3_exactness_assertions_hold 2 [0; 1; 1; 0]
                           H0 Hsq Hsym Hdiag Hev)) 1 [0; 0] Hx eq_refl).
Defined.

(** C7, as the code has it.  The preliminary checks test the size, the
    diagonal and the parity of the entry sum; symmetry is not tested.  For a
    matrix that passes them, symmetric or not, [num_edges - q/2] is the total
    weight of the ordered pairs of vertices with different colors; the call
    stops on a failed assertion when this quantity is odd for some global
    index, and otherwise returns a cost array and its maximum: when the
    magnitudes of the entries sum to less than [2^31], with the cut count
    [(num_edges - q/2)/2] at every global index. *)
Theorem C7_only_parity_is_checked {BaseType : Type} {A : Arithmetic BaseType} (n L : Z) (adjacency : list Z)
    (diag : list (QubitRegister BaseType)) :
  square n adjacency -> zero_diagonal n adjacency -> even_sum adjacency ->
  distributed n L diag ->
  (forall x, doubled_cut n adjacency x = crossing_weight n adjacency (color x)) /\
  ((exists x, 0 <= x < 2 ^ n /\ doubled_cut n adjacency x mod 2 <> 0) ->
   InitializeVectorAsMaxCutCostFunction diag adjacency = AssertFail) /\
  ((forall x, 0 <= x < 2 ^ n -> doubled_cut n adjacency x mod 2 = 0) ->
   exists diag' max_cost,
     InitializeVectorAsMaxCutCostFunction diag adjacency = Ok (diag', max_cost) /\
     (weights_fit_int adjacency ->
      (forall x, 0 <= x < 2 ^ n ->
         global_entry L diag' x = Some (stored_cost (cut_value n adjacency x))) /\
      is_maximum_below (2 ^ n) (cut_value n adjacency) max_cost)).
Proof.
  intros Hsq Hdiag Hev Hdist. pose proof Hdist as (Hn & _).
  assert (Hdc : forall x, doubled_cut n adjacency x = crossing_weight n adjacency (color x))
    by (intros x; apply doubled_cut_crossing; (assumption || lia)).
  split; [exact Hdc |]. split.
  - intros (x & Hx & Hodd).
    apply InitializeVector_fails with (n := n) (L := L); try assumption.
    exists x. split; [exact Hx |]. unfold crossing_even. rewrite <- Hdc.
    now apply Z.eqb_neq.
  - intros Hpar.
    destruct (InitializeVector_Ok n L adjacency diag Hdist Hsq Hdiag Hev)
      as (diag' & m & Hrun & _ & Hstored & (x0 & Hx0 & Hatt) & Hmax).
    { intros x Hx. unfold crossing_even. rewrite <- Hdc. apply Z.eqb_eq. now apply Hpar. }
    exists diag', m. split; [exact Hrun |]. intros Hfit.
    assert (Hcut : forall x, 0 <= x < 2 ^ n ->
              int_cut n adjacency x = cut_value n adjacency x).
    { intros x Hx. rewrite cut_value_crossing by (assumption || lia).
      apply int_cut_exact; try (assumption || lia).
      rewrite <- Hdc. now apply Hpar. }
    split; [| split].
    + intros x Hx. rewrite <- Hcut by exact Hx. now apply Hstored.
    + exists x0. split; [exact Hx0 |]. now rewrite <- Hcut.
    + intros x Hx. rewrite <- Hcut by exact Hx. now apply Hmax.
Qed.
(** A matrix with the single entry [A[0][1] = 2]: not symmetric, of the right
    size, with zero diagonal and even entry sum. *)
Lemma one_arc_checks :
  square 2 [0; 2; 0; 0] /\ zero_diagonal 2 [0; 2; 0; 0] /\ even_sum [0; 2; 0; 0] /\
  ~ symmetric 2 [0; 2; 0; 0].
Proof.
  split; [reflexivity |]. split; [| split; [reflexivity |]].
  - intros v Hv. assert (Ev : v = 0 \/ v = 1) by lia.
    destruct Ev; subst; reflexivity.
  - intros Hsym. specialize (Hsym 0 1). cbv in Hsym.
    assert (H : Zpos 2 = Z0) by (apply Hsym; split; congruence || reflexivity).
    discriminate H.
Qed.

Lemma one_arc_doubled_cut_even (x : Z) :
  0 <= x < 2 ^ 2 -> doubled_cut 2 [0; 2; 0; 0] x mod 2 = 0.
Proof.
  intros Hx. assert (Ex : x = 0 \/ x = 1 \/ x = 2 \/ x = 3) by lia.
  destruct Ex as [-> | [-> | [-> | ->]]]; reflexivity.
Qed.

Lemma two_arcs_checks :
  square 3 two_arcs /\ zero_diagonal 3 two_arcs /\ even_sum two_arcs /\
  distributed 3 8 [blank_diag_3].
Proof.
  split; [reflexivity |]. split; [| split; [reflexivity |]].
  - intros v Hv. assert (Ev : v = 0 \/ v = 1 \/ v = 2) by lia.
    destruct Ev as [-> | [-> | ->]]; reflexivity.
  - exact blank_diag_3_distributed.
Qed.

Lemma one_arc_fits : weights_fit_int [0; 2; 0; 0].
Proof. reflexivity. Qed.

Lemma C7_only_parity_is_checked_witness :
  (square 2 [0; 2; 0; 0] /\ zero_diagonal 2 [0; 2; 0; 0] /\ even_sum [0; 2; 0; 0] /\
   distributed 2 4 [blank_diag] /\
   (forall x, 0 <= x < 2 ^ 2 -> doubled_cut 2 [0; 2; 0; 0] x mod 2 = 0) /\
   exists diag' max_cost,
     InitializeVectorAsMaxCutCostFunction (A := binary64) [blank_diag] [0; 2; 0; 0]
     = Ok (diag', max_cost) /\
     (weights_fit_int [0; 2; 0; 0] ->
      (forall x, 0 <= x < 2 ^ 2 ->
         global_entry 4 diag' x = Some (stored_cost (A := binary64) (cut_value 2 [0; 2; 0; 0] x))) /\
      is_maximum_below (2 ^ 2) (cut_value 2 [0; 2; 0; 0]) max_cost)) /\
  (square 3 two_arcs /\ zero_diagonal 3 two_arcs /\ even_sum two_arcs /\
   distributed 3 8 [blank_diag_3] /\
   (exists x, 0 <= x < 2 ^ 3 /\ doubled_cut 3 two_arcs x mod 2 <> 0) /\
   InitializeVectorAsMaxCutCostFunction (A := binary64) [blank_diag_3] two_arcs = AssertFail).
Proof.
  destruct one_arc_checks as (Hsq & Hdiag & Hev & _).
  pose proof blank_diag_distributed as Hdist.
  destruct two_arcs_checks as (Hsq3 & Hdiag3 & Hev3 & Hdist3).
  assert (Hodd : exists x, 0 <= x < 2 ^ 3 /\ doubled_cut 3 two_arcs x mod 2 <> 0)
    by (exists 1; split; [cbn; lia | discriminate]).
  split.
  - split; [exact Hsq |]. split; [exact Hdiag |]. split; [exact Hev |].
    split; [exact Hdist |]. split; [exact one_arc_doubled_cut_even |].
    exact (proj2 (proj2 (C7_only_parity_is_checked (A := binary64) 2 4 [0; 2; 0; 0] [blank_diag]
                           Hsq Hdiag Hev Hdist)) one_arc_doubled_cut_even).
  - split; [exact Hsq3 |]. split; [exact Hdiag3 |]. split; [exact Hev3 |].
    split; [exact Hdist3 |]. split; [exact Hodd |].
    exact (proj1 (proj2 (C7_only_parity_is_checked (A := binary64) 3 8 two_arcs [blank_diag_3]
                           Hsq3 Hdiag3 Hev3 Hdist3)) Hodd).
Defined.

(** C7, as stated, fails: the matrix above is not symmetric and passes the
    three other conditions, and the call returns a cost array. *)
Lemma C7_unsymmetric_matrix_is_accepted :
  ~ symmetric 2 [0; 2; 0; 0] /\
  square 2 [0; 2; 0; 0] /\ zero_diagonal 2 [0; 2; 0; 0] /\ even_sum [0; 2; 0; 0] /\
  InitializeVectorAsMaxCutCostFunction (A := binary64) [blank_diag] [0; 2; 0; 0]
  = Ok ([costs64 2 4 [0; 1; 1; 0]], 1).
Proof.
  destruct one_arc_checks as (Hsq & Hdiag & Hev & Hns).
  split; [exact Hns |]. split; [exact Hsq |]. split; [exact Hdiag |].
  split; [exact Hev |]. vm_compute. reflexivity.
Qed.
(** * The claims about the bit codec *)

(** C2, as the code has it.  For every width between 1 and 63 and every [k]
    below [2^width], encoding the decoded bits gives [k] back; for every
    vector of between 1 and 63 entries, all 0 or 1, decoding the encoded
    value into as many bits gives the vector back. *)
Theorem C2_round_trip :
  (forall w k, 1 <= w <= 63 -> 0 <= k < 2 ^ w ->
     encode_after_decode k w = Ok k) /\
  (forall bits, Forall is_bit bits -> 1 <= Z.of_nat (length bits) <= 63 ->
     decode_after_encode bits = Ok bits).
Proof.
  split.
  - exact encode_after_decode_Ok.
  - exact decode_after_encode_Ok.
Qed.

Lemma C2_round_trip_witness :
  (1 <= 3 <= 63 /\ 0 <= 5 < 2 ^ 3 /\ encode_after_decode 5 3 = Ok 5) /\
  (Forall is_bit [1; 0; 1] /\ 1 <= Z.of_nat (length [1; 0; 1]) <= 63 /\
   decode_after_encode [1; 0; 1] = Ok [1; 0; 1]).
Proof.
  assert (H3 : 1 <= 3 <= 63) by lia.
  assert (H5 : 0 <= 5 < 2 ^ 3) by (cbn; lia).
  assert (Hb : Forall is_bit [1; 0; 1])
    by (constructor; [now right | constructor; [now left | constructor; [now right | constructor]]]).
  assert (Hl : 1 <= Z.of_nat (length [1; 0; 1]) <= 63) by (cbn; lia).
  split.
  - split; [exact H3 |]. split; [exact H5 |].
    exact (proj1 C2_round_trip 3 5 H3 H5).
  - split; [exact Hb |]. split; [exact Hl |].
    exact (proj2 C2_round_trip [1; 0; 1] Hb Hl).
Defined.

(** C2, as stated, fails on the empty vector, whose entries are all in
    {0,1}: encoding reads outside the vector.  It also fails for the width
    64: the range guard of the decoder shifts by the full width of
    [std::size_t]. *)
Lemma C2_empty_vector_and_full_width :
  Forall is_bit [] /\ decode_after_encode [] = Undefined /\
  decode_after_encode [] <> Ok [] /\
  1 <= 64 /\ 0 <= 1 < 2 ^ 64 /\ encode_after_decode 1 64 = Undefined /\
  encode_after_decode 1 64 <> Ok 1.
Proof.
  assert (He : decode_after_encode [] = Undefined).
  { unfold decode_after_encode, EncodeFromBits. now rewrite ConvertToDecimal_empty. }
  assert (Hw : encode_after_decode 1 64 = Undefined) by reflexivity.
  split; [constructor |]. split; [exact He |].
  split; [rewrite He; discriminate |].
  split; [lia |]. split; [cbn; lia |]. split; [exact Hw |].
  rewrite Hw. discriminate.
Qed.

(** C10, as the code has it.  For every vector of between 1 and 64 entries,
    all 0 or 1, the encoder returns [sum of bits[i] * 2^i]; for every
    non-empty vector of at most [2^32] entries it returns that sum reduced
    modulo [2^64]; on the empty vector the first index read is outside the
    vector. *)
Theorem C10_encoder_domain :
  (forall bits, Forall is_bit bits -> 1 <= Z.of_nat (length bits) <= 64 ->
     EncodeFromBits bits = Ok (weighted_bit_sum bits)) /\
  (forall bits, 1 <= Z.of_nat (length bits) <= 2 ^ 32 ->
     EncodeFromBits bits = Ok (weighted_bit_sum bits mod 2 ^ 64)) /\
  EncodeFromBits [] = Undefined.
Proof.
  unfold EncodeFromBits. split; [| split].
  - intros bits Hb Hlen. rewrite <- bits_value_weighted_sum.
    now apply ConvertToDecimal_exact.
  - intros bits Hlen. rewrite <- bits_value_weighted_sum.
    now apply ConvertToDecimal_wraps.
  - exact ConvertToDecimal_empty.
Qed.

Lemma C10_encoder_domain_witness :
  (Forall is_bit [1; 1; 0] /\ 1 <= Z.of_nat (length [1; 1; 0]) <= 64 /\
   EncodeFromBits [1; 1; 0] = Ok (weighted_bit_sum [1; 1; 0])) /\
  (1 <= Z.of_nat (length [5; 7]) <= 2 ^ 32 /\
   EncodeFromBits [5; 7] = Ok (weighted_bit_sum [5; 7] mod 2 ^ 64)).
Proof.
  assert (Hb : Forall is_bit [1; 1; 0])
    by (constructor; [now right | constructor; [now right | constructor; [now left | constructor]]]).
  assert (Hl : 1 <= Z.of_nat (length [1; 1; 0]) <= 64) by (cbn; lia).
  assert (Hl' : 1 <= Z.of_nat (length [5; 7]) <= 2 ^ 32) by (cbn; lia).
  split.
  - split; [exact Hb |]. split; [exact Hl |].
    exact (proj1 C10_encoder_domain [1; 1; 0] Hb Hl).
  - split; [exact Hl' |].
    exact (proj1 (proj2 C10_encoder_domain) [5; 7] Hl').
Defined.

(** C10, as stated, fails beyond the width of [std::size_t]: on the vector
    of 65 bits whose only 1 is the last one the sum is [2^64] and the encoder
    returns 0. *)
Lemma C10_sixty_five_bits :
  Forall is_bit (repeat 0 64 ++ [1]) /\
  1 <= Z.of_nat (length (repeat 0 64 ++ [1])) /\
  EncodeFromBits (repeat 0 64 ++ [1]) = Ok 0 /\
  weighted_bit_sum (repeat 0 64 ++ [1]) = 2 ^ 64 /\
  EncodeFromBits (repeat 0 64 ++ [1]) <> Ok (weighted_bit_sum (repeat 0 64 ++ [1])).
Proof.
  assert (He : EncodeFromBits (repeat 0 64 ++ [1]) = Ok 0) by (vm_compute; reflexivity).
  assert (Hs : weighted_bit_sum (repeat 0 64 ++ [1]) = 2 ^ 64) by (vm_compute; reflexivity).
  split.
  - apply Forall_app. split.
    + apply Forall_forall. intros b Hb. apply repeat_spec in Hb. now left.
    + constructor; [now right | constructor].
  - split; [cbn; lia |]. split; [exact He |]. split; [exact Hs |].
    rewrite He, Hs. discriminate.
Qed.


(** * The phase layer *)

Lemma nth_error_to_nth {T : Type} (l : list T) (i : nat) (a d : T) :
  nth_error l i = Some a -> nth i l d = a.
Proof. intros H. now apply nth_error_nth. Qed.

Section PhaseLayer.

Context {BaseType : Type} {A : Arithmetic BaseType}.

Lemma ImplementQaoaLayer_Ok (psi diag : QubitRegister BaseType) (gamma : BaseType) :
  matching psi diag ->
  exists st,
    ImplementQaoaLayerBasedOnCostFunction psi diag gamma = Ok (with_state psi st) /\
    length st = length (state psi) /\
    forall i, (i < length (state psi))%nat ->
      nth i st czero
      = Cmult (nth i (state psi) czero)
              (phase_factor gamma (real (nth i (state diag) czero))).
Proof.
  intros [HL HG]. unfold ImplementQaoaLayerBasedOnCostFunction.
  rewrite HL, HG, !Z.eqb_refl. cbn [assert bind]. rewrite <- HL.
  set (new := fun i => Cmult (nth i (state psi) czero)
                         (phase_factor gamma (real (nth i (state diag) czero)))).
  destruct (for_loop_inv
              (fun i st => length st = length (state psi) /\
                 (forall j, (j < Z.to_nat i)%nat -> nth_error st j = Some (new j)) /\
                 (forall j, (Z.to_nat i <= j)%nat ->
                    nth_error st j = nth_error (state psi) j))
              (LocalSize psi)
              (fun i st =>
                 p <- at_index st i ;;
                 d <- at_index (state diag) i ;;
                 store st i (Cmult p (phase_factor gamma (real d))))
              (state psi)) as (st & Hrun & Hlen & Hnew & _).
  - unfold LocalSize. lia.
  - split; [reflexivity |]. split; [intros j Hj; cbn in Hj; lia | reflexivity].
  - intros i st Hi (Hlen & Hdone & Hrest). unfold LocalSize in Hi, HL.
    rewrite (at_index_Ok st i czero), (at_index_Ok (state diag) i czero) by lia.
    cbn [bind]. rewrite store_Ok by lia.
    eexists. split; [reflexivity |].
    assert (Hp : nth (Z.to_nat i) st czero = nth (Z.to_nat i) (state psi) czero).
    { destruct (nth_error (state psi) (Z.to_nat i)) as [a |] eqn:E.
      - rewrite (nth_error_to_nth (state psi) _ a czero E).
        apply nth_error_to_nth. now rewrite Hrest.
      - apply nth_error_None in E. lia. }
    rewrite Hp. fold (new (Z.to_nat i)). split; [| split].
    + now rewrite set_nth_length.
    + intros j Hj. destruct (Nat.eq_dec j (Z.to_nat i)) as [-> | Hne].
      * apply set_nth_same. lia.
      * rewrite set_nth_other by lia. apply Hdone. lia.
    + intros j Hj. rewrite set_nth_other by lia. apply Hrest. lia.
  - rewrite Hrun. cbn [bind]. exists st. split; [reflexivity |]. split; [exact Hlen |].
    intros i Hi. apply nth_error_to_nth. apply Hnew. unfold LocalSize. lia.
Qed.

Lemma matching_dec (psi diag : QubitRegister BaseType) :
  {matching psi diag} + {~ matching psi diag}.
Proof.
  unfold matching.
  destruct (Z.eq_dec (LocalSize psi) (LocalSize diag)) as [HL | HL];
    [| right; tauto].
  destruct (Z.eq_dec (GlobalSize psi) (GlobalSize diag)) as [HG | HG];
    [left | right]; tauto.
Qed.

Lemma ImplementQaoaLayer_mismatch (psi diag : QubitRegister BaseType)
    (gamma : BaseType) :
  ~ matching psi diag ->
  ImplementQaoaLayerBasedOnCostFunction psi diag gamma = AssertFail.
Proof.
  intros Hm. unfold ImplementQaoaLayerBasedOnCostFunction, matching in *.
  destruct (Z.eqb_spec (LocalSize psi) (LocalSize diag)) as [HL | HL];
    [| reflexivity].
  destruct (Z.eqb_spec (GlobalSize psi) (GlobalSize diag)) as [HG | HG];
    [tauto | reflexivity].
Qed.

(** C6, as the code has it.  For arrays of matching sizes and every
    [gamma], the call returns; the register keeps its number of qubits and
    its sizes, and entry [i] becomes the product, in the arithmetic of the
    amplitude type, of the entry and
    [complex(cos(gamma * cost[i]), -sin(gamma * cost[i]))].  The cost array
    is only read. *)
Theorem C6_phase_layer (psi diag : QubitRegister BaseType) (gamma : BaseType) :
  matching psi diag ->
  exists psi',
    ImplementQaoaLayerBasedOnCostFunction psi diag gamma = Ok psi' /\
    NumQubits psi' = NumQubits psi /\ GlobalSize psi' = GlobalSize psi /\
    LocalSize psi' = LocalSize psi /\
    forall i, (i < length (state psi))%nat ->
      nth i (state psi') czero
      = Cmult (nth i (state psi) czero)
              (mkComplex (cos (times gamma (real (nth i (state diag) czero))))
                         (negate (sin (times gamma (real (nth i (state diag) czero)))))).
Proof.
  intros Hm.
  destruct (ImplementQaoaLayer_Ok psi diag gamma Hm) as (st & Hrun & Hlen & Hval).
  exists (with_state psi st). split; [exact Hrun |].
  split; [reflexivity |]. split; [reflexivity |].
  split; [unfold LocalSize; cbn; now rewrite Hlen |].
  intros i Hi. cbn [with_state state]. now apply Hval.
Qed.

(** X8.  The two size assertions of the phase layer guard every access.  The
    call stops on a failed assertion exactly when the local or the global
    sizes of the two registers differ, and it never reads or writes outside
    the two arrays. *)
Theorem X8_layer_size_guard (psi diag : QubitRegister BaseType) (gamma : BaseType) :
  (ImplementQaoaLayerBasedOnCostFunction psi diag gamma = AssertFail
   <-> ~ matching psi diag) /\
  ImplementQaoaLayerBasedOnCostFunction psi diag gamma <> Undefined.
Proof.
  destruct (matching_dec psi diag) as [Hm | Hm].
  - destruct (ImplementQaoaLayer_Ok psi diag gamma Hm) as (st & -> & _).
    split; [| discriminate]. split; [discriminate | contradiction].
  - rewrite (ImplementQaoaLayer_mismatch psi diag gamma Hm).
    split; [| discriminate]. split; [intros _; exact Hm | reflexivity].
Qed.

End PhaseLayer.

Lemma half_half_matching : matching half_half cost_one.
Proof. split; reflexivity. Qed.

Lemma C6_phase_layer_witness :
  matching half_half cost_one /\
  exists psi',
    ImplementQaoaLayerBasedOnCostFunction (A := binary64) half_half cost_one one_tenth
    = Ok psi' /\
    NumQubits psi' = NumQubits half_half /\ GlobalSize psi' = GlobalSize half_half /\
    LocalSize psi' = LocalSize half_half /\
    forall i, (i < length (state half_half))%nat ->
      nth i (state psi') (czero (A := binary64))
      = Cmult (Arithmetic := binary64) (nth i (state half_half) (czero (A := binary64)))
          (mkComplex
             (cos (Arithmetic := binary64)
                (times (Arithmetic := binary64) one_tenth
                   (real (nth i (state cost_one) (czero (A := binary64))))))
             (negate (Arithmetic := binary64)
                (sin (Arithmetic := binary64)
                   (times (Arithmetic := binary64) one_tenth
                      (real (nth i (state cost_one) (czero (A := binary64)))))))).
Proof.
  split; [exact half_half_matching |].
  exact (C6_phase_layer (A := binary64) half_half cost_one one_tenth half_half_matching).
Defined.

(** C6, as stated, fails in double precision.  The amplitude (1/2, 1/2) has
    the squared magnitude [2^-1]; with the cost 1 and the angle 1/10 the
    layer stores (0.5474187909624270, 0.4475853743155989), whose squared
    magnitude is [2^-1 + 2^-53]: the four products and the two sums of the
    complex product are rounded.  The expectation value of the one-entry
    arrays changes with it. *)
Lemma C6_magnitude_is_rounded :
  matching half_half cost_one /\
  ImplementQaoaLayerBasedOnCostFunction (A := binary64) half_half cost_one one_tenth
  = Ok (register64 0 1 [(dyadic 4930710125987987 (-53), dyadic 8062981299936860 (-54))]) /\
  norm (Arithmetic := binary64) (mkComplex (dyadic 1 (-1)) (dyadic 1 (-1)))
  = dyadic 1 (-1) /\
  norm (Arithmetic := binary64)
    (mkComplex (dyadic 4930710125987987 (-53)) (dyadic 8062981299936860 (-54)))
  = dyadic 4503599627370497 (-53) /\
  dyadic 4503599627370497 (-53) <> dyadic 1 (-1) /\
  GetExpectationValueFromCostFunction (A := binary64) one_rank
    [([[0]], one_thread, half_half, cost_one)] = Ok (dyadic 1 (-1)) /\
  GetExpectationValueFromCostFunction (A := binary64) one_rank
    [([[0]], one_thread,
      register64 0 1 [(dyadic 4930710125987987 (-53), dyadic 8062981299936860 (-54))],
      cost_one)] = Ok (dyadic 4503599627370497 (-53)).
Proof.
  split; [exact half_half_matching |].
  split; [vm_compute; reflexivity |].
  split; [vm_compute; reflexivity |].
  split; [vm_compute; reflexivity |].
  split; [vm_compute; intros H; discriminate H |].
  split; vm_compute; reflexivity.
Qed.

(** * Schedules, teams and reductions *)

Lemma schedule_in_range (schedule : list (list Z)) (L : Z) (chunk : list Z) (i : Z) :
  valid_schedule schedule L -> In chunk schedule -> In i chunk -> 0 <= i < L.
Proof.
  intros Hvalid Hc Hi.
  assert (Hi' : In i (iterations L)).
  { eapply Permutation_in; [exact Hvalid |]. apply in_concat. eauto. }
  unfold iterations in Hi'. apply in_map_iff in Hi'.
  destruct Hi' as (k & <- & Hk). apply in_seq in Hk. lia.
Qed.

Lemma schedule_covers (schedule : list (list Z)) (L : Z) (j : Z) :
  valid_schedule schedule L -> 0 <= j < L ->
  exists chunk, In chunk schedule /\ In j chunk.
Proof.
  intros Hvalid Hj.
  assert (Hin : In j (concat schedule)).
  { eapply Permutation_in; [apply Permutation_sym; exact Hvalid |].
    unfold iterations. apply in_map_iff. exists (Z.to_nat j).
    split; [lia |]. apply in_seq. lia. }
  apply in_concat in Hin. destruct Hin as (chunk & Hc & Hi). eauto.
Qed.

Lemma on_each_rank_map {A B : Type} (f : Z -> A -> outcome B) (g : A -> B)
    (shards : list A) (r0 : Z) :
  (forall s, In s shards -> forall r, f r s = Ok (g s)) ->
  on_each_rank f r0 shards = Ok (map g shards).
Proof.
  revert r0. induction shards as [| s r IH]; intros r0 Hf; [reflexivity |].
  cbn [on_each_rank map]. rewrite Hf by now left. cbn [bind].
  rewrite IH by (intros s' Hs'; apply Hf; now right). reflexivity.
Qed.

Lemma on_each_rank_never_asserts {A B : Type} (f : Z -> A -> outcome B)
    (shards : list A) (r0 : Z) :
  (forall r s, f r s <> AssertFail) ->
  on_each_rank f r0 shards <> AssertFail.
Proof.
  intros Hf. revert r0. induction shards as [| s r IH]; intros r0; [discriminate |].
  cbn [on_each_rank]. specialize (Hf r0 s). specialize (IH (r0 + 1)).
  destruct (f r0 s); [| contradiction | discriminate]. cbn [bind].
  destruct (on_each_rank f (r0 + 1) r); [discriminate | contradiction | discriminate].
Qed.

Lemma on_each_rank_undefined {A B : Type} (f : Z -> A -> outcome B)
    (shards : list A) (bad : A) (r0 : Z) :
  (forall r s, f r s <> AssertFail) ->
  In bad shards -> (forall r, f r bad = Undefined) ->
  on_each_rank f r0 shards = Undefined.
Proof.
  intros Hf Hin Hbad. revert r0.
  induction shards as [| s r IH]; intros r0; [destruct Hin |].
  cbn [on_each_rank]. pose proof (Hf r0 s) as Hs.
  destruct Hin as [-> | Hin].
  - now rewrite Hbad.
  - destruct (f r0 s); [| contradiction | reflexivity]. cbn [bind].
    now rewrite (IH Hin).
Qed.

(** * GetExpectationValueFromCostFunction *)

Section Expectation.

Context {BaseType : Type} {A : Arithmetic BaseType}.

Lemma for_each_expectation (psi diag : QubitRegister BaseType) (chunk : list Z)
    (acc : BaseType) :
  (forall i, In i chunk -> 0 <= i < LocalSize psi) ->
  LocalSize psi <= LocalSize diag ->
  for_each chunk (expectation_iteration psi diag) acc
  = Ok (fold_left (fun acc i =>
            plus acc (times (real (nth (Z.to_nat i) (state diag) czero))
                            (norm (nth (Z.to_nat i) (state psi) czero))))
          chunk acc).
Proof.
  intros Hin Hlen. revert acc.
  induction chunk as [| i r IH]; intros acc; [reflexivity |].
  cbn [for_each fold_left]. unfold expectation_iteration at 1.
  assert (Hi : 0 <= i < LocalSize psi) by (apply Hin; now left).
  unfold LocalSize in Hi, Hlen.
  rewrite (at_index_Ok (state diag) i czero), (at_index_Ok (state psi) i czero) by lia.
  cbn [bind]. apply IH. intros j Hj. apply Hin. now right.
Qed.

Lemma expectation_iteration_never_asserts (psi diag : QubitRegister BaseType)
    (i : Z) (acc : BaseType) :
  expectation_iteration psi diag i acc <> AssertFail.
Proof.
  unfold expectation_iteration, at_index.
  destruct (i <? 0); [discriminate |].
  destruct (nth_error (state diag) (Z.to_nat i)); [| discriminate].
  cbn [bind]. destruct (nth_error (state psi) (Z.to_nat i)); discriminate.
Qed.

Lemma for_each_expectation_never_asserts (psi diag : QubitRegister BaseType)
    (chunk : list Z) (acc : BaseType) :
  for_each chunk (expectation_iteration psi diag) acc <> AssertFail.
Proof.
  revert acc. induction chunk as [| i r IH]; intros acc; [discriminate |].
  cbn [for_each]. pose proof (expectation_iteration_never_asserts psi diag i acc) as H.
  destruct (expectation_iteration psi diag i acc); [| contradiction | discriminate].
  cbn [bind]. apply IH.
Qed.

Lemma for_each_expectation_outside (psi diag : QubitRegister BaseType)
    (chunk : list Z) (j : Z) (acc : BaseType) :
  In j chunk -> LocalSize diag <= j ->
  for_each chunk (expectation_iteration psi diag) acc = Undefined.
Proof.
  intros Hin Hj. revert acc.
  induction chunk as [| i r IH]; intros acc; [destruct Hin |].
  cbn [for_each]. destruct Hin as [-> | Hin].
  - unfold expectation_iteration. unfold LocalSize in Hj.
    rewrite at_index_out by lia. reflexivity.
  - pose proof (expectation_iteration_never_asserts psi diag i acc) as H.
    destruct (expectation_iteration psi diag i acc); [| contradiction | reflexivity].
    cbn [bind]. now apply IH.
Qed.

Lemma GetExpectationValue_rank_Ok (schedule : list (list Z)) (omp : plan)
    (psi diag : QubitRegister BaseType) :
  valid_schedule schedule (LocalSize psi) ->
  LocalSize psi <= LocalSize diag ->
  GetExpectationValue_rank schedule omp psi diag
  = Ok (rank_expectation (schedule, omp, psi, diag)).
Proof.
  intros Hvalid Hlen. unfold GetExpectationValue_rank, on_each_thread.
  rewrite (on_each_rank_map _ (chunk_expectation psi diag)).
  - reflexivity.
  - intros chunk Hc _. apply for_each_expectation; [| exact Hlen].
    intros i Hi. exact (schedule_in_range schedule _ chunk i Hvalid Hc Hi).
Qed.

Lemma GetExpectationValue_rank_outside (schedule : list (list Z)) (omp : plan)
    (psi diag : QubitRegister BaseType) :
  valid_schedule schedule (LocalSize psi) ->
  LocalSize diag < LocalSize psi ->
  GetExpectationValue_rank schedule omp psi diag = Undefined.
Proof.
  intros Hvalid Hlen. unfold GetExpectationValue_rank, on_each_thread.
  destruct (schedule_covers schedule (LocalSize psi) (LocalSize diag) Hvalid)
    as (chunk & Hc & Hj); [unfold LocalSize in *; lia |].
  rewrite (on_each_rank_undefined _ schedule chunk); [reflexivity | | exact Hc |].
  - intros _ c. apply for_each_expectation_never_asserts.
  - intros _. apply (for_each_expectation_outside psi diag chunk (LocalSize diag));
      [exact Hj | lia].
Qed.

Lemma GetExpectationValue_rank_never_asserts (schedule : list (list Z)) (omp : plan)
    (psi diag : QubitRegister BaseType) :
  GetExpectationValue_rank schedule omp psi diag <> AssertFail.
Proof.
  unfold GetExpectationValue_rank, on_each_thread.
  pose proof (on_each_rank_never_asserts
                (fun (_ : Z) chunk =>
                   for_each chunk (expectation_iteration psi diag) zero) schedule 0) as H.
  destruct (on_each_rank _ 0 schedule); [discriminate | | discriminate].
  exfalso. apply H; [| reflexivity].
  intros _ c. apply for_each_expectation_never_asserts.
Qed.

Lemma GetExpectationValue_Ok (mpi : plan)
    (regs : list (list (list Z) * plan * QubitRegister BaseType * QubitRegister BaseType)) :
  Forall expectation_ready regs ->
  GetExpectationValueFromCostFunction mpi regs = Ok (expectation_sum mpi regs).
Proof.
  intros Hall. unfold GetExpectationValueFromCostFunction.
  rewrite (on_each_rank_map _ rank_expectation).
  - reflexivity.
  - intros [[[schedule omp] psi] diag] Hin _. cbn [fst snd].
    rewrite Forall_forall in Hall. destruct (Hall _ Hin) as [Hv Hl].
    now apply GetExpectationValue_rank_Ok.
Qed.

Lemma chunk_expectation_prefix (psi diag diag' : QubitRegister BaseType)
    (chunk : list Z) :
  (forall i, In i chunk -> 0 <= i < LocalSize psi) ->
  firstn (length (state psi)) (state diag')
  = firstn (length (state psi)) (state diag) ->
  chunk_expectation psi diag' chunk = chunk_expectation psi diag chunk.
Proof.
  intros Hin Hpre. unfold chunk_expectation. generalize (zero (A := A)) as acc.
  induction chunk as [| i r IH]; intros acc; [reflexivity |].
  cbn [fold_left].
  assert (Hi : 0 <= i < LocalSize psi) by (apply Hin; now left).
  unfold LocalSize in Hi.
  assert (E : nth (Z.to_nat i) (state diag') czero = nth (Z.to_nat i) (state diag) czero).
  { assert (F : forall l : list (Complex BaseType),
               nth (Z.to_nat i) (firstn (length (state psi)) l) czero
               = nth (Z.to_nat i) l czero).
    { intros l. rewrite nth_firstn.
      destruct (Nat.ltb_spec (Z.to_nat i) (length (state psi))) as [_ | ?];
        [reflexivity | lia]. }
    rewrite <- (F (state diag')), <- (F (state diag)). now rewrite Hpre. }
  rewrite E. apply IH. intros j Hj. apply Hin. now right.
Qed.

(** X10.  The expectation value has no size check of its own.  The loop of
    a rank runs over the local size of the amplitude array: when the cost
    array is at least as long the rank returns a value, the same for every
    cost array with these first entries; when the cost array is shorter the
    rank reads outside it.  No input makes the call stop on a failed
    assertion. *)
Theorem X10_expectation_without_size_check :
  (forall schedule omp (psi diag : QubitRegister BaseType),
     valid_schedule schedule (LocalSize psi) ->
     LocalSize psi <= LocalSize diag ->
     exists value,
       GetExpectationValue_rank schedule omp psi diag = Ok value /\
       forall diag' : QubitRegister BaseType,
         firstn (length (state psi)) (state diag')
         = firstn (length (state psi)) (state diag) ->
         GetExpectationValue_rank schedule omp psi diag' = Ok value) /\
  (forall schedule omp (psi diag : QubitRegister BaseType),
     valid_schedule schedule (LocalSize psi) ->
     LocalSize diag < LocalSize psi ->
     GetExpectationValue_rank schedule omp psi diag = Undefined) /\
  (forall mpi regs,
     GetExpectationValueFromCostFunction (A := A) mpi regs <> AssertFail).
Proof.
  split; [| split].
  - intros schedule omp psi diag Hvalid Hlen.
    exists (rank_expectation (schedule, omp, psi, diag)).
    split; [now apply GetExpectationValue_rank_Ok |].
    intros diag' Hpre.
    assert (Hlen' : LocalSize psi <= LocalSize diag').
    { apply (f_equal (@length _)) in Hpre. rewrite !length_firstn in Hpre.
      unfold LocalSize in *. lia. }
    rewrite GetExpectationValue_rank_Ok by assumption.
    f_equal. unfold rank_expectation. cbn [fst snd]. f_equal. f_equal.
    apply map_ext_in. intros chunk Hc.
    apply chunk_expectation_prefix; [| exact Hpre].
    intros i Hi. exact (schedule_in_range schedule _ chunk i Hvalid Hc Hi).
  - intros schedule omp psi diag. apply GetExpectationValue_rank_outside.
  - intros mpi regs. unfold GetExpectationValueFromCostFunction.
    pose proof (on_each_rank_never_asserts
                  (fun (_ : Z)
                       (r : list (list Z) * plan * QubitRegister BaseType
                            * QubitRegister BaseType) =>
                     GetExpectationValue_rank (fst (fst (fst r))) (snd (fst (fst r)))
                                              (snd (fst r)) (snd r)) regs 0) as H.
    destruct (on_each_rank _ 0 regs); [discriminate | | discriminate].
    exfalso. apply H; [| reflexivity].
    intros _ r. apply GetExpectationValue_rank_never_asserts.
Qed.


End Expectation.

Lemma serial_schedule_2 : valid_schedule [[0; 1]] 2.
Proof. apply Permutation_refl. Qed.

Lemma serial_schedule_4 : valid_schedule [[0; 1; 2; 3]] 4.
Proof. apply Permutation_refl. Qed.

Lemma X10_expectation_without_size_check_witness :
  (valid_schedule [[0; 1]] (LocalSize basis_state_1) /\
   LocalSize basis_state_1 <= LocalSize costs_two_qubits /\
   exists value,
     GetExpectationValue_rank (A := binary64) [[0; 1]] one_thread
       basis_state_1 costs_two_qubits = Ok value /\
     forall diag' : QubitRegister spec_float,
       firstn (length (state basis_state_1)) (state diag')
       = firstn (length (state basis_state_1)) (state costs_two_qubits) ->
       GetExpectationValue_rank (A := binary64) [[0; 1]] one_thread basis_state_1 diag'
       = Ok value) /\
  (valid_schedule [[0; 1; 2; 3]] (LocalSize costs_two_qubits) /\
   LocalSize basis_state_1 < LocalSize costs_two_qubits /\
   GetExpectationValue_rank (A := binary64) [[0; 1; 2; 3]] one_thread
     costs_two_qubits basis_state_1 = Undefined).
Proof.
  assert (Hle : LocalSize basis_state_1 <= LocalSize costs_two_qubits) by (cbn; lia).
  assert (Hlt : LocalSize basis_state_1 < LocalSize costs_two_qubits) by (cbn; lia).
  split.
  - split; [exact serial_schedule_2 |]. split; [exact Hle |].
    exact (proj1 (X10_expectation_without_size_check (A := binary64))
             [[0; 1]] one_thread basis_state_1 costs_two_qubits serial_schedule_2 Hle).
  - split; [exact serial_schedule_4 |]. split; [exact Hlt |].
    exact (proj1 (proj2 (X10_expectation_without_size_check (A := binary64)))
             [[0; 1; 2; 3]] one_thread costs_two_qubits basis_state_1
             serial_schedule_4 Hlt).
Defined.



(** The uniform state of one qubit and the costs 0 and 1: the value is the
    mean 1/2. *)
Example uniform_expectation :
  GetExpectationValueFromCostFunction (A := binary64) one_rank
    [([[0; 1]], one_thread, uniform_psi, costs_0_1)] = Ok (dyadic 1 (-1)).
Proof. vm_compute. reflexivity. Qed.

(** C8 fails on the code: the function has no size check.  With amplitudes
    of one qubit (two entries) and costs of two qubits (four entries), both
    the local and the global sizes differ, and the call returns the value 1
    computed from the first two costs, under every reduction plan a value;
    the phase layer and the histogram stop on their size assertions for the
    same two arrays.  With the arrays exchanged the loop reads outside the
    cost array. *)
Theorem C8_size_mismatch_is_not_detected :
  LocalSize basis_state_1 <> LocalSize costs_two_qubits /\
  GlobalSize basis_state_1 <> GlobalSize costs_two_qubits /\
  GetExpectationValueFromCostFunction (A := binary64) one_rank
    [([[0; 1]], one_thread, basis_state_1, costs_two_qubits)] = Ok (dyadic 1 0) /\
  (forall omp mpi, exists value,
     GetExpectationValueFromCostFunction (A := binary64) mpi
       [([[0; 1]], omp, basis_state_1, costs_two_qubits)] = Ok value) /\
  (forall gamma,
     ImplementQaoaLayerBasedOnCostFunction (A := binary64)
       basis_state_1 costs_two_qubits gamma = AssertFail) /\
  (forall mpi schedule,
     GetHistogramFromCostFunction (A := binary64) mpi
       [(schedule, basis_state_1, costs_two_qubits)] 1 = AssertFail) /\
  GetExpectationValueFromCostFunction (A := binary64) one_rank
    [([[0; 1; 2; 3]], one_thread, costs_two_qubits, basis_state_1)] = Undefined.
Proof.
  split; [cbn; lia |]. split; [cbn; lia |].
  split; [vm_compute; reflexivity |].
  split; [| split; [| split]].
  - intros omp mpi. eexists. apply GetExpectationValue_Ok.
    constructor; [| constructor]. split; [exact serial_schedule_2 | cbn; lia].
  - intros gamma. apply ImplementQaoaLayer_mismatch.
    unfold matching. cbn. lia.
  - intros mpi schedule. reflexivity.
  - vm_compute. reflexivity.
Qed.

(** * GetHistogramFromCostFunction *)

Lemma nth_of_nth_error_eq {T : Type} (l l' : list T) (j : nat) (d : T) :
  nth_error l j = nth_error l' j -> nth j l d = nth j l' d.
Proof. intros H. rewrite <- !nth_default_eq. unfold nth_default. now rewrite H. Qed.

Lemma nth_map_default {T U : Type} (f : T -> U) (l : list T) (d : T) (d' : U)
    (k : nat) :
  f d = d' -> nth k (map f l) d' = f (nth k l d).
Proof. intros <-. apply map_nth. Qed.

Lemma between_dec (lo a hi : Z) : {lo <= a <= hi} + {~ lo <= a <= hi}.
Proof.
  destruct (Z_le_dec lo a) as [H0 | H0]; [| right; lia].
  destruct (Z_le_dec a hi) as [H1 | H1]; [left | right]; lia.
Qed.

Section Histogram.

Context {BaseType : Type} {A : Arithmetic BaseType}.

Lemma vector_add_spec (a b : list BaseType) :
  length a = length b ->
  length (vector_add a b) = length a /\
  forall i, (i < length a)%nat ->
    nth i (vector_add a b) zero = plus (nth i a zero) (nth i b zero).
Proof.
  unfold vector_add. revert b. induction a as [| x a IH]; intros [| y b] Hlen;
    try discriminate.
  - split; [reflexivity |]. intros i Hi. cbn in Hi. lia.
  - destruct (IH b) as (Hl & Hn); [now injection Hlen |].
    split; [cbn; now rewrite Hl |].
    intros [| i] Hi; cbn [combine map nth fst snd]; [reflexivity |].
    apply Hn. cbn in Hi. lia.
Qed.

(** The collective sum of arrays is the collective sum of each bucket. *)
Lemma reduce_vector_add (len : nat) (parts : list (list BaseType)) (p : plan) :
  (forall l, In l parts -> length l = len) ->
  length (reduce vector_add (repeat zero len) parts p) = len /\
  forall b, (b < len)%nat ->
    nth b (reduce vector_add (repeat zero len) parts p) zero
    = reduce plus zero (map (fun l => nth b l zero) parts) p.
Proof.
  intros Hparts. induction p as [k | l [IHl1 IHl2] r [IHr1 IHr2]]; cbn [reduce].
  - split.
    + destruct (nth_in_or_default k parts (repeat zero len)) as [Hin | ->].
      * now apply Hparts.
      * apply repeat_length.
    + intros b Hb.
      symmetry. apply (nth_map_default (fun l => nth b l zero)).
      apply nth_repeat.
  - destruct (vector_add_spec (reduce vector_add (repeat zero len) parts l)
                              (reduce vector_add (repeat zero len) parts r))
      as (Hlen & Hval); [congruence |].
    split; [congruence |].
    intros b Hb. rewrite Hval by lia. now rewrite IHl2, IHr2.
Qed.

Lemma histogram_iteration_Ok (psi diag : QubitRegister BaseType) (M i : Z)
    (h0 : list BaseType) :
  Z.of_nat (length h0) = M + 1 ->
  0 <= i < LocalSize psi -> LocalSize psi = LocalSize diag ->
  0 <= base_to_int (real (nth (Z.to_nat i) (state diag) czero)) <= M ->
  exists h,
    histogram_iteration psi diag M i h0 = Ok h /\ length h = length h0 /\
    forall b, 0 <= b <= M ->
      nth (Z.to_nat b) h zero = bucket_step psi diag b (nth (Z.to_nat b) h0 zero) i.
Proof.
  intros Hh0 Hi HL Hcut. unfold histogram_iteration, bucket_step.
  unfold LocalSize in Hi, HL.
  rewrite (at_index_Ok (state diag) i czero) by lia. cbn [bind].
  set (cut := base_to_int (real (nth (Z.to_nat i) (state diag) czero))) in *.
  destruct (Z.geb_spec cut 0), (Z.leb_spec cut M); try lia.
  cbn [andb assert bind].
  rewrite (at_index_Ok h0 cut zero), (at_index_Ok (state psi) i czero) by lia.
  cbn [bind]. rewrite store_Ok by lia.
  eexists. split; [reflexivity |]. split; [apply set_nth_length |].
  intros b Hb. destruct (Z.eqb_spec cut b) as [-> | Hne].
  - apply nth_error_to_nth. apply set_nth_same. lia.
  - apply nth_of_nth_error_eq. apply set_nth_other. lia.
Qed.

Lemma histogram_iteration_out_of_range (psi diag : QubitRegister BaseType) (M i : Z)
    (h0 : list BaseType) :
  0 <= i < LocalSize diag ->
  ~ 0 <= base_to_int (real (nth (Z.to_nat i) (state diag) czero)) <= M ->
  histogram_iteration psi diag M i h0 = AssertFail.
Proof.
  intros Hi Hbad. unfold histogram_iteration. unfold LocalSize in Hi.
  rewrite (at_index_Ok (state diag) i czero) by lia. cbn [bind].
  set (cut := base_to_int (real (nth (Z.to_nat i) (state diag) czero))) in *.
  destruct (Z.geb_spec cut 0), (Z.leb_spec cut M); try lia; reflexivity.
Qed.

Lemma for_each_histogram (psi diag : QubitRegister BaseType) (M : Z)
    (chunk : list Z) (h0 : list BaseType) :
  matching psi diag ->
  Z.of_nat (length h0) = M + 1 ->
  (forall i, In i chunk -> 0 <= i < LocalSize psi) ->
  (Forall (fun i => 0 <= base_to_int (real (nth (Z.to_nat i) (state diag) czero)) <= M)
          chunk ->
   exists h, for_each chunk (histogram_iteration psi diag M) h0 = Ok h /\
             length h = length h0 /\
             forall b, 0 <= b <= M ->
               nth (Z.to_nat b) h zero
               = fold_left (bucket_step psi diag b) chunk (nth (Z.to_nat b) h0 zero)) /\
  (Exists (fun i => ~ 0 <= base_to_int (real (nth (Z.to_nat i) (state diag) czero)) <= M)
          chunk ->
   for_each chunk (histogram_iteration psi diag M) h0 = AssertFail).
Proof.
  intros Hm. revert h0. induction chunk as [| i r IH]; intros h0 Hh0 Hin.
  - split; [| intros H; inversion H].
    intros _. exists h0. split; [reflexivity |]. split; reflexivity.
  - assert (Hi : 0 <= i < LocalSize psi) by (apply Hin; now left).
    assert (Hr : forall j, In j r -> 0 <= j < LocalSize psi)
      by (intros j Hj; apply Hin; now right).
    cbn [for_each].
    destruct (between_dec 0 (base_to_int (real (nth (Z.to_nat i) (state diag) czero))) M)
      as [Hcut | Hcut].
    + destruct (histogram_iteration_Ok psi diag M i h0 Hh0 Hi (proj1 Hm) Hcut)
        as (h1 & -> & Hlen1 & Hval1).
      cbn [bind]. destruct (IH h1) as (IHok & IHbad); [now rewrite Hlen1 | exact Hr |].
      split.
      * intros Hall. apply Forall_inv_tail in Hall.
        destruct (IHok Hall) as (h & Hh & Hlen & Hval). exists h.
        split; [exact Hh |]. split; [congruence |].
        intros b Hb. rewrite (Hval b Hb), (Hval1 b Hb). reflexivity.
      * intros Hex. apply Exists_cons in Hex. destruct Hex as [Hbad | Hex];
          [contradiction |].
        now apply IHbad.
    + rewrite histogram_iteration_out_of_range
        by (try exact Hcut; destruct Hm as [HL _]; lia).
      split; [| reflexivity]. intros Hall. apply Forall_inv in Hall. contradiction.
Qed.


Lemma chunk_mass_fold (psi diag : QubitRegister BaseType) (b : Z) (chunk : list Z) :
  chunk_mass psi diag b chunk = fold_left (bucket_step psi diag b) chunk zero.
Proof. reflexivity. Qed.

Lemma GetHistogram_rank_Ok (schedule : list (list Z))
    (psi diag : QubitRegister BaseType) (M : Z) :
  0 < M -> matching psi diag ->
  (forall d, In d (state diag) -> 0 <= base_to_int (real d) <= M) ->
  valid_schedule schedule (LocalSize psi) ->
  exists hist,
    GetHistogram_rank schedule psi diag M = Ok hist /\
    Z.of_nat (length hist) = M + 1 /\
    forall b, 0 <= b <= M ->
      nth (Z.to_nat b) hist zero = rank_mass b (schedule, psi, diag).
Proof.
  intros HM Hm Hrange Hvalid. unfold GetHistogram_rank.
  pose proof Hm as [HL HG]. rewrite HL, HG, !Z.eqb_refl.
  destruct (Z.gtb_spec M 0) as [_ | ?]; [| lia]. cbn [assert bind].
  assert (G : forall sched acc0,
            (forall chunk, In chunk sched -> In chunk schedule) ->
            Z.of_nat (length acc0) = M + 1 ->
            exists hist,
              fold_left (fun acc chunk =>
                  local_hist <- acc ;;
                  private_hist <- private_histogram psi diag M chunk ;;
                  Ok (vector_add local_hist private_hist)) sched (Ok acc0) = Ok hist /\
              Z.of_nat (length hist) = M + 1 /\
              forall b, 0 <= b <= M ->
                nth (Z.to_nat b) hist zero
                = fold_left (fun acc chunk => plus acc (chunk_mass psi diag b chunk))
                    sched (nth (Z.to_nat b) acc0 zero)).
  { induction sched as [| chunk r IH]; intros acc0 Hsub Hacc.
    - exists acc0. split; [reflexivity |]. split; [exact Hacc |]. reflexivity.
    - destruct (for_each_histogram psi diag M chunk (repeat zero (Z.to_nat (M + 1))) Hm)
        as (Hok & _).
      + rewrite repeat_length. lia.
      + intros i Hi. apply (schedule_in_range schedule _ chunk i Hvalid); [| exact Hi].
        apply Hsub. now left.
      + destruct Hok as (ph & Hph & Hphlen & Hphval).
        { apply Forall_forall. intros i Hi. apply Hrange. apply nth_In.
          assert (0 <= i < LocalSize psi).
          { apply (schedule_in_range schedule _ chunk i Hvalid); [| exact Hi].
            apply Hsub. now left. }
          unfold LocalSize in *. lia. }
        rewrite repeat_length in Hphlen.
        destruct (vector_add_spec acc0 ph) as (Hvl & Hvn); [lia |].
        destruct (IH (vector_add acc0 ph)) as (hist & Hrun & Hlen & Hval).
        * intros c Hc. apply Hsub. now right.
        * lia.
        * exists hist. cbn [fold_left bind]. unfold private_histogram at 2.
          rewrite Hph. cbn [bind]. split; [exact Hrun |]. split; [exact Hlen |].
          intros b Hb. rewrite (Hval b Hb), Hvn by lia. rewrite (Hphval b Hb).
          rewrite nth_repeat. reflexivity. }
  destruct (G schedule (repeat zero (Z.to_nat (M + 1)))) as (hist & Hrun & Hlen & Hval).
  - auto.
  - rewrite repeat_length. lia.
  - exists hist. split; [exact Hrun |]. split; [exact Hlen |].
    intros b Hb. rewrite (Hval b Hb), nth_repeat. reflexivity.
Qed.






Lemma GetHistogram_Ok
    (mpi : plan) (regs : list (list (list Z) * QubitRegister BaseType * QubitRegister BaseType))
    (M : Z) :
  0 < M ->
  Forall histogram_ready regs ->
  (forall d, In d (cost_array regs) -> 0 <= base_to_int (real d) <= M) ->
  exists hist,
    GetHistogramFromCostFunction mpi regs M = Ok hist /\
    Z.of_nat (length hist) = M + 1 /\
    forall b, 0 <= b <= M ->
      nth (Z.to_nat b) hist zero = bucket_mass mpi regs b.
Proof.
  intros HM Hall Hrange. unfold GetHistogramFromCostFunction.
  destruct (on_each_rank_Ok
              (fun (_ : Z) (spd : list (list Z) * QubitRegister BaseType
                                  * QubitRegister BaseType) =>
                 GetHistogram_rank (fst (fst spd)) (snd (fst spd)) (snd spd) M)
              (fun _ spd hist =>
                 Z.of_nat (length hist) = M + 1 /\
                 forall b, 0 <= b <= M ->
                   nth (Z.to_nat b) hist zero = rank_mass b spd)
              regs 0) as (locals & Hrun & Hlen & Hlocals).
  { intros j [[sched psi] diag] Hj. cbn [fst snd].
    apply nth_error_In in Hj. rewrite Forall_forall in Hall.
    destruct (Hall _ Hj) as [Hm Hv]. cbn [fst snd] in Hm, Hv.
    apply GetHistogram_rank_Ok; try assumption.
    intros d Hd. apply Hrange. unfold cost_array. apply in_concat.
    exists (state diag). split; [| exact Hd].
    apply in_map_iff. exists (sched, psi, diag). now split. }
  rewrite Hrun. cbn [bind]. eexists. split; [reflexivity |].
  unfold MPI_Allreduce_SUM_vector.
  destruct (reduce_vector_add (Z.to_nat (M + 1)) locals mpi) as (Hrl & Hrv).
  { intros l Hl. apply In_nth_error in Hl. destruct Hl as (j & Hj).
    assert (Hjlt : (j < length regs)%nat).
    { rewrite <- Hlen. apply nth_error_Some. congruence. }
    destruct (nth_error regs j) as [spd |] eqn:E;
      [| apply nth_error_None in E; lia].
    destruct (Hlocals j spd E) as (h & Hh & Hhl & _).
    rewrite Hj in Hh. injection Hh as <-. lia. }
  split; [lia |].
  intros b Hb. rewrite Hrv by lia. unfold bucket_mass. f_equal.
  apply nth_ext with (d := zero) (d' := zero).
  - now rewrite !length_map.
  - intros j Hj. rewrite length_map in Hj.
    destruct (nth_error regs j) as [spd |] eqn:E;
      [| apply nth_error_None in E; lia].
    destruct (Hlocals j spd E) as (h & Hh & _ & Hhv).
    rewrite (nth_map_default (fun l : list BaseType => nth (Z.to_nat b) l zero)
               locals [] zero j) by (now destruct (Z.to_nat b)).
    rewrite (nth_error_to_nth locals j h [] Hh).
    rewrite (Hhv b Hb).
    symmetry. apply nth_error_to_nth. now rewrite nth_error_map, E.
Qed.



End Histogram.

Lemma exact_up_to_1 : exact_up_to (A := binary64) 1.
Proof.
  intros c Hc. assert (E : c = 0 \/ c = 1) by lia.
  destruct E as [-> | ->]; vm_compute; reflexivity.
Qed.




(** The uniform state of one qubit and the costs 0 and 1, with two threads:
    each bucket holds 1/2. *)
Example uniform_histogram :
  GetHistogramFromCostFunction (A := binary64) one_rank
    [([[1]; [0]], uniform_psi, costs_0_1)] 1 = Ok [dyadic 1 (-1); dyadic 1 (-1)].
Proof. vm_compute. reflexivity. Qed.


(** X21.  In double precision the results depend on how the arrays are
    distributed.  The amplitudes 1, 0, [2^-27 (1 + i)], [2^-27 (1 + i)] with
    every cost 1 give the expectation value 1 and the bucket 1 on one rank,
    and [1 + 2^-52] for both on two ranks of two entries each, with valid
    schedules and reduction plans in both runs: on one rank each of the two
    small terms [2^-53] is lost when it is added to 1, on two ranks they are
    added to each other first. *)
Theorem X21_results_depend_on_the_distribution :
  state tail_state = state tail_state_low ++ state tail_state_high /\
  state all_ones = state ones_shard ++ state ones_shard /\
  valid_plan 1 one_rank /\ valid_plan 2 two_ranks /\ valid_plan 2 one_thread /\
  valid_schedule [[0; 1; 2; 3]] 4 /\ valid_schedule [[0; 1]] 2 /\
  GetExpectationValueFromCostFunction (A := binary64) one_rank
    [([[0; 1; 2; 3]], one_thread, tail_state, all_ones)] = Ok (dyadic 1 0) /\
  GetExpectationValueFromCostFunction (A := binary64) two_ranks
    [([[0; 1]], one_thread, tail_state_low, ones_shard);
     ([[0; 1]], one_thread, tail_state_high, ones_shard)]
  = Ok (dyadic 4503599627370497 (-52)) /\
  GetHistogramFromCostFunction (A := binary64) one_rank
    [([[0; 1; 2; 3]], tail_state, all_ones)] 1 = Ok [dyadic 0 0; dyadic 1 0] /\
  GetHistogramFromCostFunction (A := binary64) two_ranks
    [([[0; 1]], tail_state_low, ones_shard); ([[0; 1]], tail_state_high, ones_shard)] 1
  = Ok [dyadic 0 0; dyadic 4503599627370497 (-52)] /\
  dyadic 4503599627370497 (-52) <> dyadic 1 0.
Proof.
  split; [reflexivity |]. split; [reflexivity |].
  split; [apply Permutation_refl |]. split; [apply Permutation_refl |].
  split; [apply Permutation_refl |].
  split; [exact serial_schedule_4 |]. split; [exact serial_schedule_2 |].
  split; [vm_compute; reflexivity |]. split; [vm_compute; reflexivity |].
  split; [vm_compute; reflexivity |]. split; [vm_compute; reflexivity |].
  vm_compute. intros H. discriminate H.
Qed.

(** * Further properties of the bit codec *)

Lemma ConvertToBinary_loop_content (k : Z) (z z' : list Z) :
  length z = length z' ->
  utility.ConvertToBinary_loop k z = utility.ConvertToBinary_loop k z'.
Proof.
  revert k z'. induction z as [| b r IH]; intros k [| b' r'] Hlen;
    try discriminate; [reflexivity |].
  cbn. f_equal. apply IH. now injection Hlen.
Qed.

Lemma bit_of_testbit (k i : Z) : 0 <= i -> bit_of k i = Z.b2z (Z.testbit k i).
Proof.
  intros Hi. unfold bit_of.
  change 1 with (Z.ones 1). rewrite Z.land_ones by lia.
  rewrite Z.shiftr_div_pow2 by lia. change (2 ^ 1) with 2.
  symmetry. now apply Z.testbit_spec'.
Qed.

Lemma ConvertToBinary_full_width (k : Z) (z : list Z) :
  64 <= Z.of_nat (length z) < 2 ^ 64 ->
  utility.ConvertToBinary k z = Undefined.
Proof.
  intros Hlen. unfold utility.ConvertToBinary, shl_size_t.
  rewrite to_size_t_small by lia. unfold SIZE_T_BITS.
  destruct (Z.ltb_spec (Z.of_nat (length z)) 64) as [? | _]; [lia | reflexivity].
Qed.

(** X1.  The range guard of [ConvertToBinary].  For a vector shorter than
    the width of [std::size_t] the call returns when [k < 2^size] and stops
    on the failed assertion when [k >= 2^size]; for a vector of 64 entries or
    more the guard shifts by at least the width of the type. *)
Theorem X1_decoder_range_guard (k : Z) (z : list Z) :
  (Z.of_nat (length z) < 64 ->
     (k < 2 ^ Z.of_nat (length z) ->
        exists bits, utility.ConvertToBinary k z = Ok bits) /\
     (2 ^ Z.of_nat (length z) <= k -> utility.ConvertToBinary k z = AssertFail)) /\
  (64 <= Z.of_nat (length z) < 2 ^ 64 -> utility.ConvertToBinary k z = Undefined).
Proof.
  split.
  - intros Hlen. split.
    + intros Hk. eexists. now apply ConvertToBinary_Ok.
    + intros Hk. now apply ConvertToBinary_too_large.
  - apply ConvertToBinary_full_width.
Qed.

Lemma X1_decoder_range_guard_witness :
  (Z.of_nat (length [7; 7; 7]) < 64 /\
   (5 < 2 ^ Z.of_nat (length [7; 7; 7]) /\
    exists bits, utility.ConvertToBinary 5 [7; 7; 7] = Ok bits)) /\
  (Z.of_nat (length [7; 7; 7]) < 64 /\
   2 ^ Z.of_nat (length [7; 7; 7]) <= 8 /\
   utility.ConvertToBinary 8 [7; 7; 7] = AssertFail) /\
  (64 <= Z.of_nat (length (repeat 0 64)) < 2 ^ 64 /\
   utility.ConvertToBinary 0 (repeat 0 64) = Undefined).
Proof.
  assert (H3 : Z.of_nat (length [7; 7; 7]) < 64) by (cbn; lia).
  assert (H5 : 5 < 2 ^ Z.of_nat (length [7; 7; 7])) by (cbn; lia).
  assert (H8 : 2 ^ Z.of_nat (length [7; 7; 7]) <= 8) by (cbn; lia).
  assert (H64 : 64 <= Z.of_nat (length (repeat 0 64)) < 2 ^ 64) by (cbn; lia).
  split; [| split].
  - split; [exact H3 |]. split; [exact H5 |].
    exact (proj1 (proj1 (X1_decoder_range_guard 5 [7; 7; 7]) H3) H5).
  - split; [exact H3 |]. split; [exact H8 |].
    exact (proj2 (proj1 (X1_decoder_range_guard 8 [7; 7; 7]) H3) H8).
  - split; [exact H64 |].
    exact (proj2 (X1_decoder_range_guard 0 (repeat 0 64)) H64).
Defined.

(** X2.  What [ConvertToBinary] writes.  When the guard passes, the vector
    keeps its length, every position [i] holds [(k >> i) & 1], so position 0
    is the least significant bit, and nothing of the previous content of the
    vector is left: any vector of the same length gives the same result. *)
Theorem X2_decoder_output (k : Z) (z : list Z) :
  Z.of_nat (length z) < 64 -> 0 <= k < 2 ^ Z.of_nat (length z) ->
  exists bits,
    utility.ConvertToBinary k z = Ok bits /\
    length bits = length z /\
    (forall i, (i < length z)%nat -> nth i bits 0 = bit_of k (Z.of_nat i)) /\
    (forall z', length z' = length z -> utility.ConvertToBinary k z' = Ok bits).
Proof.
  intros Hlen Hk. exists (utility.ConvertToBinary_loop k z).
  split; [apply ConvertToBinary_Ok; lia |].
  split; [apply ConvertToBinary_loop_length |]. split.
  - intros i Hi. rewrite bit_of_testbit by lia. now apply ConvertToBinary_loop_nth.
  - intros z' Hz'. rewrite ConvertToBinary_Ok by (rewrite Hz'; lia).
    f_equal. now apply ConvertToBinary_loop_content.
Qed.

Lemma X2_decoder_output_witness :
  Z.of_nat (length [9; 9; 9]) < 64 /\ 0 <= 6 < 2 ^ Z.of_nat (length [9; 9; 9]) /\
  exists bits,
    utility.ConvertToBinary 6 [9; 9; 9] = Ok bits /\
    length bits = length [9; 9; 9] /\
    (forall i, (i < length [9; 9; 9])%nat -> nth i bits 0 = bit_of 6 (Z.of_nat i)) /\
    (forall z', length z' = length [9; 9; 9] -> utility.ConvertToBinary 6 z' = Ok bits).
Proof.
  assert (H3 : Z.of_nat (length [9; 9; 9]) < 64) by (cbn; lia).
  assert (H6 : 0 <= 6 < 2 ^ Z.of_nat (length [9; 9; 9])) by (cbn; lia).
  split; [exact H3 |]. split; [exact H6 |].
  exact (X2_decoder_output 6 [9; 9; 9] H3 H6).
Defined.

(** * Further properties of the cost builder *)

Lemma check_adjacency_wrong_size (n : Z) (adjacency : list Z) :
  0 <= n < 64 -> ~ square n adjacency ->
  check_adjacency n adjacency = AssertFail.
Proof.
  intros Hn Hsq. unfold check_adjacency, square in *.
  rewrite (to_int_small (n * n)) by nia.
  rewrite to_size_t_small by nia.
  destruct (Z.eqb_spec (Z.of_nat (length adjacency)) (n * n)) as [E | _];
    [contradiction | reflexivity].
Qed.

Lemma check_adjacency_diagonal (n : Z) (adjacency : list Z) :
  0 <= n < 64 -> square n adjacency ->
  (exists v, 0 <= v < n /\ entry n adjacency v v <> 0) ->
  check_adjacency n adjacency = AssertFail.
Proof.
  intros Hn Hsq (v0 & Hv0 & Hnz). unfold check_adjacency.
  unfold square in Hsq.
  rewrite (to_int_small (n * n)) by nia.
  rewrite to_size_t_small by nia.
  rewrite Hsq, Z.eqb_refl. cbn [assert bind].
  destruct (first_failure (fun v => entry n adjacency v v =? 0) n) as (bad & Hb & Hbad & Hbefore).
  { exists v0. split; [exact Hv0 |]. now apply Z.eqb_neq. }
  rewrite (for_loop_fails (fun _ (_ : unit) => True) n bad); [reflexivity | exact Hb | exact I | |].
  - intros v [] Hv _. rewrite matrix_index_fits by lia.
    rewrite (at_index_Ok adjacency _ 0) by nia. cbn [bind].
    fold (entry n adjacency v v). rewrite (Hbefore v Hv). exists tt. now split.
  - intros [] _. rewrite matrix_index_fits by lia.
    rewrite (at_index_Ok adjacency _ 0) by nia. cbn [bind].
    fold (entry n adjacency bad bad). now rewrite Hbad.
Qed.

Lemma check_adjacency_odd_sum (n : Z) (adjacency : list Z) :
  0 <= n < 64 -> square n adjacency -> zero_diagonal n adjacency ->
  ~ even_sum adjacency ->
  check_adjacency n adjacency = AssertFail.
Proof.
  intros Hn Hsq Hdiag Hodd. unfold check_adjacency.
  unfold square in Hsq.
  rewrite (to_int_small (n * n)) by nia.
  rewrite to_size_t_small by nia.
  rewrite Hsq, Z.eqb_refl. cbn [assert bind].
  destruct (for_loop_inv (fun _ (_ : unit) => True) n
              (fun v _ => a <- at_index adjacency (to_int (to_int (v * n) + v)) ;;
                          assert (a =? 0))
              tt) as ([] & -> & _); [lia | exact I | |].
  { intros v [] Hv _. rewrite matrix_index_fits by lia.
    rewrite (at_index_Ok adjacency _ 0) by nia. cbn [bind].
    fold (entry n adjacency v v). rewrite (Hdiag v Hv). exists tt. now split. }
  cbn [bind].
  destruct (for_loop_inv
              (fun e acc => acc = to_int (Zsum (Z.to_nat e) (fun i => nth i adjacency 0)))
              (n * n)
              (fun e num_edges => a <- at_index adjacency e ;; Ok (to_int (num_edges + a)))
              0) as (S & -> & HS); [nia | reflexivity | |].
  { intros e acc He ->. rewrite (at_index_Ok adjacency e 0) by lia. cbn [bind].
    eexists. split; [reflexivity |].
    replace (Z.to_nat (e + 1)) with (Datatypes.S (Z.to_nat e)) by lia.
    cbn [Zsum]. apply to_int_plus. }
  cbn [bind].
  assert (HSum : S = to_int (entry_sum adjacency)).
  { rewrite HS, entry_sum_Zsum. do 2 f_equal. lia. }
  rewrite HSum, rem_2_eqb, to_int_parity. unfold even_sum in Hodd.
  destruct (Z.eqb_spec (entry_sum adjacency mod 2) 0) as [E | _];
    [contradiction | reflexivity].
Qed.

Section BuilderExtras.

Context {BaseType : Type} {A : Arithmetic BaseType}.

Lemma InitializeVector_check_fails (n L : Z) (adjacency : list Z)
    (diag : list (QubitRegister BaseType)) :
  distributed n L diag ->
  check_adjacency n adjacency = AssertFail ->
  InitializeVectorAsMaxCutCostFunction diag adjacency = AssertFail.
Proof.
  intros Hdist Hcheck. destruct (distributed_sizes n L diag Hdist) as (_ & HP).
  destruct Hdist as (_ & _ & Hall).
  destruct diag as [| q r]; [cbn in HP; lia |].
  apply Forall_inv in Hall. destruct Hall as (Hq & _).
  unfold InitializeVectorAsMaxCutCostFunction. cbn [on_each_rank].
  unfold InitializeVector_rank. rewrite Hq, Hcheck. reflexivity.
Qed.

(** X3.  The preliminary checks of the cost builder.  On a distributed
    register the call stops on a failed assertion when the adjacency vector
    does not have [num_vertices * num_vertices] entries, when an entry of the
    diagonal is not zero, and when the sum of the entries is odd. *)
Theorem X3_preliminary_checks (n L : Z) (adjacency : list Z)
    (diag : list (QubitRegister BaseType)) :
  distributed n L diag ->
  (~ square n adjacency ->
   InitializeVectorAsMaxCutCostFunction diag adjacency = AssertFail) /\
  (square n adjacency ->
   (exists v, 0 <= v < n /\ entry n adjacency v v <> 0) ->
   InitializeVectorAsMaxCutCostFunction diag adjacency = AssertFail) /\
  (square n adjacency -> zero_diagonal n adjacency -> ~ even_sum adjacency ->
   InitializeVectorAsMaxCutCostFunction diag adjacency = AssertFail).
Proof.
  intros Hdist. pose proof Hdist as (Hn & _). split; [| split].
  - intros Hsq. apply (InitializeVector_check_fails n L); [exact Hdist |].
    now apply check_adjacency_wrong_size.
  - intros Hsq Hv. apply (InitializeVector_check_fails n L); [exact Hdist |].
    now apply check_adjacency_diagonal.
  - intros Hsq Hd Hodd. apply (InitializeVector_check_fails n L); [exact Hdist |].
    now apply check_adjacency_odd_sum.
Qed.

End BuilderExtras.

Lemma X3_preliminary_checks_witness :
  distributed 2 4 [blank_diag] /\
  (~ square 2 [0; 1; 1] /\
   InitializeVectorAsMaxCutCostFunction (A := binary64) [blank_diag] [0; 1; 1]
   = AssertFail) /\
  (square 2 [0; 1; 1; 2] /\
   (exists v, 0 <= v < 2 /\ entry 2 [0; 1; 1; 2] v v <> 0) /\
   InitializeVectorAsMaxCutCostFunction (A := binary64) [blank_diag] [0; 1; 1; 2]
   = AssertFail) /\
  (square 2 [0; 1; 0; 0] /\ zero_diagonal 2 [0; 1; 0; 0] /\ ~ even_sum [0; 1; 0; 0] /\
   InitializeVectorAsMaxCutCostFunction (A := binary64) [blank_diag] [0; 1; 0; 0]
   = AssertFail).
Proof.
  pose proof blank_diag_distributed as Hdist.
  assert (Hns : ~ square 2 [0; 1; 1]) by (unfold square; cbn; lia).
  assert (Hsq2 : square 2 [0; 1; 1; 2]) by reflexivity.
  assert (Hv : exists v, 0 <= v < 2 /\ entry 2 [0; 1; 1; 2] v v <> 0)
    by (exists 1; split; [lia | discriminate]).
  assert (Hsq3 : square 2 [0; 1; 0; 0]) by reflexivity.
  assert (Hd3 : zero_diagonal 2 [0; 1; 0; 0]).
  { intros v Hv'. assert (Ev : v = 0 \/ v = 1) by lia. destruct Ev; subst; reflexivity. }
  assert (Hodd : ~ even_sum [0; 1; 0; 0]) by (unfold even_sum; cbn; discriminate).
  split; [exact Hdist |]. split; [| split].
  - split; [exact Hns |].
    exact (proj1 (X3_preliminary_checks (A := binary64) 2 4 [0; 1; 1] [blank_diag] Hdist)
             Hns).
  - split; [exact Hsq2 |]. split; [exact Hv |].
    exact (proj1 (proj2 (X3_preliminary_checks (A := binary64) 2 4 [0; 1; 1; 2]
                           [blank_diag] Hdist)) Hsq2 Hv).
  - split; [exact Hsq3 |]. split; [exact Hd3 |]. split; [exact Hodd |].
    exact (proj2 (proj2 (X3_preliminary_checks (A := binary64) 2 4 [0; 1; 0; 0]
                           [blank_diag] Hdist)) Hsq3 Hd3 Hodd).
Defined.

Lemma symmetric_even_sum (n : Z) (adjacency : list Z) :
  0 <= n -> square n adjacency -> symmetric n adjacency ->
  zero_diagonal n adjacency -> even_sum adjacency.
Proof.
  intros Hn Hsq Hsym Hdiag. unfold even_sum.
  rewrite (entry_sum_double n adjacency Hn Hsq). unfold sum_below.
  rewrite (Zsum_triangle (Z.to_nat n)
             (fun v u => entry n adjacency (Z.of_nat v) (Z.of_nat u))).
  - rewrite Z.mul_comm. apply Z_mod_mult.
  - intros v u Hv Hu. apply Hsym; lia.
  - intros v Hv. apply Hdiag. lia.
Qed.

Lemma color_eqb_xorb (x v u : Z) :
  (color x v =? color x u) = negb (xorb (Z.testbit x v) (Z.testbit x u)).
Proof. unfold color. destruct (Z.testbit x v), (Z.testbit x u); reflexivity. Qed.

Lemma crossing_weight_cut_edges (n : Z) (adjacency : list Z) (x : Z) :
  symmetric n adjacency ->
  crossing_weight n adjacency (color x) = 2 * cut_edges_weight n adjacency x.
Proof.
  intros Hsym. rewrite (crossing_weight_even n adjacency (color x) Hsym).
  f_equal. unfold cut_edges_weight.
  apply sum_below_ext. intros v Hv. apply sum_below_ext. intros u Hu.
  rewrite color_eqb_xorb.
  destruct (xorb (Z.testbit x v) (Z.testbit x u)); reflexivity.
Qed.

Lemma testbit_complement (n x v : Z) :
  0 <= v < n -> Z.testbit (complement n x) v = negb (Z.testbit x v).
Proof.
  intros Hv. unfold complement.
  replace (2 ^ n - 1 - x) with (Z.lnot x + 1 * 2 ^ n) by (unfold Z.lnot; lia).
  rewrite <- (Z.mod_pow2_bits_low (Z.lnot x + 1 * 2 ^ n) n v) by lia.
  rewrite Z_mod_plus_full, Z.mod_pow2_bits_low by lia.
  apply Z.lnot_spec. lia.
Qed.

Lemma crossing_weight_complement (n : Z) (adjacency : list Z) (x : Z) :
  crossing_weight n adjacency (color (complement n x))
  = crossing_weight n adjacency (color x).
Proof.
  unfold crossing_weight. apply sum_below_ext. intros v Hv.
  apply sum_below_ext. intros u Hu.
  rewrite !color_eqb_xorb, !testbit_complement by lia.
  destruct (Z.testbit x v), (Z.testbit x u); reflexivity.
Qed.

(** The opposite coloring has the same quadratic form, so the same value is
    stored, wrapped or not. *)
Lemma int_cut_complement (n : Z) (adjacency : list Z) (x : Z) :
  0 <= n -> square n adjacency ->
  int_cut n adjacency (complement n x) = int_cut n adjacency x.
Proof.
  intros Hn Hsq. unfold int_cut, int_doubled_cut.
  rewrite !(quadratic_form_crossing n adjacency (color _) Hn Hsq)
    by apply color_is_coloring.
  now rewrite crossing_weight_complement.
Qed.

Lemma for_count_partial {St : Type} (Inv : Z -> St -> Prop) (count : nat) (lo : Z)
    (body : Z -> St -> outcome St) (s s' : St) :
  Inv lo s ->
  (forall i t t', lo <= i < lo + Z.of_nat count -> Inv i t ->
     body i t = Ok t' -> Inv (i + 1) t') ->
  for_count count lo body s = Ok s' ->
  Inv (lo + Z.of_nat count) s'.
Proof.
  revert lo s. induction count as [| c IH]; intros lo s H0 Hstep Hrun.
  - cbn in Hrun. injection Hrun as <-. now rewrite Z.add_0_r.
  - cbn [for_count] in Hrun. destruct (body lo s) as [t | |] eqn:Et; try discriminate.
    cbn [bind] in Hrun.
    replace (lo + Z.of_nat (S c)) with (lo + 1 + Z.of_nat c) by lia.
    apply (IH (lo + 1) t); [| | exact Hrun].
    + apply (Hstep lo s t); [lia | exact H0 | exact Et].
    + intros i u u' Hi. apply Hstep. lia.
Qed.

Lemma for_loop_partial {St : Type} (Inv : Z -> St -> Prop) (n : Z)
    (body : Z -> St -> outcome St) (s s' : St) :
  0 <= n -> Inv 0 s ->
  (forall i t t', 0 <= i < n -> Inv i t -> body i t = Ok t' -> Inv (i + 1) t') ->
  for_loop 0 n body s = Ok s' ->
  Inv n s'.
Proof.
  intros Hn H0 Hstep Hrun. unfold for_loop in Hrun.
  pose proof (for_count_partial Inv (Z.to_nat (n - 0)) 0 body s s' H0) as H.
  replace (0 + Z.of_nat (Z.to_nat (n - 0))) with n in H by lia.
  apply H; [| exact Hrun]. intros i t t' Hi. apply Hstep. lia.
Qed.

Lemma store_inv {T : Type} (v v' : list T) (i : Z) (a : T) :
  store v i a = Ok v' ->
  0 <= i < Z.of_nat (length v) /\ v' = set_nth v (Z.to_nat i) a.
Proof.
  unfold store.
  destruct (Z.leb_spec 0 i) as [Hlo | Hlo],
           (Z.ltb_spec i (Z.of_nat (length v))) as [Hhi | Hhi];
    cbn; intros Hs; try discriminate.
  injection Hs as <-. split; [lia | reflexivity].
Qed.

Lemma on_each_rank_returns {T U : Type} (f : Z -> T -> outcome U)
    (shards : list T) (r0 : Z) (bs : list U) :
  on_each_rank f r0 shards = Ok bs ->
  Forall2 (fun s b => exists r, f r s = Ok b) shards bs.
Proof.
  revert r0 bs. induction shards as [| s r IH]; intros r0 bs Hrun.
  - cbn in Hrun. injection Hrun as <-. constructor.
  - cbn [on_each_rank] in Hrun.
    destruct (f r0 s) as [b | |] eqn:Eb; try discriminate. cbn [bind] in Hrun.
    destruct (on_each_rank f (r0 + 1) r) as [bs' | |] eqn:Er; try discriminate.
    cbn [bind] in Hrun. injection Hrun as <-.
    constructor; [eauto | eapply IH; exact Er].
Qed.

Lemma for_count_related {S1 S2 : Type} (Rel : Z -> S1 -> S2 -> Prop) (count : nat)
    (lo : Z) (body1 : Z -> S1 -> outcome S1) (body2 : Z -> S2 -> outcome S2)
    (s1 : S1) (s2 : S2) :
  Rel lo s1 s2 ->
  (forall i t1 t2, lo <= i < lo + Z.of_nat count -> Rel i t1 t2 ->
     outcomes_related (Rel (i + 1)) (body1 i t1) (body2 i t2)) ->
  outcomes_related (Rel (lo + Z.of_nat count))
    (for_count count lo body1 s1) (for_count count lo body2 s2).
Proof.
  revert lo s1 s2. induction count as [| c IH]; intros lo s1 s2 H0 Hstep.
  - cbn. now rewrite Z.add_0_r.
  - cbn [for_count]. pose proof (Hstep lo s1 s2 ltac:(lia) H0) as Hb.
    destruct (body1 lo s1) as [t1 | |], (body2 lo s2) as [t2 | |];
      cbn in Hb; try contradiction; cbn [bind]; try exact I.
    replace (lo + Z.of_nat (S c)) with (lo + 1 + Z.of_nat c) by lia.
    apply IH; [exact Hb |]. intros i u1 u2 Hi. apply Hstep. lia.
Qed.

Lemma on_each_rank_content {T U : Type} (f : Z -> T -> outcome U)
    (Rel : T -> T -> Prop) (l1 l2 : list T) :
  (forall r a b, Rel a b -> f r a = f r b) ->
  Forall2 Rel l1 l2 ->
  forall r0, on_each_rank f r0 l1 = on_each_rank f r0 l2.
Proof.
  intros Hf. induction 1 as [| a b l l' Hab _ IH]; intros r0; [reflexivity |].
  cbn [on_each_rank]. now rewrite (Hf r0 a b Hab), IH.
Qed.

Section CostArray.

Context {BaseType : Type} {A : Arithmetic BaseType}.

(** The builder on a matrix with the invariants of section 3 and entries
    that sum to less than [2^31]. *)
Lemma InitializeVector_invariants (n L : Z) (adjacency : list Z)
    (diag : list (QubitRegister BaseType)) :
  adjacency_invariants n adjacency ->
  entry_sum adjacency < 2 ^ 31 ->
  distributed n L diag ->
  exists diag' max_cost,
    InitializeVectorAsMaxCutCostFunction diag adjacency = Ok (diag', max_cost) /\
    distributed n L diag' /\
    (forall x, 0 <= x < 2 ^ n ->
       global_entry L diag' x = Some (stored_cost (cut_value n adjacency x))) /\
    is_maximum_below (2 ^ n) (cut_value n adjacency) max_cost /\
    (forall x, 0 <= cut_value n adjacency x <= num_edges_of adjacency).
Proof.
  intros Hinv Hsum Hdist.
  pose proof (invariants_fit_int n adjacency Hinv Hsum) as Hfit.
  destruct Hinv as [Hsq Hpos Hsym Hdiag Hev].
  pose proof Hdist as (Hn & _).
  assert (Hcut : forall x, int_cut n adjacency x = cut_value n adjacency x).
  { intros x. rewrite cut_value_crossing by (assumption || lia).
    apply int_cut_exact; try (assumption || lia).
    pose proof (symmetric_crossing_even n adjacency x Hsym) as Hpar.
    unfold crossing_even in Hpar. now apply Z.eqb_eq. }
  destruct (InitializeVector_Ok n L adjacency diag Hdist Hsq Hdiag Hev)
    as (diag' & m & Hrun & Hdist' & Hstored & (x0 & Hx0 & Hatt) & Hmax).
  { intros x _. now apply symmetric_crossing_even. }
  exists diag', m. split; [exact Hrun |]. split; [exact Hdist' |].
  split; [| split; [split |]].
  - intros x Hx. rewrite <- Hcut. now apply Hstored.
  - exists x0. split; [exact Hx0 |]. now rewrite <- Hcut.
  - intros x Hx. rewrite <- Hcut. now apply Hmax.
  - intros x. rewrite cut_value_crossing by (assumption || lia).
    apply half_crossing_bounds; (assumption || lia).
Qed.

(** X4.  The comment of lines 110-115: the stored cost is the number of cut
    edges.  For a square, symmetric matrix with zero diagonal whose entries
    have magnitudes that sum to less than [2^31], the call returns, and the
    entry stored for global index [x] is [Type(w, 0)] for the total weight
    [w] of the edges whose two ends have different bits in [x], each edge
    counted once. *)
Theorem X4_cost_is_weight_of_cut_edges (n L : Z) (adjacency : list Z)
    (diag : list (QubitRegister BaseType)) :
  square n adjacency -> symmetric n adjacency -> zero_diagonal n adjacency ->
  weights_fit_int adjacency ->
  distributed n L diag ->
  exists diag' max_cost,
    InitializeVectorAsMaxCutCostFunction diag adjacency = Ok (diag', max_cost) /\
    forall x, 0 <= x < 2 ^ n ->
      global_entry L diag' x
      = Some (stored_cost (cut_edges_weight n adjacency x)).
Proof.
  intros Hsq Hsym Hdiag Hfit Hdist. pose proof Hdist as (Hn & _).
  assert (Hev : even_sum adjacency) by (apply (symmetric_even_sum n); (assumption || lia)).
  destruct (InitializeVector_Ok n L adjacency diag Hdist Hsq Hdiag Hev)
    as (diag' & m & Hrun & _ & Hstored & _).
  { intros x _. now apply symmetric_crossing_even. }
  exists diag', m. split; [exact Hrun |].
  intros x Hx. rewrite (Hstored x Hx). do 2 f_equal.
  rewrite int_cut_exact; try (assumption || lia).
  - rewrite crossing_weight_cut_edges by assumption.
    rewrite Z.mul_comm. apply Z.div_mul. lia.
  - pose proof (symmetric_crossing_even n adjacency x Hsym) as Hpar.
    unfold crossing_even in Hpar. now apply Z.eqb_eq.
Qed.

(** X5.  Two symmetries of the cost array.  For a square, symmetric matrix
    with zero diagonal the entry of global index 0 (every vertex of one
    color) is 0, and the entries of a global index and of the index of the
    opposite coloring, [2^num_vertices - 1 - x], are the same. *)
Theorem X5_opposite_coloring (n L : Z) (adjacency : list Z)
    (diag : list (QubitRegister BaseType)) :
  square n adjacency -> symmetric n adjacency -> zero_diagonal n adjacency ->
  distributed n L diag ->
  exists diag' max_cost,
    InitializeVectorAsMaxCutCostFunction diag adjacency = Ok (diag', max_cost) /\
    global_entry L diag' 0 = Some (stored_cost 0) /\
    forall x, 0 <= x < 2 ^ n ->
      global_entry L diag' (complement n x) = global_entry L diag' x.
Proof.
  intros Hsq Hsym Hdiag Hdist. pose proof Hdist as (Hn & _).
  assert (Hev : even_sum adjacency) by (apply (symmetric_even_sum n); (assumption || lia)).
  assert (Hpow : 0 < 2 ^ n) by (apply Z.pow_pos_nonneg; lia).
  destruct (InitializeVector_Ok n L adjacency diag Hdist Hsq Hdiag Hev)
    as (diag' & m & Hrun & _ & Hstored & _).
  { intros x _. now apply symmetric_crossing_even. }
  exists diag', m. split; [exact Hrun |]. split.
  - rewrite (Hstored 0) by lia. now rewrite int_cut_index_0 by (assumption || lia).
  - intros x Hx. rewrite (Hstored x Hx), (Hstored (complement n x))
      by (unfold complement; lia).
    now rewrite int_cut_complement by (assumption || lia).
Qed.

(** ** What holds whenever the builder returns *)

Lemma InitializeVector_rank_returns (adjacency : list Z) (myrank : Z)
    (diag diag' : QubitRegister BaseType) (m : Z) :
  InitializeVector_rank adjacency myrank diag = Ok (diag', m) ->
  same_shape diag diag' /\ 0 <= m /\
  forall e, In e (state diag') -> exists c, e = stored_cost c /\ c <= m.
Proof.
  unfold InitializeVector_rank.
  destruct (check_adjacency (NumQubits diag) adjacency) as [E | |]; try discriminate.
  cbn [bind].
  match goal with
  | |- context [for_loop 0 ?hi ?body ?s] =>
      destruct (for_loop 0 hi body s) as [[[st mx] xb] | |] eqn:Hrun; try discriminate;
      pose proof (for_loop_partial
        (fun i (t : list (Complex BaseType) * Z * list Z) =>
           let '(st, m, _) := t in
           length st = length (state diag) /\ 0 <= m /\
           forall j, (j < Z.to_nat i)%nat ->
             exists c, nth_error st j = Some (stored_cost c) /\ c <= m)
        hi body s (st, mx, xb)) as Hinv
  end.
  cbn [bind]. intros H. injection H as <- <-.
  destruct Hinv as (Hlen & Hm & Hall).
  - unfold LocalSize. lia.
  - cbn. split; [reflexivity |]. split; [lia |]. intros j Hj. lia.
  - intros i [[st0 m0] xb0] [[st1 m1] xb1] Hi (Hlen0 & Hm0 & Hall0) Hbody.
    destruct (cut_of_index (NumQubits diag) E adjacency
                (to_size_t (to_size_t (myrank * LocalSize diag) + i)) xb0)
      as [[cut xb'] | |]; try discriminate.
    cbn [bind] in Hbody.
    destruct (store st0 i (mkComplex (int_to_base cut) (int_to_base 0)))
      as [st'' | |] eqn:Es; try discriminate.
    cbn [bind] in Hbody. injection Hbody as <- <- <-.
    apply store_inv in Es. destruct Es as (Hi' & ->).
    split; [now rewrite set_nth_length |].
    split; [destruct (Z.gtb_spec cut m0); lia |].
    intros j Hj. destruct (Nat.eq_dec j (Z.to_nat i)) as [-> | Hne].
    + exists cut. split; [apply set_nth_same; lia |].
      destruct (Z.gtb_spec cut m0); lia.
    + destruct (Hall0 j) as (c & Hc & Hle); [lia |].
      exists c. split; [rewrite set_nth_other by lia; exact Hc |].
      destruct (Z.gtb_spec cut m0); lia.
  - exact Hrun.
  - split; [| split; [exact Hm |]].
    + repeat split. unfold LocalSize. cbn. now rewrite Hlen.
    + intros e He. cbn in He. apply In_nth_error in He. destruct He as (j & Hj).
      assert (Hjlt : (j < length st)%nat) by (apply nth_error_Some; congruence).
      destruct (Hall j) as (c & Hc & Hle); [unfold LocalSize; lia |].
      exists c. split; [congruence | exact Hle].
Qed.

(** X6.  What holds whenever the cost builder returns, whatever the
    adjacency vector.  Every rank keeps the number of qubits and the sizes of
    its register; every entry of the new cost array is [Type(c, 0)] for an
    [int] [c] no larger than the returned maximum; and the returned maximum
    is never negative. *)
Theorem X6_returned_cost_array (diag diag' : list (QubitRegister BaseType))
    (adjacency : list Z) (max_cost : Z) :
  InitializeVectorAsMaxCutCostFunction diag adjacency = Ok (diag', max_cost) ->
  Forall2 same_shape diag diag' /\
  0 <= max_cost /\
  forall q e, In q diag' -> In e (state q) ->
    exists c, e = stored_cost c /\ c <= max_cost.
Proof.
  unfold InitializeVectorAsMaxCutCostFunction.
  destruct (on_each_rank (InitializeVector_rank adjacency) 0 diag) as [locals | |] eqn:Hrun;
    try discriminate.
  cbn [bind]. intros H. injection H as <- <-.
  apply on_each_rank_returns in Hrun.
  assert (Hlocal : forall b, In b locals ->
            0 <= snd b /\ snd b <= MPI_Allreduce_MAX (map snd locals) /\
            forall e, In e (state (fst b)) ->
              exists c, e = stored_cost c /\ c <= snd b).
  { intros [q m] Hb.
    assert (Hne : map snd locals <> []) by (destruct locals; [destruct Hb | discriminate]).
    destruct (MPI_Allreduce_MAX_spec (map snd locals) Hne) as (_ & Hmax).
    assert (Hex : exists s r, InitializeVector_rank adjacency r s = Ok (q, m)).
    { clear - Hrun Hb. induction Hrun as [| s b l l' (r & Hr) _ IH]; [destruct Hb |].
      destruct Hb as [-> | Hb]; [eauto | now apply IH]. }
    destruct Hex as (s & r & Hr).
    destruct (InitializeVector_rank_returns adjacency r s q m Hr) as (_ & Hm & Hall).
    cbn [fst snd]. split; [exact Hm |]. split; [| exact Hall].
    apply Hmax. apply in_map_iff. exists (q, m). now split. }
  split; [| split].
  - clear Hlocal. induction Hrun as [| s [q m] l l' (r & Hr) _ IH]; cbn [map]; constructor.
    + apply (InitializeVector_rank_returns adjacency r s q m Hr).
    + exact IH.
  - destruct locals as [| b l]; [cbn; lia |].
    destruct (Hlocal b) as (H0 & Hle & _); [now left | lia].
  - intros q e Hq He. apply in_map_iff in Hq. destruct Hq as (b & <- & Hb).
    destruct (Hlocal b Hb) as (_ & Hle & Hall).
    destruct (Hall e He) as (c & Hc & Hcm). exists c. split; [exact Hc | lia].
Qed.

(** ** The previous content of the cost array *)

Lemma InitializeVector_rank_content (adjacency : list Z) (myrank : Z)
    (d1 d2 : QubitRegister BaseType) :
  same_shape d1 d2 ->
  InitializeVector_rank adjacency myrank d1 = InitializeVector_rank adjacency myrank d2.
Proof.
  intros (HN & HG & HL). unfold InitializeVector_rank. rewrite <- HN, <- HL.
  destruct (check_adjacency (NumQubits d1) adjacency) as [E | |]; try reflexivity.
  cbn [bind].
  set (L := LocalSize d1).
  set (body := fun (i : Z) '(st, max_cut, xbin) =>
       x0 <- cut_of_index (NumQubits d1) E adjacency
               (to_size_t (to_size_t (myrank * L) + i)) xbin ;;
       (let '(cut, xbin0) := x0 in
        st0 <- store st i (mkComplex (int_to_base cut) (int_to_base 0)) ;;
        Ok (st0, (if cut >? max_cut then cut else max_cut), xbin0))).
  pose (Rel := fun (i : Z) (t1 t2 : list (Complex BaseType) * Z * list Z) =>
    let '(st1, m1, x1) := t1 in
    let '(st2, m2, x2) := t2 in
    m1 = m2 /\ x1 = x2 /\ Z.of_nat (length st1) = L /\ Z.of_nat (length st2) = L /\
    forall j, (j < Z.to_nat i)%nat -> nth_error st1 j = nth_error st2 j).
  assert (Hrel : outcomes_related (Rel L)
            (for_loop 0 L body (state d1, 0, repeat 0 (Z.to_nat (NumQubits d1))))
            (for_loop 0 L body (state d2, 0, repeat 0 (Z.to_nat (NumQubits d1))))).
  { unfold for_loop.
    pose proof (for_count_related Rel (Z.to_nat (L - 0)) 0 body body
                  (state d1, 0, repeat 0 (Z.to_nat (NumQubits d1)))
                  (state d2, 0, repeat 0 (Z.to_nat (NumQubits d1)))) as H.
    replace (0 + Z.of_nat (Z.to_nat (L - 0))) with L in H
      by (unfold L, LocalSize; lia).
    apply H.
    - cbn. repeat split; try reflexivity.
      + symmetry. exact HL.
      + intros j Hj. cbn in Hj. lia.
    - intros i [[st1 m1] x1] [[st2 m2] x2] Hi (<- & <- & H1 & H2 & Hsame).
      unfold body.
      destruct (cut_of_index (NumQubits d1) E adjacency
                  (to_size_t (to_size_t (myrank * L) + i)) x1)
        as [[cut xb'] | |]; cbn [bind outcomes_related]; try exact I.
      rewrite !store_Ok by lia. cbn [bind outcomes_related].
      repeat split; try (rewrite set_nth_length; assumption).
      intros j Hj. destruct (Nat.eq_dec j (Z.to_nat i)) as [-> | Hne].
      + rewrite !set_nth_same by lia. reflexivity.
      + rewrite !set_nth_other by lia. apply Hsame. lia. }
  fold body.
  destruct (for_loop 0 L body (state d1, 0, repeat 0 (Z.to_nat (NumQubits d1))))
    as [[[st1 m1] x1] | |],
    (for_loop 0 L body (state d2, 0, repeat 0 (Z.to_nat (NumQubits d1))))
    as [[[st2 m2] x2] | |]; cbn in Hrel; try contradiction; try reflexivity.
  destruct Hrel as (<- & _ & H1 & H2 & Hsame). cbn [bind].
  assert (Est : st1 = st2).
  { apply nth_error_ext. intros j.
    destruct (Nat.lt_ge_cases j (Z.to_nat L)) as [Hj | Hj]; [now apply Hsame |].
    rewrite (proj2 (nth_error_None st1 j)), (proj2 (nth_error_None st2 j)) by lia.
    reflexivity. }
  subst st2. unfold with_state. now rewrite HN, HG.
Qed.

(** X7.  The cost array is fully overwritten.  Two calls on registers of the
    same shape (number of qubits, global and local sizes on every rank) have
    the same outcome, whatever the two registers held before: the same
    failure, or the same cost array and the same maximum. *)
Theorem X7_previous_content_is_irrelevant (diag1 diag2 : list (QubitRegister BaseType))
    (adjacency : list Z) :
  Forall2 same_shape diag1 diag2 ->
  InitializeVectorAsMaxCutCostFunction diag1 adjacency
  = InitializeVectorAsMaxCutCostFunction diag2 adjacency.
Proof.
  intros Hshape. unfold InitializeVectorAsMaxCutCostFunction.
  rewrite (on_each_rank_content (InitializeVector_rank adjacency) same_shape diag1 diag2);
    [reflexivity | | exact Hshape].
  intros r a b Hab. now apply InitializeVector_rank_content.
Qed.

(** * The cost builder followed by the histogram *)

Lemma global_entry_concat (L : Z) (regs : list (QubitRegister BaseType)) (x : Z) :
  0 < L -> Forall (fun q => LocalSize q = L) regs -> 0 <= x ->
  global_entry L regs x = nth_error (concat (map (@state BaseType) regs)) (Z.to_nat x).
Proof.
  intros HL Hall. revert x. induction Hall as [| q r Hq _ IH]; intros x Hx.
  - unfold global_entry. cbn [map concat].
    destruct (Z.to_nat (x / L)), (Z.to_nat x); reflexivity.
  - unfold LocalSize in Hq. cbn [map concat].
    destruct (Z_lt_ge_dec x L) as [Hlt | Hge].
    + unfold global_entry. rewrite Z.div_small, Z.mod_small by lia.
      cbn [Z.to_nat nth_error]. rewrite nth_error_app1 by lia. reflexivity.
    + rewrite nth_error_app2 by lia.
      replace (Z.to_nat x - length (state q))%nat with (Z.to_nat (x - L)) by lia.
      rewrite <- IH by lia. unfold global_entry.
      assert (Ediv : x / L = (x - L) / L + 1)
        by (rewrite <- Z_div_plus_full by lia; f_equal; lia).
      assert (Emod : x mod L = (x - L) mod L)
        by (rewrite <- (Z_mod_plus_full (x - L) 1 L); f_equal; lia).
      assert (0 <= (x - L) / L) by (apply Z.div_pos; lia).
      rewrite Ediv, Emod.
      replace (Z.to_nat ((x - L) / L + 1)) with (S (Z.to_nat ((x - L) / L))) by lia.
      reflexivity.
Qed.

Lemma concat_states_length (L : Z) (regs : list (QubitRegister BaseType)) :
  Forall (fun q => LocalSize q = L) regs ->
  Z.of_nat (length (concat (map (@state BaseType) regs))) = Z.of_nat (length regs) * L.
Proof.
  induction 1 as [| q r Hq _ IH]; [reflexivity |].
  cbn [map concat length]. rewrite length_app. unfold LocalSize in Hq. lia.
Qed.

(** X16.  The maximum returned by the cost builder sizes the histogram.  For
    an adjacency matrix with the invariants of section 3 whose entries sum
    to less than [2^31], the cost array and the maximum [max_cost > 0] that
    the builder returns, a [BaseType] that holds the integers up to
    [max_cost] exactly, and amplitude shards of matching sizes with valid
    schedules: the entry of global index [x] is the cut count of its
    coloring and converts back to it, and the histogram call with
    [max_value = max_cost] returns [max_cost + 1] buckets, bucket [b] being
    the sum, in the order of the run, of [|amplitude[i]|^2] over the entries
    whose cost converts to [b]. *)
Theorem X16_builder_then_histogram (mpi : plan) (n L : Z) (adjacency : list Z)
    (diag diag' : list (QubitRegister BaseType)) (max_cost : Z)
    (regs : list (list (list Z) * QubitRegister BaseType * QubitRegister BaseType)) :
  adjacency_invariants n adjacency ->
  entry_sum adjacency < 2 ^ 31 ->
  distributed n L diag ->
  InitializeVectorAsMaxCutCostFunction diag adjacency = Ok (diag', max_cost) ->
  0 < max_cost ->
  exact_up_to max_cost ->
  Forall histogram_ready regs ->
  map snd regs = diag' ->
  (forall x, 0 <= x < 2 ^ n ->
     global_entry L diag' x = Some (stored_cost (cut_value n adjacency x)) /\
     base_to_int (real (stored_cost (cut_value n adjacency x)))
     = cut_value n adjacency x) /\
  exists hist,
    GetHistogramFromCostFunction mpi regs max_cost = Ok hist /\
    Z.of_nat (length hist) = max_cost + 1 /\
    forall b, 0 <= b <= max_cost ->
      nth (Z.to_nat b) hist zero = bucket_mass mpi regs b.
Proof.
  intros Hinv Hsum Hdist Hrun Hm Hexact Hready Hsnd.
  pose proof Hdist as (Hn & _).
  destruct (InitializeVector_invariants n L adjacency diag Hinv Hsum Hdist)
    as (d'' & m'' & Hrun' & Hdist' & Hstored & (_ & Hmax) & Hbounds).
  rewrite Hrun in Hrun'. injection Hrun' as <- <-.
  destruct (distributed_sizes n L diag' Hdist') as (HL & HP).
  destruct Hdist' as (_ & HPL & Hshape).
  assert (Hloc : Forall (fun q : QubitRegister BaseType => LocalSize q = L) diag').
  { apply Forall_impl with (2 := Hshape). intros q (_ & _ & H). exact H. }
  assert (Hpow : 0 < 2 ^ n) by (apply Z.pow_pos_nonneg; lia).
  assert (Hback : forall x, 0 <= x < 2 ^ n ->
            base_to_int (real (stored_cost (cut_value n adjacency x)))
            = cut_value n adjacency x).
  { intros x Hx. cbn [stored_cost real]. apply Hexact.
    split; [apply Hbounds | now apply Hmax]. }
  split; [intros x Hx; split; [now apply Hstored | now apply Hback] |].
  apply GetHistogram_Ok; [exact Hm | exact Hready |].
  intros d Hd.
  assert (Ecosts : cost_array regs = concat (map (@state BaseType) diag')).
  { unfold cost_array. rewrite <- Hsnd, map_map. reflexivity. }
  rewrite Ecosts in Hd. apply In_nth_error in Hd. destruct Hd as (k & Hk).
  assert (Hklt : (k < length (concat (map (@state BaseType) diag')))%nat)
    by (apply nth_error_Some; congruence).
  pose proof (concat_states_length L diag' Hloc) as Hlen.
  pose proof (global_entry_concat L diag' (Z.of_nat k) HL Hloc (Nat2Z.is_nonneg k)) as E.
  rewrite Nat2Z.id, Hk, Hstored in E by lia. injection E as E. rewrite <- E.
  rewrite Hback by lia. split; [apply Hbounds | apply Hmax; lia].
Qed.

End CostArray.

Lemma one_edge_weights_fit : weights_fit_int [0; 1; 1; 0].
Proof. unfold weights_fit_int. vm_compute. reflexivity. Qed.

Lemma X4_cost_is_weight_of_cut_edges_witness :
  square 2 [0; 1; 1; 0] /\ symmetric 2 [0; 1; 1; 0] /\ zero_diagonal 2 [0; 1; 1; 0] /\
  weights_fit_int [0; 1; 1; 0] /\
  distributed 2 4 [blank_diag] /\
  exists diag' max_cost,
    InitializeVectorAsMaxCutCostFunction (A := binary64) [blank_diag] [0; 1; 1; 0]
    = Ok (diag', max_cost) /\
    forall x, 0 <= x < 2 ^ 2 ->
      global_entry 4 diag' x
      = Some (stored_cost (A := binary64) (cut_edges_weight 2 [0; 1; 1; 0] x)).
Proof.
  destruct one_edge_invariants as [Hsq _ Hsym Hdiag _].
  split; [exact Hsq |]. split; [exact Hsym |]. split; [exact Hdiag |].
  split; [exact one_edge_weights_fit |]. split; [exact blank_diag_distributed |].
  exact (X4_cost_is_weight_of_cut_edges (A := binary64) 2 4 [0; 1; 1; 0] [blank_diag]
           Hsq Hsym Hdiag one_edge_weights_fit blank_diag_distributed).
Defined.

Lemma X5_opposite_coloring_witness :
  square 2 [0; 1; 1; 0] /\ symmetric 2 [0; 1; 1; 0] /\ zero_diagonal 2 [0; 1; 1; 0] /\
  distributed 2 4 [blank_diag] /\
  exists diag' max_cost,
    InitializeVectorAsMaxCutCostFunction (A := binary64) [blank_diag] [0; 1; 1; 0]
    = Ok (diag', max_cost) /\
    global_entry 4 diag' 0 = Some (stored_cost (A := binary64) 0) /\
    forall x, 0 <= x < 2 ^ 2 ->
      global_entry 4 diag' (complement 2 x) = global_entry 4 diag' x.
Proof.
  destruct one_edge_invariants as [Hsq _ Hsym Hdiag _].
  split; [exact Hsq |]. split; [exact Hsym |]. split; [exact Hdiag |].
  split; [exact blank_diag_distributed |].
  exact (X5_opposite_coloring (A := binary64) 2 4 [0; 1; 1; 0] [blank_diag]
           Hsq Hsym Hdiag blank_diag_distributed).
Defined.

Lemma one_arc_run :
  InitializeVectorAsMaxCutCostFunction (A := binary64) [blank_diag] [0; 2; 0; 0]
  = Ok ([costs64 2 4 [0; 1; 1; 0]], 1).
Proof. vm_compute. reflexivity. Qed.

Lemma X6_returned_cost_array_witness :
  InitializeVectorAsMaxCutCostFunction (A := binary64) [blank_diag] [0; 2; 0; 0]
  = Ok ([costs64 2 4 [0; 1; 1; 0]], 1) /\
  Forall2 same_shape [blank_diag] [costs64 2 4 [0; 1; 1; 0]] /\
  0 <= 1 /\
  forall q e,
    In q [costs64 2 4 [0; 1; 1; 0]] -> In e (state q) ->
    exists c, e = stored_cost (A := binary64) c /\ c <= 1.
Proof.
  split; [exact one_arc_run |].
  exact (X6_returned_cost_array (A := binary64) _ _ _ _ one_arc_run).
Defined.

Lemma X7_previous_content_is_irrelevant_witness :
  Forall2 same_shape [blank_diag] [costs_two_qubits] /\
  InitializeVectorAsMaxCutCostFunction (A := binary64) [blank_diag] [0; 3; 3; 0]
  = InitializeVectorAsMaxCutCostFunction (A := binary64) [costs_two_qubits] [0; 3; 3; 0].
Proof.
  assert (Hs : Forall2 same_shape [blank_diag] [costs_two_qubits])
    by (constructor; [repeat split | constructor]).
  split; [exact Hs |].
  exact (X7_previous_content_is_irrelevant (A := binary64)
           [blank_diag] [costs_two_qubits] [0; 3; 3; 0] Hs).
Defined.

Lemma two_qubits_ready :
  Forall (histogram_ready (BaseType := spec_float))
    [([[0; 1; 2; 3]], uniform_two_qubits, costs_two_qubits)].
Proof.
  constructor; [| constructor]. split; [split; reflexivity |].
  exact serial_schedule_4.
Qed.

Lemma one_edge_run :
  InitializeVectorAsMaxCutCostFunction (A := binary64) [blank_diag] [0; 1; 1; 0]
  = Ok ([costs_two_qubits], 1).
Proof. vm_compute. reflexivity. Qed.

Lemma X16_builder_then_histogram_witness :
  adjacency_invariants 2 [0; 1; 1; 0] /\
  entry_sum [0; 1; 1; 0] < 2 ^ 31 /\
  distributed 2 4 [blank_diag] /\
  InitializeVectorAsMaxCutCostFunction (A := binary64) [blank_diag] [0; 1; 1; 0]
  = Ok ([costs_two_qubits], 1) /\
  0 < 1 /\
  exact_up_to (A := binary64) 1 /\
  Forall (histogram_ready (BaseType := spec_float))
    [([[0; 1; 2; 3]], uniform_two_qubits, costs_two_qubits)] /\
  map snd [([[0; 1; 2; 3]], uniform_two_qubits, costs_two_qubits)] = [costs_two_qubits] /\
  (forall x, 0 <= x < 2 ^ 2 ->
     global_entry 4 [costs_two_qubits] x
     = Some (stored_cost (A := binary64) (cut_value 2 [0; 1; 1; 0] x)) /\
     base_to_int (Arithmetic := binary64)
       (real (stored_cost (A := binary64) (cut_value 2 [0; 1; 1; 0] x)))
     = cut_value 2 [0; 1; 1; 0] x) /\
  exists hist,
    GetHistogramFromCostFunction (A := binary64) one_rank
      [([[0; 1; 2; 3]], uniform_two_qubits, costs_two_qubits)] 1 = Ok hist /\
    Z.of_nat (length hist) = 1 + 1 /\
    forall b, 0 <= b <= 1 ->
      nth (Z.to_nat b) hist (zero (A := binary64))
      = bucket_mass (A := binary64) one_rank
          [([[0; 1; 2; 3]], uniform_two_qubits, costs_two_qubits)] b.
Proof.
  assert (H1 : 0 < 1) by lia.
  split; [exact one_edge_invariants |]. split; [exact one_edge_fits |].
  split; [exact blank_diag_distributed |].
  split; [exact one_edge_run |]. split; [exact H1 |]. split; [exact exact_up_to_1 |].
  split; [exact two_qubits_ready |]. split; [reflexivity |].
  exact (X16_builder_then_histogram (A := binary64) one_rank 2 4 [0; 1; 1; 0]
           [blank_diag] [costs_two_qubits] 1 _ one_edge_invariants one_edge_fits
           blank_diag_distributed one_edge_run H1 exact_up_to_1 two_qubits_ready eq_refl).
Defined.

(** Without that exactness the two functions do not fit: in single
    precision the cost 16777219 of one edge of that weight is stored as
    16777220, above the returned maximum. *)
Example single_precision_rounds_costs :
  InitializeVectorAsMaxCutCostFunction (A := binary32)
    [mkQubitRegister 2 4 (repeat (stored_cost (A := binary32) 0) 4)]
    [0; 16777219; 16777219; 0]
  = Ok ([mkQubitRegister 2 4
           (map (stored_cost (A := binary32)) [0; 16777219; 16777219; 0])], 16777219) /\
  base_to_int (Arithmetic := binary32) (int_to_base (Arithmetic := binary32) 16777219)
  = 16777220.
Proof. split; vm_compute; reflexivity. Qed.

(** * The encoder on bit vectors *)

Lemma bits_value_inj (z1 z2 : list Z) :
  Forall is_bit z1 -> Forall is_bit z2 -> length z2 = length z1 ->
  bits_value z1 = bits_value z2 -> z1 = z2.
Proof.
  intros H1. revert z2. induction H1 as [| b1 r1 Hb1 _ IH]; intros z2 H2 Hlen Hv.
  - destruct z2; [reflexivity | discriminate].
  - destruct H2 as [| b2 r2 Hb2 H2]; [discriminate |].
    cbn [bits_value] in Hv. cbn [length] in Hlen.
    assert (b1 = b2 /\ bits_value r1 = bits_value r2) as [-> Hr]
      by (destruct Hb1, Hb2; subst; lia).
    f_equal. apply IH; [assumption | lia | assumption].
Qed.

Lemma bits_value_high_zeros (z : list Z) (p : nat) :
  bits_value (z ++ repeat 0 p) = bits_value z.
Proof.
  induction z as [| b r IH]; cbn [app bits_value].
  - induction p as [| p IHp]; cbn [repeat bits_value]; lia.
  - now rewrite IH.
Qed.

Lemma high_zeros_are_bits (z : list Z) (p : nat) :
  Forall is_bit z -> Forall is_bit (z ++ repeat 0 p).
Proof.
  intros H. apply Forall_app. split; [exact H |].
  induction p; constructor; [now left | assumption].
Qed.

(** X18.  On vectors of between 1 and 64 entries, all 0 or 1, the encoder
    returns a number below [2^size]; two such vectors of the same size with
    the same result are equal; and zeros appended at the most significant
    end, up to 64 entries in total, do not change the result. *)
Theorem X18_encoder_on_bit_vectors (z1 z2 : list Z) (p : nat) :
  Forall is_bit z1 -> Forall is_bit z2 ->
  1 <= Z.of_nat (length z1) -> Z.of_nat (length z1 + p) <= 64 ->
  length z2 = length z1 ->
  exists k1 k2,
    utility.ConvertToDecimal z1 = Ok k1 /\
    utility.ConvertToDecimal z2 = Ok k2 /\
    0 <= k1 < 2 ^ Z.of_nat (length z1) /\
    (k1 = k2 -> z1 = z2) /\
    utility.ConvertToDecimal (z1 ++ repeat 0 p) = Ok k1.
Proof.
  intros H1 H2 Hlo Hhi Hlen.
  exists (bits_value z1), (bits_value z2).
  split; [apply ConvertToDecimal_exact; [assumption | lia] |].
  split; [apply ConvertToDecimal_exact; [assumption | lia] |].
  split; [now apply bits_value_range |].
  split; [now apply bits_value_inj |].
  rewrite ConvertToDecimal_exact.
  - now rewrite bits_value_high_zeros.
  - now apply high_zeros_are_bits.
  - rewrite length_app, repeat_length. lia.
Qed.

Lemma X18_encoder_on_bit_vectors_witness :
  Forall is_bit [1; 0] /\ Forall is_bit [0; 1] /\
  1 <= Z.of_nat (length [1; 0]) /\ Z.of_nat (length [1; 0] + 2) <= 64 /\
  length [0; 1] = length [1; 0] /\
  exists k1 k2,
    utility.ConvertToDecimal [1; 0] = Ok k1 /\
    utility.ConvertToDecimal [0; 1] = Ok k2 /\
    0 <= k1 < 2 ^ Z.of_nat (length [1; 0]) /\
    (k1 = k2 -> [1; 0] = [0; 1]) /\
    utility.ConvertToDecimal ([1; 0] ++ repeat 0 2) = Ok k1.
Proof.
  assert (H1 : Forall is_bit [1; 0])
    by (constructor; [now right | constructor; [now left | constructor]]).
  assert (H2 : Forall is_bit [0; 1])
    by (constructor; [now left | constructor; [now right | constructor]]).
  assert (Hlo : 1 <= Z.of_nat (length [1; 0])) by (cbn; lia).
  assert (Hhi : Z.of_nat (length [1; 0] + 2) <= 64) by (cbn; lia).
  split; [exact H1 |]. split; [exact H2 |]. split; [exact Hlo |].
  split; [exact Hhi |]. split; [reflexivity |].
  exact (X18_encoder_on_bit_vectors [1; 0] [0; 1] 2 H1 H2 Hlo Hhi eq_refl).
Defined.

(** * Integers in the floating-point formats *)

Lemma iter_xO_shiftl (m p : positive) :
  Zpos (Pos.iter xO m p) = Zpos m * 2 ^ Zpos p.
Proof.
  rewrite <- Z.shiftl_mul_pow2 by lia. cbn [Z.shiftl].
  apply (Pos.iter_swap_gen _ _ Zpos xO (Z.mul 2)). reflexivity.
Qed.

Lemma iter_succ_add (x p : positive) : Pos.iter Pos.succ x p = (x + p)%positive.
Proof.
  induction p as [| p IH] using Pos.peano_ind.
  - cbn. lia.
  - rewrite Pos.iter_succ, IH. lia.
Qed.

Lemma digits2_pos_iter_xO (m p : positive) :
  digits2_pos (Pos.iter xO m p) = (digits2_pos m + p)%positive.
Proof.
  rewrite <- iter_succ_add.
  apply (Pos.iter_swap_gen _ _ digits2_pos xO Pos.succ). reflexivity.
Qed.

Lemma digits2_pos_bound (m : positive) (k : Z) :
  0 <= k -> Zpos m < 2 ^ k -> Zpos (digits2_pos m) <= k.
Proof.
  revert k. induction m as [p IH | p IH |]; intros k Hk Hm; cbn [digits2_pos].
  - assert (Hk1 : k <> 0) by (intros ->; cbn in Hm; lia).
    assert (Hp : Zpos p < 2 ^ (k - 1)).
    { replace k with (k - 1 + 1) in Hm by lia. rewrite Z.pow_add_r in Hm by lia. lia. }
    specialize (IH (k - 1) ltac:(lia) Hp). lia.
  - assert (Hk1 : k <> 0) by (intros ->; cbn in Hm; lia).
    assert (Hp : Zpos p < 2 ^ (k - 1)).
    { replace k with (k - 1 + 1) in Hm by lia. rewrite Z.pow_add_r in Hm by lia. lia. }
    specialize (IH (k - 1) ltac:(lia) Hp). lia.
  - assert (Hk1 : k <> 0) by (intros ->; cbn in Hm; lia). lia.
Qed.

(** A positive integer of at most [prec] bits is a number of the format:
    its mantissa is shifted to [prec] bits and nothing is rounded. *)
Lemma binary_round_integer (prec emax : Z) (m : positive) :
  2 <= emax -> prec <= emax ->
  Zpos (digits2_pos m) <= prec ->
  exists mz ez,
    binary_round prec emax false m 0 = S754_finite false mz ez /\
    ez <= 0 /\ Zpos mz = Zpos m * 2 ^ (- ez).
Proof.
  intros He Hpe Hd. unfold binary_round, shl_align.
  set (d := Zpos (digits2_pos m)) in *.
  assert (Hfexp : fexp prec emax (d + 0) = d - prec).
  { unfold fexp, emin. lia. }
  rewrite Hfexp.
  assert (Haux : forall mz ez,
            Zpos (digits2_pos mz) = prec -> ez = d - prec ->
            binary_round_aux prec emax false (Zpos mz) ez loc_Exact
            = S754_finite false mz ez).
  { intros mz ez Hmz Hez. unfold binary_round_aux, shr_fexp.
    cbn [Zdigits2 shr_record_of_loc].
    assert (E : fexp prec emax (Zpos (digits2_pos mz) + ez) - ez = 0)
      by (unfold fexp, emin; lia).
    rewrite E. cbn [shr shr_m loc_of_shr_record round_nearest_even Zdigits2
                    shr_record_of_loc].
    rewrite E. cbn [shr shr_m].
    destruct (Z.leb_spec ez (emax - prec)) as [_ | ?]; [reflexivity | lia]. }
  destruct (d - prec - 0) as [| q | q] eqn:Eq; try lia.
  - exists m, 0. split; [apply Haux; unfold d in *; lia |].
    split; [lia |]. cbn. lia.
  - exists (Pos.iter xO m q), (d - prec). split; [| split; [lia |]].
    + apply Haux; [| reflexivity]. rewrite digits2_pos_iter_xO. unfold d in *. lia.
    + rewrite iter_xO_shiftl. do 2 f_equal. lia.
Qed.

Lemma ieee_int_round_trip (prec emax k c : Z) :
  2 <= emax -> prec <= emax -> k <= prec -> k <= 31 ->
  0 <= c < 2 ^ k ->
  ieee_to_int (ieee_of_int prec emax c) = c.
Proof.
  intros He Hpe Hk Hk31 Hc. unfold ieee_of_int, binary_normalize.
  destruct c as [| m | m]; [reflexivity | | lia].
  assert (Hk0 : 0 <= k).
  { destruct (Z_lt_le_dec k 0) as [Hneg | ?]; [| assumption].
    rewrite Z.pow_neg_r in Hc by assumption. lia. }
  destruct (binary_round_integer prec emax m He Hpe) as (mz & ez & -> & Hez & Hmz).
  { pose proof (digits2_pos_bound m k Hk0 (proj2 Hc)). lia. }
  unfold ieee_to_int.
  assert (Hshift : Z.shiftl (Zpos mz) ez = Zpos m).
  { rewrite <- (Z.opp_involutive ez) at 1. rewrite Z.shiftl_opp_r, Z.shiftr_div_pow2 by lia.
    rewrite Hmz. apply Z.div_mul. apply Z.pow_nonzero; lia. }
  rewrite Hshift.
  assert (Hlt : Zpos m < 2 ^ 31).
  { apply Z.lt_le_trans with (2 ^ k); [lia |]. apply Z.pow_le_mono_r; lia. }
  destruct (Z.leb_spec (- 2 ^ 31) (Zpos m)), (Z.ltb_spec (Zpos m) (2 ^ 31));
    cbn [andb]; lia.
Qed.

(** X22.  Section 6 asks that cost values be integers that the floating-point
    type holds exactly.  In double precision every non-negative [int] is:
    stored as [Type(c, 0)] and converted back by [(int)], it is the same
    [c].  In single precision this holds of the integers up to [2^24], and
    no further: [2^24 + 1] is stored as [2^24]. *)
Theorem X22_integers_held_exactly :
  (forall bound, bound < 2 ^ 31 -> exact_up_to (A := binary64) bound) /\
  (forall bound, bound <= 2 ^ 24 -> exact_up_to (A := binary32) bound) /\
  base_to_int (Arithmetic := binary32) (int_to_base (Arithmetic := binary32) (2 ^ 24 + 1))
  = 2 ^ 24 /\
  ~ exact_up_to (A := binary32) (2 ^ 24 + 1).
Proof.
  split; [| split; [| split]].
  - intros bound Hb c Hc.
    apply (ieee_int_round_trip 53 1024 31 c); lia.
  - intros bound Hb c Hc.
    destruct (Z.eq_dec c (2 ^ 24)) as [-> | Hne]; [vm_compute; reflexivity |].
    apply (ieee_int_round_trip 24 128 24 c); lia.
  - vm_compute. reflexivity.
  - intros H. specialize (H (2 ^ 24 + 1) ltac:(lia)).
    vm_compute in H. discriminate H.
Qed.

Lemma X22_integers_held_exactly_witness :
  (5 < 2 ^ 31 /\ exact_up_to (A := binary64) 5) /\
  (5 <= 2 ^ 24 /\ exact_up_to (A := binary32) 5).
Proof.
  assert (H64 : 5 < 2 ^ 31) by lia.
  assert (H32 : 5 <= 2 ^ 24) by lia.
  split.
  - split; [exact H64 |]. exact (proj1 X22_integers_held_exactly 5 H64).
  - split; [exact H32 |]. exact (proj1 (proj2 X22_integers_held_exactly) 5 H32).
Defined.
